(** * hyperopt/tpe.py: the Tree-structured Parzen Estimator

    A shallow embedding of the numeric kernels, the adaptive Parzen
    estimator, the distribution adapters, the trial filter and the
    refinement / orchestration code of [tpe.py], with the properties the
    specification states about them.

    Conventions.
    - A Python exception is a value of [exn]; a function that can raise
      returns a [result].
    - The arithmetic of the adaptive Parzen estimator is an interface
      ([DType]) with two instances: the real numbers (ideal arithmetic,
      used for the general theorems) and IEEE binary64 (Rocq's primitive
      floats, used to run the code on concrete inputs, where 0/0 is [nan]
      as in numpy).
    - The samplers, the densities and the refinement are stated over the
      reals; the trial filter and the selection of the best documents,
      which only order their losses and values, over the rationals, but
      for [gamma], which is a binary64 number and is multiplied as such.
    - numpy's random number generator is an interface ([Generator])
      whose calls may raise.
    - A one-dimensional numpy array is a [list]; a Python dict is a
      [gmap], a set a [gset].
    - A loop that need not end takes a number of iterations it may run
      ([fuel]) and returns [None] when they do not suffice. *)

From Stdlib Require Import Reals Lra Lia List ZArith String QArith Qround.
From Stdlib Require Import Floats.PrimFloat.
From Stdlib Require Numbers.Cyclic.Int63.Uint63 Floats.SpecFloat Floats.FloatOps.
From stdpp Require Import gmap list sorting.

Set Warnings "-inexact-float,-register-all".

Open Scope string_scope.
Open Scope list_scope.

(** [sqrt] is the real square root; the binary64 one is [PrimFloat.sqrt]. *)
Abbreviation sqrt := R_sqrt.sqrt (only parsing).

(** ** Exceptions *)

Inductive exn : Type :=
| TypeError (msg : string)
| ValueError (msg : string)
| AssertionError
| NotImplementedError
| IndexError
| AttributeError (msg : string)
| UnboundLocalError (name : string)
| OverflowError (msg : string).

Inductive result (A : Type) : Type :=
| Ok (a : A)
| Raise (e : exn).
Arguments Ok {A} a.
Arguments Raise {A} e.

Definition rbind {A B} (r : result A) (k : A -> result B) : result B :=
  match r with
  | Ok a => k a
  | Raise e => Raise e
  end.

Notation "x <- r ;;; k" := (rbind r (fun x => k))
  (at level 100, r at next level, right associativity).

(** [assert c] *)
Definition py_assert (c : bool) : result unit :=
  if c then Ok tt else Raise AssertionError.

(** ** The numeric interface *)

Class DType (F : Type) : Type := {
  fzero : F;
  fone : F;
  fhalf : F;
  fadd : F -> F -> F;
  fsub : F -> F -> F;
  fmul : F -> F -> F;
  fdiv : F -> F -> F;
  fsqrt : F -> F;
  fltb : F -> F -> bool;
  feqb : F -> F -> bool;
  of_nat : nat -> F
}.

Declare Scope np_scope.
Delimit Scope np_scope with np.
Notation "x + y" := (fadd x y) : np_scope.
Notation "x - y" := (fsub x y) : np_scope.
Notation "x * y" := (fmul x y) : np_scope.
Notation "x / y" := (fdiv x y) : np_scope.

Definition Rltb (x y : R) : bool := if Rlt_dec x y then true else false.
Definition Rleb (x y : R) : bool := if Rle_dec x y then true else false.
Definition Reqb (x y : R) : bool := if Req_dec_T x y then true else false.

#[export] Instance R_dtype : DType R := {|
  fzero := 0%R;
  fone := 1%R;
  fhalf := (1 / 2)%R;
  fadd := Rplus;
  fsub := Rminus;
  fmul := Rmult;
  fdiv := Rdiv;
  fsqrt := R_sqrt.sqrt;
  fltb := Rltb;
  feqb := Reqb;
  of_nat := INR
|}.

#[export] Instance float64 : DType float := {|
  fzero := 0%float;
  fone := 1%float;
  fhalf := 0.5%float;
  fadd := PrimFloat.add;
  fsub := PrimFloat.sub;
  fmul := PrimFloat.mul;
  fdiv := PrimFloat.div;
  fsqrt := PrimFloat.sqrt;
  fltb := PrimFloat.ltb;
  feqb := PrimFloat.eqb;
  of_nat := fun n => PrimFloat.of_uint63 (Uint63.of_Z (Z.of_nat n))
|}.

(** ** Sorting indices *)

(** [np.argsort]: the indices of [a] in ascending order of their values,
    by insertion of each index into the sorted suffix; equal values keep
    their original order. *)
Section Argsort.
Context {A : Type} (ltb : A -> A -> bool) (d : A).

Fixpoint insert_by (a : list A) (i : nat) (sorted : list nat) : list nat :=
  match sorted with
  | [] => [i]
  | j :: rest =>
      if ltb (nth j a d) (nth i a d)
      then j :: insert_by a i rest
      else i :: j :: rest
  end.

Definition argsort_by (a : list A) : list nat :=
  fold_right (insert_by a) [] (seq 0 (length a)).
End Argsort.

Section Numpy.
Context {F : Type} `{DType F}.

(** A value that differs from itself: only [nan]. *)
Definition isnan (x : F) : bool := negb (feqb x x).

(** [np.maximum], [np.minimum]: the larger (smaller) operand, [nan] if
    either is. *)
Definition maximum (a b : F) : F :=
  if isnan a then a else if isnan b then b else if fltb a b then b else a.

Definition minimum (a b : F) : F :=
  if isnan a then a else if isnan b then b else if fltb b a then b else a.

(** [np.clip(x, lo, hi)] on one element. *)
Definition clip1 (lo hi x : F) : F := minimum (maximum x lo) hi.

Definition clip (xs : list F) (lo hi : F) : list F := map (clip1 lo hi) xs.

(** [xs.sum()], accumulated left to right from 0. *)
Definition np_sum (xs : list F) : F := fold_left fadd xs fzero.

(** [np.all(xs == ys)] for arrays of one shape. *)
Fixpoint all_eq (xs ys : list F) : bool :=
  match xs, ys with
  | [], [] => true
  | x :: xs', y :: ys' => feqb x y && all_eq xs' ys'
  | _, _ => false
  end.

(** [a[idx]] with an index array: gather. *)
Definition gather (a : list F) (idx : list nat) : list F :=
  map (fun i => nth i a fzero) idx.

(** [a[idx] = src]: scatter, performed in place, left to right. *)
Definition scatter (a : list F) (idx : list nat) (src : list F) : list F :=
  fold_left (fun acc p => <[fst p := snd p]> acc) (combine idx src) a.

(** [np.argsort(a)] *)
Definition argsort (a : list F) : list nat := argsort_by fltb fzero a.

(** [a[i:j]] for [0 <= i], [0 <= j]. *)
Definition slice (i j : nat) (a : list F) : list F := firstn (j - i) (skipn i a).

(** Element-wise binary operation on arrays of one length. *)
Fixpoint map2 (f : F -> F -> F) (xs ys : list F) : list F :=
  match xs, ys with
  | x :: xs', y :: ys' => f x y :: map2 f xs' ys'
  | _, _ => []
  end.

Definition at_ (a : list F) (i : nat) : F := nth i a fzero.

(** *** [adaptive_parzen_normal] (tpe.py, lines 267-345) *)

(** The [len(mus) >= 2] branch, up to and including the un-sorting. *)
Definition parzen_neighbours (mus_orig : list F) : result (list F * list F) :=
  let n := length mus_orig in
  let order := argsort mus_orig in
  let mus := gather mus_orig order in
  let sigma := repeat fzero n in
  let sigma := list_inserts 1
                 (map2 maximum
                    (map2 fsub (slice 1 (n - 1) mus) (slice 0 (n - 2) mus))
                    (map2 fsub (skipn 2 mus) (slice 1 (n - 1) mus)))
                 sigma in
  let '(lsigma, usigma) :=
    if (2 <? n)%nat
    then ((at_ mus 2 - at_ mus 0)%np, (at_ mus (n - 1) - at_ mus (n - 3))%np)
    else ((at_ mus 1 - at_ mus 0)%np, (at_ mus (n - 1) - at_ mus (n - 2))%np) in
  let sigma := <[0%nat := lsigma]> sigma in
  let sigma := <[(n - 1)%nat := usigma]> sigma in
  let mus := scatter mus order mus in
  let sigma := scatter sigma order sigma in
  _ <- py_assert (all_eq mus_orig mus) ;;;
  Ok (mus, sigma).

(** Lines 332-334: [1 + arange(len)], then the last entry is decreased
    by one and multiplied by [prior_weight]. *)
Definition ramp_weights (len : nat) (prior_weight : F) : list F :=
  let weights := map (fun i => (fone + of_nat i)%np) (seq 0 len) in
  let last := (len - 1)%nat in
  let weights := <[last := (at_ weights last - fone)%np]> weights in
  <[last := (at_ weights last * prior_weight)%np]> weights.

(** Line 337: [weights / weights.sum()]. *)
Definition normalize (weights : list F) : list F :=
  let total := np_sum weights in
  map (fun w => (w / total)%np) weights.

(** Lines 289-323: the means and the raw bandwidths, by the number of
    observations. *)
Definition parzen_components (mus : list F) (prior_mu prior_sigma : F)
  : result (list F * list F) :=
  match mus with
  | [] => Ok ([prior_mu], [prior_sigma])
  | [x] => Ok ([x; prior_mu], [(prior_sigma * fhalf)%np; prior_sigma])
  | _ =>
      ms <- parzen_neighbours mus ;;;
      Ok (fst ms ++ [prior_mu], snd ms ++ [prior_sigma])
  end.

Definition adaptive_parzen_normal (mus : list F) (prior_weight prior_mu prior_sigma : F)
  : result (list F * list F * list F) :=
  ms <- parzen_components mus prior_mu prior_sigma ;;;
  let '(mus, sigma) := ms in
  let maxsigma := prior_sigma in
  let minsigma := (prior_sigma / fsqrt (fone + of_nat (length mus)))%np in
  let sigma := clip sigma minsigma maxsigma in
  let weights := ramp_weights (length mus) prior_weight in
  let weights := normalize weights in
  Ok (weights, mus, sigma).
End Numpy.


(** ** pyll expression graphs and the distribution adapters
    (tpe.py, lines 353-434)

    The adapters do not compute: they build the posterior's expression
    graph. A graph node is a literal or the application of a named scope
    function to positional and keyword arguments. *)

Inductive Apply : Type :=
| Literal (obj : R)
| Node (name : string) (pos_args : list Apply) (named_args : list (string * Apply)).

(** [scope.name(args, kwargs)]: the node applying the scope function [name]. *)
Definition scope (name : string) (args : list Apply) (kwargs : list (string * Apply)) : Apply :=
  Node name args kwargs.

(** Python's arithmetic on graph nodes builds nodes. *)
Definition py_add (a b : Apply) : Apply := scope "add" [a; b] [].
Definition py_sub (a b : Apply) : Apply := scope "sub" [a; b] [].
Definition py_mul (a b : Apply) : Apply := scope "mul" [a; b] [].
Definition scope_log (a : Apply) : Apply := scope "log" [a] [].

(** [weights, mus, sigmas = node]: unpacking a node of [o_len = 3]. *)
Definition getitem (a : Apply) (i : nat) : Apply := scope "getitem" [a; Literal (INR i)] [].
Definition unpack3 (a : Apply) : Apply * Apply * Apply := (getitem a 0, getitem a 1, getitem a 2).

Definition scope_adaptive_parzen_normal (obs prior_weight prior_mu prior_sigma : Apply) : Apply :=
  scope "adaptive_parzen_normal" [obs; prior_weight; prior_mu; prior_sigma] [].

Section Adapters.
Variables (obs prior_weight : Apply) (size rng : Apply).

Definition ap_uniform_sampler (low high : Apply) : Apply :=
  let prior_mu := py_mul (Literal (1 / 2)) (py_add high low) in
  let prior_sigma := py_mul (Literal 1) (py_sub high low) in
  let '(weights, mus, sigmas) :=
    unpack3 (scope_adaptive_parzen_normal obs prior_weight prior_mu prior_sigma) in
  scope "GMM1" [weights; mus; sigmas]
    [("low", low); ("high", high); ("size", size); ("rng", rng)].

Definition ap_quniform_sampler (low high q : Apply) : Apply :=
  let prior_mu := py_mul (Literal (1 / 2)) (py_add high low) in
  let prior_sigma := py_mul (Literal 1) (py_sub high low) in
  let '(weights, mus, sigmas) :=
    unpack3 (scope_adaptive_parzen_normal obs prior_weight prior_mu prior_sigma) in
  scope "GMM1" [weights; mus; sigmas]
    [("low", low); ("high", high); ("q", q); ("size", size); ("rng", rng)].

Definition ap_loguniform_sampler (low high : Apply) : Apply :=
  let prior_mu := py_mul (Literal (1 / 2)) (py_add high low) in
  let prior_sigma := py_mul (Literal 1) (py_sub high low) in
  let '(weights, mus, sigmas) :=
    unpack3 (scope_adaptive_parzen_normal (scope_log obs) prior_weight prior_mu prior_sigma) in
  scope "LGMM1" [weights; mus; sigmas]
    [("low", low); ("high", high); ("size", size); ("rng", rng)].

Definition ap_qloguniform_sampler (low high q : Apply) : Apply :=
  let prior_mu := py_mul (Literal (1 / 2)) (py_add high low) in
  let prior_sigma := py_mul (Literal 1) (py_sub high low) in
  let '(weights, mus, sigmas) :=
    unpack3 (scope_adaptive_parzen_normal obs prior_weight prior_mu prior_sigma) in
  scope "LGMM1" [weights; mus; sigmas; low; high]
    [("q", q); ("size", size); ("rng", rng)].

Definition ap_normal_sampler (mu sigma : Apply) : Apply :=
  let '(weights, mus, sigmas) :=
    unpack3 (scope_adaptive_parzen_normal obs prior_weight mu sigma) in
  scope "GMM1" [weights; mus; sigmas] [("size", size); ("rng", rng)].

Definition ap_qnormal_sampler (mu sigma q : Apply) : Apply :=
  let '(weights, mus, sigmas) :=
    unpack3 (scope_adaptive_parzen_normal obs prior_weight mu sigma) in
  scope "GMM1" [weights; mus; sigmas] [("q", q); ("size", size); ("rng", rng)].

Definition ap_loglognormal_sampler (mu sigma : Apply) : Apply :=
  let '(weights, mus, sigmas) :=
    unpack3 (scope_adaptive_parzen_normal (scope_log obs) prior_weight mu sigma) in
  scope "LGMM1" [weights; mus; sigmas] [("size", size); ("rng", rng)].

Definition ap_qlognormal_sampler (mu sigma q : Apply) : Apply :=
  let '(weights, mus, sigmas) :=
    unpack3 (scope_adaptive_parzen_normal (scope_log obs) prior_weight mu sigma) in
  scope "LGMM1" [weights; mus; sigmas] [("q", q); ("size", size); ("rng", rng)].
End Adapters.

(** The observation argument of the [adaptive_parzen_normal] call whose
    first output is the first argument (the weights) of a sampler node. *)
Definition parzen_input (sampler : Apply) : option Apply :=
  match sampler with
  | Node _ (Node "getitem" (Node "adaptive_parzen_normal" (o :: _) _ :: _) _ :: _) _ => Some o
  | _ => None
  end.

(** Nesting depth of a graph. *)
Fixpoint depth (a : Apply) : nat :=
  match a with
  | Literal _ => 0
  | Node _ pos _ => S (list_max (map depth pos))
  end.

(** ** Sampling from the (log-)Gaussian mixtures (tpe.py, lines 60-92
    and 181-219), over the reals *)

(** [mapM] for [result]. *)
Fixpoint for_each {A B} (f : A -> result B) (l : list A) : result (list B) :=
  match l with
  | [] => Ok []
  | x :: l' => y <- f x ;;; ys <- for_each f l' ;;; Ok (y :: ys)
  end.

(** [l[i]] *)
Definition py_index {A} (l : list A) (i : nat) : result A :=
  match l !! i with
  | Some x => Ok x
  | None => Raise IndexError
  end.

(** [a[active]] for an array of indices. *)
Definition fancy_index {A} (a : list A) (active : list nat) : result (list A) :=
  for_each (py_index a) active.

(** The random number generator [rng] is an external collaborator. The
    samplers call it for the index of a component and for a normal
    variate, one at a time in the truncated branch and for [n] at once in
    the other. A call returns its value and the next state of the
    generator, or raises (for a scale or weights it does not accept).
    An index it returns is the argmax of an array as long as [weights]:
    it is below that length, and with no weight the argmax raises
    ValueError. The vectorised calls return arrays of the length asked
    for. *)
Class Generator (RandomState : Type) : Type := {
  (* np.argmax(rng.multinomial(1, weights)) *)
  argmax_multinomial1 : RandomState -> list R -> result (nat * RandomState);
  (* np.argmax(rng.multinomial(1, weights, (n,)), axis=1) *)
  argmax_multinomial : RandomState -> list R -> nat -> result (list nat * RandomState);
  (* rng.normal(loc, scale) *)
  rng_normal : RandomState -> R -> R -> result (R * RandomState);
  (* rng.normal(loc=locs, scale=scales) *)
  rng_normal_array : RandomState -> list R -> list R -> result (list R * RandomState);
  argmax_multinomial1_range :
    forall rng weights active rng',
      argmax_multinomial1 rng weights = Ok (active, rng') -> (active < length weights)%nat;
  argmax_multinomial1_empty :
    forall rng, exists msg, argmax_multinomial1 rng [] = Raise (ValueError msg);
  argmax_multinomial_range :
    forall rng weights n active rng',
      argmax_multinomial rng weights n = Ok (active, rng') ->
      Forall (fun a => (a < length weights)%nat) active;
  argmax_multinomial_empty :
    forall rng n, exists msg, argmax_multinomial rng [] n = Raise (ValueError msg);
  argmax_multinomial_length :
    forall rng weights n active rng',
      argmax_multinomial rng weights n = Ok (active, rng') -> length active = n;
  rng_normal_array_length :
    forall rng locs scales samples rng',
      length locs = length scales ->
      rng_normal_array rng locs scales = Ok (samples, rng') -> length samples = length locs
}.

Definition np_ceil (x : R) : R := IZR (Zceil x).

(** The loop [while len(samples) < n_samples] of both samplers: an
    attempt draws a candidate and advances the generator, or raises; an
    accepted candidate is appended. [None] when [fuel] iterations did not
    end the loop. *)
Section Rejection.
Context {RandomState : Type}.
Variable attempt : RandomState -> result (R * RandomState).
Variable accept : R -> bool.

Fixpoint rejection_loop (fuel n_samples : nat) (rng : RandomState) (samples : list R)
  : option (result (list R * RandomState)) :=
  if (length samples <? n_samples)%nat then
    match fuel with
    | O => None
    | S fuel' =>
        match attempt rng with
        | Raise e => Some (Raise e)
        | Ok (draw, rng) =>
            if accept draw
            then rejection_loop fuel' n_samples rng (samples ++ [draw])
            else rejection_loop fuel' n_samples rng samples
        end
    end
  else Some (Ok (samples, rng)).

(** The candidates of the first [k] attempts, or the exception of the
    first attempt that raises. *)
Fixpoint attempts (k : nat) (rng : RandomState) : result (list R) :=
  match k with
  | O => Ok []
  | S k' =>
      match attempt rng with
      | Raise e => Raise e
      | Ok (draw, rng) => rest <- attempts k' rng ;;; Ok (draw :: rest)
      end
  end.
End Rejection.

Section Sampling.
Context {RandomState : Type} {generator : Generator RandomState}.
Variables (weights mus sigmas : list R).

(** Lines 84-85 and 209-210: choose a component, draw from it. *)
Definition component_draw (rng : RandomState) : result (R * RandomState) :=
  chosen <- argmax_multinomial1 rng weights ;;;
  let '(active, rng) := chosen in
  loc <- py_index mus active ;;;
  scale <- py_index sigmas active ;;;
  rng_normal rng loc scale.

(** Lines 71-72 and 187-196: the vectorised draw of the untruncated
    branch. *)
Definition component_draws (check_active : bool) (rng : RandomState) (n_samples : nat)
  : result (list R * RandomState) :=
  chosen <- argmax_multinomial rng weights n_samples ;;;
  let '(active, rng) := chosen in
  _ <- py_assert (negb check_active || (length active =? n_samples)%nat) ;;;
  loc <- fancy_index mus active ;;;
  scale <- fancy_index sigmas active ;;;
  rng_normal_array rng loc scale.

(** Lines 84-87: one candidate of the truncated [GMM1]. *)
Definition GMM1_attempt (q : option R) (rng : RandomState) : result (R * RandomState) :=
  drawn <- component_draw rng ;;;
  let '(draw, rng) := drawn in
  Ok (match q with
      | Some q => (np_ceil (draw / q) * q)%R
      | None => draw
      end, rng).

(** Line 88: [low <= draw < high]. *)
Definition in_window (low high draw : R) : bool := Rleb low draw && Rltb draw high.

Definition GMM1 (fuel : nat) (low high q : option R) (rng : RandomState) (n_samples : nat)
  : option (result (list R * RandomState)) :=
  if negb ((length weights =? length mus)%nat && (length mus =? length sigmas)%nat)
  then Some (Raise AssertionError)
  else
    match low, high with
    | None, None =>
        Some (drawn <- component_draws false rng n_samples ;;;
              let '(samples, rng) := drawn in
              Ok (match q with
                  | Some q => map (fun s => maximum (np_ceil (s / q) * q)%R q) samples
                  | None => samples
                  end, rng))
    | Some low, Some high =>
        if Rleb high low
        then Some (Raise (ValueError "low >= high"))
        else rejection_loop (GMM1_attempt q) (in_window low high) fuel n_samples rng []
    | _, _ => Some (Raise (TypeError "float() argument must be a string or a number"))
    end.

(** Lines 209-213: one candidate of the truncated [LGMM1]. *)
Definition LGMM1_attempt (q : option R) (rng : RandomState) : result (R * RandomState) :=
  drawn <- component_draw rng ;;;
  let '(draw, rng) := drawn in
  let draw := exp draw in
  Ok (match q with
      | Some q => maximum (np_ceil (draw / q) * q)%R q
      | None => draw
      end, rng).

(** [LGMM1] does not assert that the three arrays have one length; it
    asserts [len(active) == n_samples] in the untruncated branch. *)
Definition LGMM1 (fuel : nat) (low high q : option R) (rng : RandomState) (n_samples : nat)
  : option (result (list R * RandomState)) :=
  match low, high with
  | None, None =>
      Some (drawn <- component_draws true rng n_samples ;;;
            let '(samples, rng) := drawn in
            let samples := map exp samples in
            Ok (match q with
                | Some q => map (fun s => maximum (np_ceil (s / q) * q)%R q) samples
                | None => samples
                end, rng))
  | Some low, Some high =>
      if Rleb high low
      then Some (Raise (ValueError "low >= high"))
      else
        let exp_low := exp low in
        let exp_high := exp high in
        rejection_loop (LGMM1_attempt q) (in_window exp_low exp_high) fuel n_samples rng []
  | _, _ => Some (Raise (TypeError "float() argument must be a string or a number"))
  end.
End Sampling.

(** ** Selecting the best document per trial id
    ([TreeParzenEstimator.suggest1], tpe.py, lines 840-859)

    Of a trial document the selection reads its [tid], its status, the
    optional [from_tid] of its [misc], and the loss [bandit.loss] gives it.
    Losses are finite floats and are only compared: they are rationals. *)

Definition STATUS_OK : string := "ok".

Record trial_doc : Type := {
  doc_tid : Z;
  doc_status : string;
  misc_from_tid : option Z;
  bandit_loss : Q
}.

(** [doc['misc'].get('from_tid', doc['tid'])] *)
Definition group_tid (doc : trial_doc) : Z := default (doc_tid doc) (misc_from_tid doc).

Definition is_ok (doc : trial_doc) : bool := String.eqb (doc_status doc) STATUS_OK.

(** One iteration of the loop over [trials.trials] (lines 847-856), on the
    two dictionaries [best_docs] and [best_docs_loss]. *)
Definition best_docs_step (st : gmap Z trial_doc * gmap Z Q) (doc : trial_doc)
  : gmap Z trial_doc * gmap Z Q :=
  let '(best_docs, best_docs_loss) := st in
  if negb (is_ok doc) then st
  else
    let tid := group_tid doc in
    let loss := bandit_loss doc in
    (* best_docs_loss.setdefault(tid, loss) *)
    let best_docs_loss :=
      match best_docs_loss !! tid with
      | Some _ => best_docs_loss
      | None => <[tid := loss]> best_docs_loss
      end in
    if Qle_bool loss (default loss (best_docs_loss !! tid))
    then (<[tid := doc]> best_docs, <[tid := loss]> best_docs_loss)
    else (best_docs, best_docs_loss).

Definition best_docs_loop (trials : list trial_doc) : gmap Z trial_doc * gmap Z Q :=
  fold_left best_docs_step trials (∅, ∅).

(** [docs = best_docs.items(); docs.sort(); docs = [v for k, v in docs]]:
    the kept documents in ascending order of their key. *)
Definition key_le (a b : Z * trial_doc) : Prop := (fst a <= fst b)%Z.

#[export] Instance key_le_dec (a b : Z * trial_doc) : Decision (key_le a b).
Proof. unfold key_le. apply _. Defined.

Definition sorted_values (best_docs : gmap Z trial_doc) : list trial_doc :=
  map snd (merge_sort key_le (map_to_list best_docs)).

Definition select_best_docs (trials : list trial_doc) : list trial_doc :=
  sorted_values (fst (best_docs_loop trials)).

(** Lines 840-859: the duplicate-tid assertion, then the selection. *)
Definition suggest1_docs (trials : list trial_doc) : result (list trial_doc) :=
  if bool_decide (NoDup (map doc_tid trials))
  then Ok (select_best_docs trials)
  else Raise AssertionError.

(** ** The trial filter ([ap_filter_trials], tpe.py, lines 441-468)

    Trial ids are integers; losses and observed values are rationals
    with exact arithmetic: they are only compared. [gamma] is a binary64
    number: the product [gamma * len(l_vals)] is rounded to binary64
    before its ceiling is taken. *)

Definition Qltb (x y : Q) : bool := negb (Qle_bool y x).

(** The position a Python slice bound [n] denotes in a sequence of
    length [len]. *)
Definition slice_bound (n : Z) (len : nat) : nat :=
  if (n <? 0)%Z then Z.to_nat (Z.max 0 (Z.of_nat len + n))
  else Z.to_nat (Z.min n (Z.of_nat len)).

(** [l[:n]] and [l[n:]] *)
Definition slice_to {A} (n : Z) (l : list A) : list A := firstn (slice_bound n (length l)) l.
Definition slice_from {A} (n : Z) (l : list A) : list A := skipn (slice_bound n (length l)) l.

(** [a[js]] for an array of positions [js]; a position past the end
    raises. *)
Fixpoint index_all {A} (a : list A) (js : list nat) : result (list A) :=
  match js with
  | [] => Ok []
  | j :: js' =>
      match a !! j with
      | Some x => rest <- index_all a js' ;;; Ok (x :: rest)
      | None => Raise IndexError
      end
  end.

(** The order of Python tuples [(i, v)]. *)
Definition iv_leb (a b : Z * Q) : bool :=
  (fst a <? fst b)%Z || ((fst a =? fst b)%Z && Qle_bool (snd a) (snd b)).

Definition iv_le (a b : Z * Q) : Prop := iv_leb a b = true.

#[export] Instance iv_le_dec (a b : Z * Q) : Decision (iv_le a b).
Proof. unfold iv_le. apply _. Defined.

(** The exact value [(-1)^s * m * 2^e] of a finite binary64 number. *)
Definition finite_value (s : bool) (m : positive) (e : Z) : Q :=
  let num := if s then Z.neg m else Z.pos m in
  if (0 <=? e)%Z then inject_Z (num * 2 ^ e) else Qmake num (Z.to_pos (2 ^ (- e))).

(** [int(np.ceil(x))]: the ceiling of a finite number is exact; Python
    does not convert nan and the infinities to an integer. *)
Definition int_ceil (x : float) : result Z :=
  match FloatOps.Prim2SF x with
  | SpecFloat.S754_zero _ => Ok 0%Z
  | SpecFloat.S754_finite s m e => Ok (Qceiling (finite_value s m e))
  | SpecFloat.S754_infinity _ =>
      Raise (OverflowError "cannot convert float infinity to integer")
  | SpecFloat.S754_nan => Raise (ValueError "cannot convert float NaN to integer")
  end.

Section FilterTrials.
Variables (l_idxs : list Z) (l_vals : list Q) (gamma : float).

(** Line 451: [int(np.ceil(gamma * len(l_vals)))]; the length, below
    2^63 in Python, is converted to binary64 and the product is the
    binary64 one. *)
Definition n_below : result Z :=
  int_ceil (PrimFloat.mul gamma (of_nat (F := float) (length l_vals))).

(** Lines 451-459: the set of trial ids to keep. *)
Definition keep_idxs (above_or_below : string) : result (gset Z) :=
  n_below <- n_below ;;;
  let l_order := argsort_by Qltb 0%Q l_vals in
  if String.eqb above_or_below "above_gamma" then
    tids <- index_all l_idxs (slice_from n_below l_order) ;;;
    Ok (list_to_set tids)
  else if String.eqb above_or_below "below_gamma" then
    tids <- index_all l_idxs (slice_to n_below l_order) ;;;
    Ok (list_to_set tids)
  else Raise (ValueError above_or_below).

(** Lines 465-468. *)
Definition ap_filter_trials (o_idxs : list Z) (o_vals : list Q) (above_or_below : string)
  : result (list Q) :=
  keep <- keep_idxs above_or_below ;;;
  let rval_iv :=
    List.filter (fun iv => bool_decide (fst iv ∈ keep)) (combine o_idxs o_vals) in
  let rval_iv := merge_sort iv_le rval_iv in
  Ok (map snd rval_iv).
End FilterTrials.

(** ** Densities of the log-Gaussian mixture (tpe.py, lines 94-99,
    138-179 and 222-259), over the reals

    [scipy.special.erf] is a parameter. Arrays of different lengths
    broadcast as in numpy: a length-one operand is repeated, any other
    mismatch raises. *)

Definition EPS : R := (/ 10 ^ 12)%R.

Definition broadcast_len (n m : nat) : result nat :=
  if (n =? m)%nat then Ok n
  else if (n =? 1)%nat then Ok m
  else if (m =? 1)%nat then Ok n
  else Raise (ValueError "operands could not be broadcast together").

Definition broadcast2 (f : R -> R -> R) (xs ys : list R) : result (list R) :=
  n <- broadcast_len (length xs) (length ys) ;;;
  let stretch (l : list R) := if (length l =? n)%nat then l else repeat (at_ l 0) n in
  Ok (map2 f (stretch xs) (stretch ys)).

Section Densities.
Variable erf : R -> R.
Local Open Scope R_scope.

(** Lines 94-99. *)
Definition normal_cdf (x mu sigma : R) : R :=
  let top := x - mu in
  let bottom := maximum (sqrt 2 * sigma) EPS in
  let z := top / bottom in
  (1 / 2) * (1 + erf z).

(** Lines 138-157, for an array [x] and scalar [mu], [sigma]. *)
Definition lognormal_cdf (x : list R) (mu sigma : R) : result (list R) :=
  if (length x =? 0)%nat then Ok []
  else if existsb (fun xi => Rltb xi 0) x
  then Raise (ValueError "negative arg to lognormal_cdf")
  else
    Ok (map (fun xi =>
               let top := ln (maximum xi EPS) - mu in
               let bottom := maximum (sqrt 2 * sigma) EPS in
               let z := top / bottom in
               1 / 2 + 1 / 2 * erf z) x).

(** Lines 160-169, for a column [x] of samples and the component
    arrays [mu], [sigma]: a matrix with one row per sample. *)
Definition lognormal_lpdf (x : list R) (mu sigma : list R) : result (list (list R)) :=
  _ <- py_assert (forallb (fun s => negb (Rltb s 0)) sigma) ;;;
  let sigma := map (fun s => maximum s EPS) sigma in
  _ <- broadcast_len (length mu) (length sigma) ;;;
  for_each (fun xi =>
              let Z := map (fun s => s * xi * sqrt (2 * PI)) sigma in
              E <- broadcast2 (fun m s => 1 / 2 * ((ln xi - m) / s) ^ 2) mu sigma ;;;
              broadcast2 (fun e z => - e - ln z) E Z) x.

(** [x.max()] of one row. *)
Definition row_max (row : list R) : result R :=
  match row with
  | [] => Raise (ValueError "zero-size array to reduction operation maximum")
  | x :: rest => Ok (fold_left maximum rest x)
  end.

(** Lines 222-225, for a matrix of [C] columns. *)
Definition logsum_rows (C : nat) (x : list (list R)) : result (list R) :=
  if (C =? 0)%nat
  then Raise (ValueError "zero-size array to reduction operation maximum")
  else
    for_each (fun row =>
                m <- row_max row ;;;
                Ok (ln (np_sum (map (fun v => exp (v - m)) row)) + m)) x.

(** Lines 239-245: the mass of the truncation window. *)
Definition p_accept_of (weights mus sigmas : list R) (low high : option R) : result R :=
  match low, high with
  | None, None => Ok 1
  | Some low, Some high =>
      hi <- broadcast2 (normal_cdf high) mus sigmas ;;;
      lo <- broadcast2 (normal_cdf low) mus sigmas ;;;
      d <- broadcast2 Rminus hi lo ;;;
      wd <- broadcast2 Rmult weights d ;;;
      Ok (np_sum wd)
  | _, _ => Raise (TypeError "unsupported operand type(s) for -: NoneType")
  end.

(** Lines 253-256: the loop over the components. *)
Fixpoint interval_mass (samples : list R) (q : R) (components : list (R * R * R))
  (prob : list R) : result (list R) :=
  match components with
  | [] => Ok prob
  | (w, mu, sigma) :: rest =>
      upper <- lognormal_cdf samples mu sigma ;;;
      let prob := map2 Rplus prob (map (Rmult w) upper) in
      lower <- lognormal_cdf (map (fun s => s - q) samples) mu sigma ;;;
      let prob := map2 Rminus prob (map (Rmult w) lower) in
      interval_mass samples q rest prob
  end.

(** Lines 228-259. *)
Definition LGMM1_lpdf (samples weights mus sigmas : list R) (low high q : option R)
  : result (list R) :=
  p_accept <- p_accept_of weights mus sigmas low high ;;;
  match q with
  | None =>
      lpdfs <- lognormal_lpdf samples mus sigmas ;;;
      C <- broadcast_len (length mus) (length sigmas) ;;;
      C <- broadcast_len C (length weights) ;;;
      rows <- for_each (fun row => broadcast2 Rplus row (map ln weights)) lpdfs ;;;
      logsum_rows C rows
  | Some q =>
      let prob := repeat 0 (length samples) in
      prob <- interval_mass samples q (combine (combine weights mus) sigmas) prob ;;;
      Ok (map (fun p => ln p - ln p_accept) prob)
  end.
End Densities.

(** ** The derivative-free refinement
    ([TreeParzenEstimator.refine_no_grad], tpe.py, lines 669-822), over
    the reals *)

(** [sub in s] for Python strings. *)
Definition contains (sub s : string) : bool :=
  match String.index 0 sub s with
  | Some _ => true
  | None => false
  end.

Definition str_in (s : string) (names : list string) : bool := existsb (String.eqb s) names.

(** [node.obj]: the value of a literal node. *)
Definition obj (a : Apply) : result R :=
  match a with
  | Literal x => Ok x
  | Node _ _ _ => Raise (AttributeError "obj")
  end.

(** [node.pos_args] and [node.named_args]. *)
Definition pos_args (a : Apply) : list Apply :=
  match a with
  | Literal _ => []
  | Node _ pos _ => pos
  end.

Definition named_args (a : Apply) : list (string * Apply) :=
  match a with
  | Literal _ => []
  | Node _ _ named => named
  end.

(** Lines 708-711 and 727-730: the quantisation step of a prior node,
    its third positional argument or else its keyword argument [q]. *)
Definition q_of (sval : Apply) : result R :=
  match pos_args sval !! 2%nat with
  | Some a => obj a
  | None =>
      qs <- for_each (fun na => obj (snd na))
              (List.filter (fun na => String.eqb (fst na) "q") (named_args sval)) ;;;
      py_index qs 0
  end.

(** The fields of the estimator that the refinement reads. Its
    dictionaries have an entry for every hyperparameter label. *)
Record TreeParzenEstimator : Type := {
  n_EI_candidates : nat;
  name_by_nid : string -> string;
  vals_by_nid : string -> Apply;
  post_below_vals : string -> nat
}.

(** What the first loop of [refine_no_grad] collects. *)
Record refinement : Type := {
  nids_to_optimize : list string;
  all_vals : list R;
  lbounds : list R;
  ubounds : list R;
  qlevels : list (option R)
}.

Definition no_refinement : refinement :=
  {| nids_to_optimize := []; all_vals := []; lbounds := []; ubounds := []; qlevels := [] |}.

Definition extend (r : refinement) (nid : string) (vals : list R)
  (lbound ubound : R) (q : option R) : refinement :=
  {| nids_to_optimize := nids_to_optimize r ++ [nid];
     all_vals := all_vals r ++ vals;
     lbounds := lbounds r ++ [lbound];
     ubounds := ubounds r ++ [ubound];
     qlevels := qlevels r ++ [q] |}.

(** [any(pti < lbi for pti, lbi in zip(pt, lbounds))] and its mirror. *)
Definition any_below (pt bounds : list R) : bool :=
  existsb (fun pl => Rltb (fst pl) (snd pl)) (combine pt bounds).

Definition any_above (pt bounds : list R) : bool :=
  existsb (fun pu => Rltb (snd pu) (fst pu)) (combine pt bounds).

(** [[pti if qi is None else f(pti, qi) for (pti, qi) in zip(pt, qlevels)]] *)
Definition snap (f : R -> R -> R) (pt : list R) (qs : list (option R)) : list R :=
  map (fun pq => match snd pq with
                 | None => fst pq
                 | Some q => f (fst pq) q
                 end) (combine pt qs).

(** The defaults [BIG=1e15] and [MEDIUM=1e4] of [refine_no_grad]. *)
Definition BIG_default : R := (10 ^ 15)%R.
Definition MEDIUM_default : R := (10 ^ 4)%R.

Section Refine.
Variable self : TreeParzenEstimator.

(** The external collaborators: [pyll.rec_eval] of the below posterior's
    (idxs, vals), which draws the candidate and records what it evaluated
    in the memo; [pyll.rec_eval] of the two log-likelihoods; and
    [scipy.optimize.fmin_powell] with [maxfun=500]. *)
Variable rec_eval_draw :
  gmap nat (list R) -> list (string * list R) * gmap nat (list R).
Variable rec_eval_llik : gmap nat (list R) -> R * R.
Variable fmin_powell : (list R -> result R) -> list R -> result (list R).

(** [i_idxs_vals[1][nid]] *)
Definition vals_at (i_vals : list (string * list R)) (nid : string) : list R :=
  match List.find (fun nv => String.eqb (fst nv) nid) i_vals with
  | Some nv => snd nv
  | None => []
  end.

(** Lines 688-738: one iteration of the collecting loop. *)
Definition collect_step (MEDIUM : R) (r : refinement) (nv : string * list R)
  : result refinement :=
  let '(nid, vals) := nv in
  if (length vals =? 0)%nat then Ok r
  else
    _ <- py_assert (length vals =? 1)%nat ;;;
    let dist := name_by_nid self nid in
    let sval := vals_by_nid self nid in
    if str_in dist ["uniform"; "quniform"; "loguniform"; "qloguniform"] then
      lbound <- (a <- py_index (pos_args sval) 0 ;;; obj a) ;;;
      ubound <- (a <- py_index (pos_args sval) 1 ;;; obj a) ;;;
      let '(lb, ub) :=
        if contains "log" dist then (exp lbound, exp ubound) else (lbound, ubound) in
      if contains "q" dist
      then q <- q_of sval ;;; Ok (extend r nid vals lb ub (Some q))
      else Ok (extend r nid vals lb ub None)
    else if str_in dist ["normal"; "qnormal"; "lognormal"; "qlognormal"] then
      let '(lb, ub) :=
        if contains "log" dist then ((/ 10 ^ 12)%R, MEDIUM) else ((- MEDIUM)%R, MEDIUM) in
      if contains "q" dist
      then q <- q_of sval ;;; Ok (extend r nid vals lb ub (Some q))
      else Ok (extend r nid vals lb ub None)
    else if String.eqb "randint" dist then Ok r
    else Raise NotImplementedError.

Fixpoint collect (MEDIUM : R) (r : refinement) (i_vals : list (string * list R))
  : result refinement :=
  match i_vals with
  | [] => Ok r
  | nv :: rest => r' <- collect_step MEDIUM r nv ;;; collect MEDIUM r' rest
  end.

(** Lines 770-781 and 813-821: bind the coordinates of [pt] to the value
    nodes of the below posterior in [memo], one node per label. *)
Fixpoint bind_vals (i_vals : list (string * list R)) (memo : gmap nat (list R))
  (nids : list string) (pt : list R) (ii : nat) : result (gmap nat (list R) * nat) :=
  match nids with
  | [] => Ok (memo, ii)
  | nid :: rest =>
      let v := post_below_vals self nid in
      _ <- py_assert (bool_decide (is_Some (memo !! v))) ;;;
      let nv := length (vals_at i_vals nid) in
      let new_vals := firstn nv (skipn ii pt) in
      bind_vals i_vals (<[v := new_vals]> memo) rest pt (ii + nv)
  end.

(** Lines 754-790: the objective handed to the optimizer. *)
Definition neg_EI (BIG : R) (memo : gmap nat (list R)) (i_vals : list (string * list R))
  (r : refinement) (pt : list R) : result R :=
  _ <- py_assert (length pt =? length (lbounds r))%nat ;;;
  if any_below pt (lbounds r) then Ok BIG
  else if any_above pt (ubounds r) then Ok BIG
  else
    let pt := snap (fun p q => np_ceil (/ 10 ^ 8 + p / q) * q)%R pt (qlevels r) in
    let opt_memo := memo in
    bound <- (_ <- py_assert (forallb (fun nid => (length (vals_at i_vals nid) =? 1)%nat)
                                (nids_to_optimize r)) ;;;
              bind_vals i_vals opt_memo (nids_to_optimize r) pt 0) ;;;
    let '(aa, bb) := rec_eval_llik (fst bound) in
    Ok (- (bb - aa))%R.

Definition refine_no_grad (memo : gmap nat (list R)) (BIG MEDIUM : R)
  : result (gmap nat (list R)) :=
  if (1 <? n_EI_candidates self)%nat then Raise NotImplementedError
  else
    let '(i_vals, memo) := rec_eval_draw memo in
    r <- collect MEDIUM no_refinement i_vals ;;;
    _ <- py_assert (length (all_vals r) =? length (nids_to_optimize r))%nat ;;;
    _ <- py_assert (length (all_vals r) =? length (lbounds r))%nat ;;;
    if any_below (all_vals r) (lbounds r)
    then Raise (ValueError "sampler did not respect lbound")
    else
      _ <- py_assert (length (all_vals r) =? length (ubounds r))%nat ;;;
      if any_above (all_vals r) (ubounds r)
      then
        (* line 752 builds the ValueError from [(pti, lbi)]; [lbi] is a
           local of the function that only the loops of lines 744 and 798
           bind, and neither has run *)
        Raise (UnboundLocalError "lbi")
      else
        found <- fmin_powell (neg_EI BIG memo i_vals r) (all_vals r) ;;;
        _ <- py_assert ((length found =? length (lbounds r))%nat
                        && (length (lbounds r) =? length (qlevels r))%nat) ;;;
        if any_below found (lbounds r) then Ok memo
        else if any_above found (ubounds r) then Ok memo
        else
          let found := snap (fun p q => np_ceil (p / q) * q)%R found (qlevels r) in
          bound <- bind_vals i_vals memo (nids_to_optimize r) found 0 ;;;
          _ <- py_assert (snd bound =? length (all_vals r))%nat ;;;
          Ok (fst bound).

(** [suggest1], lines 897-907: refine, then evaluate the below
    posterior's specification, indices, values and the two
    log-likelihoods in the memo the refinement returns. What
    [pyll.rec_eval] returns there is a parameter. *)
Variable Evaluated : Type.
Variable rec_eval_posterior : gmap nat (list R) -> Evaluated.

Definition suggest1_evaluate (memo : gmap nat (list R)) : result Evaluated :=
  memo <- refine_no_grad memo BIG_default MEDIUM_default ;;;
  Ok (rec_eval_posterior memo).
End Refine.


(** ** Linear forgetting ([TreeParzenEstimator.forget_filter], tpe.py,
    lines 635-653)

    [linear_forgetting] is the integer setting of the estimator, 0 when
    forgetting is off. The losses of the documents are numbers (the
    assertion that none is [None] holds of them); the statements after the
    [return] of the branch are never reached. *)
Definition forget_filter (linear_forgetting : Z) (docs : list trial_doc)
  : result (list trial_doc) :=
  if negb (linear_forgetting =? 0)%Z && (linear_forgetting <? Z.of_nat (length docs))%Z
  then
    let losses := map bandit_loss docs in
    let best_order := argsort_by Qltb 0%Q losses in
    index_all docs (slice_to linear_forgetting best_order)
  else Ok docs.

(** ** Density of the Gaussian mixture ([GMM1_lpdf], tpe.py, lines
    101-133), over the reals *)

Section MixtureDensity.
Variable erf : R -> R.
Local Open Scope R_scope.

(** Lines 126-129: the loop over the components. *)
Fixpoint normal_interval_mass (samples : list R) (q : R) (components : list (R * R * R))
  (prob : list R) : list R :=
  match components with
  | [] => prob
  | (w, mu, sigma) :: rest =>
      let prob := map2 Rplus prob (map (fun s => w * normal_cdf erf s mu sigma) samples) in
      let prob := map2 Rminus prob (map (fun s => w * normal_cdf erf (s - q) mu sigma) samples) in
      normal_interval_mass samples q rest prob
  end.

(** Lines 119-124: the row of one sample [x], its entry for the
    component [(w, mu, sigma)] being [-0.5 * mahal + log(coef)]. *)
Definition GMM1_row (p_accept : R) (components : list (R * R * R)) (x : R) : list R :=
  map (fun c =>
         let '(w, mu, sigma) := c in
         let dist := x - mu in
         let mahal := (dist / maximum sigma EPS) ^ 2 in
         let Z := sqrt (2 * PI * sigma ^ 2) in
         let coef := w / Z / p_accept in
         - (1 / 2) * mahal + ln coef) components.

Definition GMM1_lpdf (samples weights mus sigmas : list R) (low high q : option R)
  : result (list R) :=
  _ <- py_assert ((length weights =? length mus)%nat && (length mus =? length sigmas)%nat) ;;;
  p_accept <- p_accept_of erf weights mus sigmas low high ;;;
  let components := combine (combine weights mus) sigmas in
  match q with
  | None =>
      logsum_rows (length weights) (map (GMM1_row p_accept components) samples)
  | Some q =>
      let prob := repeat 0 (length samples) in
      let prob := normal_interval_mass samples q components prob in
      Ok (map (fun p => ln (maximum p EPS) - ln p_accept) prob)
  end.
End MixtureDensity.

(** ** Summing the log-likelihoods by trial ([idxs_prod], tpe.py, lines
    524-551), over the reals

    The two dictionaries are finite maps from labels to arrays; the loop
    visits the labels in the order of [map_to_list]. Besides a failed
    assertion the function can raise [KeyError], from [pos_of_tid[ii]]. *)

Inductive idxs_exn : Type :=
| AssertionFailed
| KeyError.

(** [dict(zip(full_idxs, range(len(full_idxs))))]: a later pair replaces
    an earlier one of the same key. *)
Definition pos_of_tid (full_idxs : list Z) : gmap Z nat :=
  fold_left (fun d kv => <[fst kv := snd kv]> d)
    (combine full_idxs (seq 0 (length full_idxs))) ∅.

(** Lines 548-549: [for ii, ll in zip(idxs, llik): rval[pos_of_tid[ii]] += ll].
    The positions of the dictionary are below [len(rval)]. *)
Fixpoint add_lliks (pos : gmap Z nat) (pairs : list (Z * R)) (rval : list R)
  : idxs_exn + list R :=
  match pairs with
  | [] => inr rval
  | (ii, ll) :: rest =>
      match pos !! ii with
      | Some p => add_lliks pos rest (alter (fun x => (x + ll)%R) p rval)
      | None => inl KeyError
      end
  end.

(** Lines 542-549: the loop over the labels. *)
Fixpoint idxs_prod_loop (pos : gmap Z nat) (llik_by_nid : gmap string (list R))
  (items : list (string * list Z)) (rval : list R) : idxs_exn + list R :=
  match items with
  | [] => inr rval
  | (nid, idxs) :: rest =>
      match llik_by_nid !! nid with
      | None => inl KeyError
      | Some llik =>
          if negb (forallb (fun ii => 1 <? ii)%Z idxs) then inl AssertionFailed
          else if negb (bool_decide (NoDup idxs)) then inl AssertionFailed
          else if negb (length idxs =? length llik)%nat then inl AssertionFailed
          else
            match add_lliks pos (combine idxs llik) rval with
            | inr rval => idxs_prod_loop pos llik_by_nid rest rval
            | inl e => inl e
            end
      end
  end.

Definition idxs_prod (full_idxs : list Z) (idxs_by_nid : gmap string (list Z))
  (llik_by_nid : gmap string (list R)) : idxs_exn + list R :=
  if negb (bool_decide (NoDup full_idxs)) then inl AssertionFailed
  else
    let rval := repeat 0%R (length full_idxs) in
    let pos_of_tid := pos_of_tid full_idxs in
    if negb (bool_decide (dom idxs_by_nid = dom llik_by_nid)) then inl AssertionFailed
    else idxs_prod_loop pos_of_tid llik_by_nid (map_to_list idxs_by_nid) rval.

(** ** The fake trial ids of the candidates ([suggest1], tpe.py, lines
    872-881) *)
Definition suggest1_fake_ids (n_EI_candidates : nat) (tids : list Z) (new_id : Z) : list Z :=
  let fake_id_0 :=
    match tids with
    | t :: rest => (Z.max (fold_left Z.max rest t) new_id + 2)%Z
    | [] => (new_id + 2)%Z
    end in
  (* range(fake_id_0, fake_id_0 + self.n_EI_candidates) *)
  map (fun k => (fake_id_0 + Z.of_nat k)%Z) (seq 0 n_EI_candidates).

(** ** Specification predicates and concrete inputs *)

Section Inputs.
Local Open Scope R_scope.

(** The weights sum to one within 1e-12, decided on binary64. *)
Definition sums_to_one (weights : list float) : bool :=
  PrimFloat.leb (PrimFloat.abs (np_sum weights - 1)%float) 1e-12%float.

(** A generator that reads its variates from two streams: the uniform
    variates that choose the components and the standard normal variates
    that its normal draws scale; every call consumes one variate per
    value it returns. *)
Record Stream : Type := {
  uniforms : nat -> R;
  gaussians : nat -> R;
  n_uniforms : nat;
  n_gaussians : nat
}.

(** The component a uniform variate [u] selects among [weights]. *)
Fixpoint pick (u : R) (weights : list R) : nat :=
  match weights with
  | [] => 0
  | [_] => 0
  | w :: rest => if Rltb u w then 0%nat else S (pick (u - w) rest)
  end.

Definition pick_range (u : R) (w : R) (weights : list R) :
  (pick u (w :: weights) < length (w :: weights))%nat.
Proof.
  revert u w. induction weights as [|w' weights IH]; intros u w; [simpl; lia|].
  change (pick u (w :: w' :: weights))
    with (if Rltb u w then 0%nat else S (pick (u - w) (w' :: weights))).
  destruct (Rltb u w); [simpl; lia|]. specialize (IH (u - w) w'). simpl in *. lia.
Defined.

Definition next_uniform (s : Stream) : Stream :=
  {| uniforms := uniforms s; gaussians := gaussians s;
     n_uniforms := S (n_uniforms s); n_gaussians := n_gaussians s |}.

Definition next_gaussian (s : Stream) : Stream :=
  {| uniforms := uniforms s; gaussians := gaussians s;
     n_uniforms := n_uniforms s; n_gaussians := S (n_gaussians s) |}.

Fixpoint stream_picks (s : Stream) (weights : list R) (n : nat) : list nat * Stream :=
  match n with
  | O => ([], s)
  | S n' =>
      let active := pick (uniforms s (n_uniforms s)) weights in
      let '(rest, s') := stream_picks (next_uniform s) weights n' in
      (active :: rest, s')
  end.

Fixpoint stream_normals (s : Stream) (locs scales : list R) : list R * Stream :=
  match locs, scales with
  | loc :: locs', scale :: scales' =>
      let x := loc + scale * gaussians s (n_gaussians s) in
      let '(rest, s') := stream_normals (next_gaussian s) locs' scales' in
      (x :: rest, s')
  | _, _ => ([], s)
  end.

Definition no_weights {A} : result A :=
  Raise (ValueError "attempt to get argmax of an empty sequence").

#[export] Instance stream_generator : Generator Stream.
Proof.
  refine {|
    argmax_multinomial1 s weights :=
      if (length weights =? 0)%nat then no_weights
      else Ok (pick (uniforms s (n_uniforms s)) weights, next_uniform s);
    argmax_multinomial s weights n :=
      if (length weights =? 0)%nat then no_weights
      else Ok (stream_picks s weights n);
    rng_normal s loc scale :=
      Ok (loc + scale * gaussians s (n_gaussians s), next_gaussian s);
    rng_normal_array s locs scales := Ok (stream_normals s locs scales)
  |}.
  - intros s weights active s' Hrun.
    destruct weights as [|w weights]; [discriminate Hrun|].
    injection Hrun as <- _. apply pick_range.
  - intros s. by eexists.
  - intros s weights n active s' Hrun.
    destruct weights as [|w weights]; [discriminate Hrun|].
    injection Hrun as Hrun. revert s active s' Hrun.
    induction n as [|n IH]; intros s active s' Hrun; simpl in Hrun.
    + injection Hrun as <- _. constructor.
    + destruct (stream_picks (next_uniform s) (w :: weights) n) as [rest s1] eqn:Hrest.
      injection Hrun as <- _. constructor; [apply pick_range | by eapply IH].
  - intros s n. by eexists.
  - intros s weights n active s' Hrun.
    destruct (length weights =? 0)%nat; [discriminate Hrun|].
    injection Hrun as Hrun. revert s active s' Hrun.
    induction n as [|n IH]; intros s active s' Hrun; simpl in Hrun.
    + by injection Hrun as <- <-.
    + destruct (stream_picks (next_uniform s) weights n) as [rest s1] eqn:Hrest.
      injection Hrun as <- <-. simpl. f_equal. by eapply IH.
  - intros s locs. revert s.
    induction locs as [|loc locs IH]; intros s [|scale scales] samples s' Hlen Hrun;
      simpl in *; try discriminate Hlen.
    + by injection Hrun as <- <-.
    + destruct (stream_normals (next_gaussian s) locs scales) as [rest s1] eqn:Hrest.
      injection Hrun as <- <-. simpl. f_equal.
      eapply (IH _ scales rest s1); [lia|]. by rewrite Hrest.
Defined.

(** A generator all of whose variates are zero, and one whose normal
    variates are 1/2, 5, 1/4 and then zero. *)
Definition zero_rng : Stream :=
  {| uniforms := fun _ => 0; gaussians := fun _ => 0; n_uniforms := 0; n_gaussians := 0 |}.

Definition example_rng : Stream :=
  {| uniforms := fun _ => 0; gaussians := fun k => nth k [1 / 2; 5; 1 / 4] 0;
     n_uniforms := 0; n_gaussians := 0 |}.

(** Two OK documents of the group 1 with the same loss: the second was
    spawned from the first. *)
Definition doc_a : trial_doc :=
  {| doc_tid := 1; doc_status := STATUS_OK; misc_from_tid := None; bandit_loss := 0%Q |}.
Definition doc_b : trial_doc :=
  {| doc_tid := 2; doc_status := STATUS_OK; misc_from_tid := Some 1%Z; bandit_loss := 0%Q |}.

(** [kept_in trials g b]: [b] is an OK document of group [g] in [trials],
    no OK document of [g] before it has a smaller loss, and every OK
    document of [g] after it has a strictly larger one. *)
Definition kept_in (trials : list trial_doc) (g : Z) (b : trial_doc) : Prop :=
  group_tid b = g /\ is_ok b = true /\
  exists pre post,
    trials = pre ++ b :: post
    /\ (forall d, In d pre -> is_ok d = true -> group_tid d = g ->
                  (bandit_loss b <= bandit_loss d)%Q)
    /\ (forall d, In d post -> is_ok d = true -> group_tid d = g ->
                  (bandit_loss b < bandit_loss d)%Q).

(** The loop invariant, after the documents [processed]. *)
Definition best_inv (processed : list trial_doc) (st : gmap Z trial_doc * gmap Z Q) : Prop :=
  (forall g, fst st !! g = None ->
     snd st !! g = None
     /\ forall d, In d processed -> is_ok d = true -> group_tid d <> g)
  /\ (forall g b, fst st !! g = Some b ->
        snd st !! g = Some (bandit_loss b) /\ kept_in processed g b).

(** The collected lists have one entry per label to optimise. *)
Definition aligned (r : refinement) : Prop :=
  length (all_vals r) = length (nids_to_optimize r)
  /\ length (lbounds r) = length (nids_to_optimize r)
  /\ length (ubounds r) = length (nids_to_optimize r)
  /\ length (qlevels r) = length (nids_to_optimize r).

(** An estimator with the single hyperparameter "x" of the family
    [dist], whose prior node has the positional arguments 0 and 1. *)
Definition example_tpe (dist : string) : TreeParzenEstimator :=
  {| n_EI_candidates := 1;
     name_by_nid := fun _ => dist;
     vals_by_nid := fun _ => scope dist [Literal 0; Literal 1] [];
     post_below_vals := fun _ => 7%nat |}.

(** The draw of the candidate [x] for the label "x". *)
Definition example_draw (x : R) (memo : gmap nat (list R))
  : list (string * list R) * gmap nat (list R) :=
  ([("x", [x])], <[7%nat := [x]]> memo).

(** Log-likelihoods that are constant. *)
Definition example_llik (memo : gmap nat (list R)) : R * R := (0, 0).

(** An optimizer that ends at the point [pt]. *)
Definition powell_to (pt : list R) (f : list R -> result R) (x0 : list R)
  : result (list R) := Ok pt.

(** [on_grid q s]: [s] is a positive multiple of the step [q]. *)
Definition on_grid (q s : R) : Prop := exists k : Z, (1 <= k)%Z /\ s = IZR k * q.

(** The families [refine_no_grad] optimises (lines 697 and 715). *)
Definition refinable (dist : string) : bool :=
  str_in dist ["uniform"; "quniform"; "loguniform"; "qloguniform"]
  || str_in dist ["normal"; "qnormal"; "lognormal"; "qlognormal"].

(** The sum of the log-likelihoods that [pairs] holds for the trial [t]. *)
Fixpoint sum_at (t : Z) (pairs : list (Z * R)) : R :=
  match pairs with
  | [] => 0
  | (ii, ll) :: rest => (if (ii =? t)%Z then ll else 0) + sum_at t rest
  end.

(** The sum, over the labels, of the log-likelihoods of the trial [t]. *)
Fixpoint total_at (t : Z) (llik_by_nid : gmap string (list R))
  (items : list (string * list Z)) : R :=
  match items with
  | [] => 0
  | (nid, idxs) :: rest =>
      sum_at t (combine idxs (default [] (llik_by_nid !! nid)))
      + total_at t llik_by_nid rest
  end.

(** The assertions of one iteration of [idxs_prod] hold of the arrays of
    the label [fst item]. *)
Definition label_ok (llik_by_nid : gmap string (list R)) (item : string * list Z) : Prop :=
  exists llik, llik_by_nid !! fst item = Some llik
               /\ Forall (fun ii => (1 < ii)%Z) (snd item)
               /\ NoDup (snd item)
               /\ length (snd item) = length llik.

(** The density of the normal distribution, and of the mixture of the
    components [(weights[k], mus[k], sigmas[k])]. *)
Definition normal_pdf (x mu sigma : R) : R :=
  / sqrt (2 * PI * sigma ^ 2) * exp (- ((x - mu) ^ 2 / (2 * sigma ^ 2))).

Definition mixture_pdf (weights mus sigmas : list R) (x : R) : R :=
  np_sum (map (fun c => fst (fst c) * normal_pdf x (snd (fst c)) (snd c))
            (combine (combine weights mus) sigmas)).

(** The density of the log-normal distribution, and of the mixture of
    the components [(weights[k], mus[k], sigmas[k])]. *)
Definition lognormal_pdf (x mu sigma : R) : R :=
  / (sigma * x * sqrt (2 * PI)) * exp (- ((ln x - mu) ^ 2 / (2 * sigma ^ 2))).

Definition lognormal_mixture_pdf (weights mus sigmas : list R) (x : R) : R :=
  np_sum (map (fun c => fst (fst c) * lognormal_pdf x (snd (fst c)) (snd c))
            (combine (combine weights mus) sigmas)).

(** The outcome of a sampler with the exponential of its samples. *)
Definition exp_samples {RandomState : Type} (out : option (result (list R * RandomState)))
  : option (result (list R * RandomState)) :=
  option_map (fun r => match r with
                       | Ok (samples, rng) => Ok (map exp samples, rng)
                       | Raise e => Raise e
                       end) out.
End Inputs.

(* ================================================================== *)
(** * Properties *)

(** ** Generic facts about the array helpers *)

Section NumpyFacts.
Context {F : Type} `{DType F}.

Lemma length_scatter (a : list F) idx src : length (scatter a idx src) = length a.
Proof.
  unfold scatter. generalize (combine idx src) as ps. intros ps.
  revert a. induction ps as [|p ps IH]; intros a; simpl; [done|].
  by rewrite IH, length_insert.
Qed.

Lemma scatter_lookup_notin (a : list F) idx src i :
  i ∉ idx -> scatter a idx src !! i = a !! i.
Proof.
  unfold scatter. revert a src.
  induction idx as [|j idx IH]; intros a src Hi; [done|].
  destruct src as [|x src]; [done|]. simpl.
  rewrite IH by set_solver.
  apply list_lookup_insert_ne. set_solver.
Qed.

Lemma scatter_lookup (a : list F) idx src j i x :
  NoDup idx -> idx !! j = Some i -> src !! j = Some x ->
  (i < length a)%nat -> scatter a idx src !! i = Some x.
Proof.
  unfold scatter. revert a src j.
  induction idx as [|k idx IH]; intros a src j Hnd Hj Hx Hlen; [done|].
  destruct src as [|y src]; [done|].
  apply NoDup_cons in Hnd as [Hk Hnd]. simpl.
  destruct j as [|j]; simpl in *.
  - injection Hj as ->. injection Hx as ->.
    fold (scatter (<[i:=x]> a) idx src).
    rewrite scatter_lookup_notin by done.
    by apply list_lookup_insert_eq.
  - eapply IH; eauto. by rewrite length_insert.
Qed.

Lemma insert_by_perm {A} (ltb : A -> A -> bool) (d : A) (a : list A) i sorted :
  insert_by ltb d a i sorted ≡ₚ i :: sorted.
Proof.
  induction sorted as [|j rest IH]; simpl; [done|].
  destruct (ltb _ _); [|done].
  rewrite IH. apply Permutation_swap.
Qed.

Lemma argsort_by_perm {A} (ltb : A -> A -> bool) (d : A) (a : list A) :
  argsort_by ltb d a ≡ₚ seq 0 (length a).
Proof.
  unfold argsort_by. generalize (seq 0 (length a)) as l.
  induction l as [|i l IH]; simpl; [done|].
  by rewrite insert_by_perm, IH.
Qed.

Lemma argsort_perm (a : list F) : argsort a ≡ₚ seq 0 (length a).
Proof. apply argsort_by_perm. Qed.

Lemma length_gather (a : list F) idx : length (gather a idx) = length idx.
Proof. unfold gather. by rewrite length_map. Qed.

(** Gathering along a permutation of the positions and scattering back
    along it restores the array. *)
Lemma scatter_gather (a b : list F) order :
  order ≡ₚ seq 0 (length a) -> length b = length a ->
  scatter b order (gather a order) = a.
Proof.
  intros Hperm Hlen. apply list_eq. intros i.
  destruct (decide (i < length a)%nat) as [Hi|Hi].
  - assert (Hin : i ∈ order).
    { rewrite Hperm. apply list_elem_of_In, in_seq. lia. }
    apply list_elem_of_lookup in Hin as [j Hj].
    assert (Hnd : NoDup order).
    { rewrite Hperm. apply NoDup_ListNoDup, seq_NoDup. }
    rewrite (scatter_lookup b order (gather a order) j i (nth i a fzero)); auto.
    + destruct (lookup_lt_is_Some_2 a i Hi) as [x Hx].
      by rewrite (nth_lookup_Some a i fzero x Hx).
    + unfold gather. by rewrite list_lookup_fmap, Hj.
    + lia.
  - rewrite !lookup_ge_None_2; auto; [lia|]. rewrite length_scatter. lia.
Qed.

Lemma ramp_weights_S n (pw : F) :
  ramp_weights (S n) pw =
  map (fun i => (fone + of_nat i)%np) (seq 0 n) ++ [((fone + of_nat n - fone) * pw)%np].
Proof.
  unfold ramp_weights. rewrite seq_S, map_app. simpl.
  replace (n - 0)%nat with n by lia.
  set (pre := map _ (seq 0 n)).
  assert (Hlen : length pre = n) by (unfold pre; by rewrite length_map, length_seq).
  assert (Hins : forall x y : F, <[n:=x]> (pre ++ [y]) = pre ++ [x]).
  { intros x y. rewrite insert_app_r_alt by lia.
    by replace (n - length pre)%nat with 0%nat by lia. }
  assert (Hat : forall y : F, at_ (pre ++ [y]) n = y).
  { intros y. unfold at_. rewrite app_nth2 by lia.
    by replace (n - length pre)%nat with 0%nat by lia. }
  by rewrite Hat, Hins, Hat, Hins.
Qed.
End NumpyFacts.

(** ** The adaptive Parzen estimator over the reals *)

Section ParzenReal.
Local Open Scope R_scope.

Lemma Reqb_refl (x : R) : Reqb x x = true.
Proof. unfold Reqb. by destruct (Req_dec_T x x). Qed.

Lemma isnan_R (x : R) : isnan x = false.
Proof. unfold isnan. simpl. by rewrite Reqb_refl. Qed.

Lemma maximum_R (a b : R) : maximum a b = Rmax a b.
Proof.
  unfold maximum. rewrite !isnan_R. simpl. unfold Rltb, Rmax.
  destruct (Rlt_dec a b), (Rle_dec a b); lra.
Qed.

Lemma minimum_R (a b : R) : minimum a b = Rmin a b.
Proof.
  unfold minimum. rewrite !isnan_R. simpl. unfold Rltb, Rmin.
  destruct (Rlt_dec b a), (Rle_dec a b); lra.
Qed.

Lemma clip1_R (lo hi x : R) : clip1 lo hi x = Rmin (Rmax x lo) hi.
Proof. unfold clip1. by rewrite maximum_R, minimum_R. Qed.

Lemma clip1_bounds (lo hi x : R) : lo <= hi -> lo <= clip1 lo hi x <= hi.
Proof.
  intros Hle. rewrite clip1_R. split.
  - apply Rmin_glb; [apply Rmax_r | done].
  - apply Rmin_r.
Qed.

Lemma all_eq_refl (xs : list R) : all_eq xs xs = true.
Proof. induction xs as [|x xs IH]; simpl; [done|]. by rewrite Reqb_refl. Qed.

(** The assertion [np.all(mus_orig == mus)] never fires: un-sorting
    restores the observations. *)
Lemma parzen_neighbours_R (obs : list R) :
  exists sigma, parzen_neighbours obs = Ok (obs, sigma) /\ length sigma = length obs.
Proof.
  unfold parzen_neighbours.
  destruct (2 <? length obs)%nat;
    (rewrite scatter_gather; [| apply argsort_perm | by rewrite length_gather, argsort_perm, length_seq]);
    rewrite all_eq_refl; simpl; eexists; (split; [reflexivity|]);
    by rewrite length_scatter, !length_insert, length_inserts, repeat_length.
Qed.

Lemma parzen_components_R (obs : list R) (prior_mu prior_sigma : R) :
  exists sigma,
    parzen_components obs prior_mu prior_sigma = Ok (obs ++ [prior_mu], sigma)
    /\ length sigma = S (length obs).
Proof.
  destruct obs as [|x [|y obs]]; simpl.
  - by eexists.
  - by eexists.
  - destruct (parzen_neighbours_R (x :: y :: obs)) as (sigma & -> & Hlen).
    simpl. eexists. split; [reflexivity|].
    rewrite length_app, Hlen. simpl. lia.
Qed.

Lemma np_sum_R_app (xs : list R) (x : R) : np_sum (xs ++ [x]) = np_sum xs + x.
Proof. unfold np_sum. by rewrite fold_left_app. Qed.

Lemma fold_left_Rplus_div (xs : list R) (acc t : R) :
  fold_left Rplus (map (fun w => w / t) xs) (acc / t) = fold_left Rplus xs acc / t.
Proof.
  revert acc. induction xs as [|x xs IH]; intros acc; simpl; [done|].
  rewrite <- IH. f_equal. unfold Rdiv. ring.
Qed.

Lemma np_sum_normalize (ws : list R) :
  np_sum ws <> 0 -> np_sum (normalize ws) = 1.
Proof.
  intros Hne. unfold normalize, np_sum in *. simpl in *.
  replace 0 with (0 / fold_left Rplus ws 0) at 1 by (unfold Rdiv; ring).
  rewrite fold_left_Rplus_div. by field.
Qed.

Lemma np_sum_ramp (n : nat) :
  np_sum (map (fun i => 1 + INR i) (seq 0 n)) = INR n * (INR n + 1) / 2.
Proof.
  induction n as [|n IH].
  - unfold np_sum. simpl. lra.
  - rewrite seq_S, map_app. simpl map. rewrite np_sum_R_app, IH, S_INR. lra.
Qed.

(** The sum of the unnormalised weights for [n] observations. *)
Lemma np_sum_ramp_weights (n : nat) (pw : R) :
  np_sum (ramp_weights (S n) pw) = INR n * (INR n + 1) / 2 + INR n * pw.
Proof.
  rewrite ramp_weights_S. simpl. rewrite np_sum_R_app.
  change (np_sum (map (fun i => 1 + INR i) (seq 0 n)) + (1 + INR n - 1) * pw
          = INR n * (INR n + 1) / 2 + INR n * pw).
  rewrite np_sum_ramp. lra.
Qed.
End ParzenReal.

(** ** Claims about [adaptive_parzen_normal] *)

Local Open Scope R_scope.

(** C3 (the code departs from it): for no observation the estimator
    returns the means [{prior_mu}] and the bandwidths [{prior_sigma}], but
    its weight vector is [{0/0}] and not [{1}]: the ramp of length one is
    [{0 * prior_weight}], whose sum is zero for every prior weight, and on
    binary64 the normalisation yields [nan]. *)
Theorem adaptive_parzen_normal_empty :
  adaptive_parzen_normal (F := float) [] 0.3%float 0%float 1%float
    = Ok ([nan], [0%float], [1%float])
  /\ forall prior_weight : R,
       ramp_weights 1 prior_weight = [(1 + 0 - 1) * prior_weight]
       /\ np_sum (ramp_weights 1 prior_weight) = 0.
Proof.
  split; [by vm_compute|].
  intros pw. split; [reflexivity|].
  unfold np_sum, ramp_weights, at_. simpl. lra.
Qed.

(** C4, as stated, fails: for the single observation 2 with the default
    prior weight 0.3 and the prior (0, 1) the code returns the weights
    {0.769.., 0.230..} and the bandwidths {0.577.., 1}, not {1/2, 1/2} and
    {1/2, 1}. *)
Lemma adaptive_parzen_normal_single_not_half :
  adaptive_parzen_normal (F := float) [2%float] 0.3%float 0%float 1%float
    = Ok ([0.76923076923076916%float; 0.23076923076923075%float],
          [2%float; 0%float],
          [0.57735026918962584%float; 1%float])
  /\ adaptive_parzen_normal (F := float) [2%float] 0.3%float 0%float 1%float
     <> Ok ([0.5%float; 0.5%float], [2%float; 0%float], [0.5%float; 1%float]).
Proof.
  split; [by vm_compute|].
  intros Heq.
  apply (f_equal (fun r => match r with
                           | Ok (w :: _, _, _) => PrimFloat.eqb w 0.5%float
                           | _ => false
                           end)) in Heq.
  vm_compute in Heq. discriminate.
Qed.

Lemma sqrt_3_bounds : 1 < sqrt 3 <= 2.
Proof.
  split.
  - rewrite <- sqrt_1 at 1. apply sqrt_lt_1_alt. lra.
  - assert (H4 : sqrt (2 * 2) = 2) by (apply sqrt_square; lra).
    rewrite <- H4. apply sqrt_le_1_alt. lra.
Qed.

(** C4 (amended): for a single observation the estimator returns the
    weights {1/(1+prior_weight), prior_weight/(1+prior_weight)}, the means
    {obs[0], prior_mu} and the bandwidths {prior_sigma/sqrt 3, prior_sigma}
    (the raw prior_sigma/2 is clipped from below), for every observation,
    every prior weight other than -1 and every prior_sigma > 0. *)
Theorem adaptive_parzen_normal_single (x prior_weight prior_mu prior_sigma : R) :
  0 < prior_sigma -> 1 + prior_weight <> 0 ->
  adaptive_parzen_normal [x] prior_weight prior_mu prior_sigma
    = Ok ([1 / (1 + prior_weight); prior_weight / (1 + prior_weight)],
          [x; prior_mu],
          [prior_sigma / sqrt 3; prior_sigma]).
Proof.
  intros Hsig Hpw. unfold adaptive_parzen_normal. simpl.
  unfold normalize, np_sum, clip. simpl.
  pose proof sqrt_3_bounds as [Hlo Hhi].
  assert (Hmin : prior_sigma / sqrt (1 + (1 + 1)) = prior_sigma / sqrt 3)
    by (do 2 f_equal; lra).
  assert (Hcancel : prior_sigma / sqrt 3 * sqrt 3 = prior_sigma) by (field; lra).
  assert (Hle : prior_sigma / sqrt 3 <= prior_sigma).
  { apply (Rmult_le_reg_r (sqrt 3)); [lra|]. rewrite Hcancel. nra. }
  assert (Hhalf : prior_sigma * (1 / 2) <= prior_sigma / sqrt 3).
  { apply (Rmult_le_reg_r (sqrt 3)); [lra|]. rewrite Hcancel. nra. }
  rewrite !clip1_R, Hmin.
  rewrite (Rmax_right (prior_sigma * (1 / 2))) by done.
  rewrite (Rmax_left prior_sigma) by done.
  rewrite (Rmin_left (prior_sigma / sqrt 3)) by done.
  rewrite (Rmin_left prior_sigma) by lra.
  unfold at_. simpl.
  assert (Hw0 : (1 + 0) / (0 + (1 + 0) + (1 + 1 - 1) * prior_weight)
                = 1 / (1 + prior_weight)) by (field; lra).
  assert (Hw1 : (1 + 1 - 1) * prior_weight / (0 + (1 + 0) + (1 + 1 - 1) * prior_weight)
                = prior_weight / (1 + prior_weight)) by (field; lra).
  by rewrite Hw0, Hw1.
Qed.

Lemma adaptive_parzen_normal_single_witness :
  adaptive_parzen_normal [2] (3 / 10) 0 1
    = Ok ([1 / (1 + 3 / 10); 3 / 10 / (1 + 3 / 10)], [2; 0], [1 / sqrt 3; 1]).
Proof. apply adaptive_parzen_normal_single; lra. Defined.

Lemma sqrt_ge_1 (x : R) : 1 <= x -> 1 <= sqrt x.
Proof. intros Hx. rewrite <- sqrt_1 at 1. by apply sqrt_le_1_alt. Qed.

(** C5 (the code departs from it): the weights do not sum to one for
    every input.  For no observation the code divides the single weight
    0 * prior_weight by its own sum, zero: with the default prior weight
    0.3 it returns on binary64 the weights [{nan}], whose sum is not within
    1e-12 of one.  The rest of the claim holds: for every observation
    vector of length n and every prior with prior_sigma > 0 the estimator
    returns three vectors of length n+1, the means are the observations
    followed by prior_mu, and every bandwidth lies in
    [prior_sigma / sqrt (n+2), prior_sigma]; over the reals the weights
    sum to one when there is an observation and prior_weight >= 0. *)
Theorem adaptive_parzen_normal_invariants :
  (adaptive_parzen_normal (F := float) [] 0.3%float 0%float 1%float
     = Ok ([nan], [0%float], [1%float])
   /\ sums_to_one [nan] = false)
  /\ forall (obs : list R) (prior_weight prior_mu prior_sigma : R),
       0 < prior_sigma ->
       exists weights mus sigmas,
         adaptive_parzen_normal obs prior_weight prior_mu prior_sigma
           = Ok (weights, mus, sigmas)
         /\ length weights = S (length obs) /\ length sigmas = S (length obs)
         /\ mus = obs ++ [prior_mu] /\ In prior_mu mus
         /\ Forall (fun s => prior_sigma / sqrt (INR (length obs) + 2) <= s <= prior_sigma)
              sigmas
         /\ (obs <> [] -> 0 <= prior_weight -> np_sum weights = 1)
         /\ (obs = [] ->
             np_sum (ramp_weights 1 prior_weight) = 0
             /\ weights = [(1 + 0 - 1) * prior_weight / 0]).
Proof.
  split; [by vm_compute|].
  intros obs prior_weight prior_mu prior_sigma Hsig. set (n := length obs).
  unfold adaptive_parzen_normal.
  destruct (parzen_components_R obs prior_mu prior_sigma) as (sigma & -> & Hlen).
  simpl rbind.
  assert (Hmus : length (obs ++ [prior_mu]) = S n) by (rewrite length_app; simpl; lia).
  rewrite Hmus. do 3 eexists. split; [reflexivity|].
  split; [|split; [|split; [|split; [|split; [|split]]]]].
  - unfold normalize. by rewrite length_map, ramp_weights_S, length_app, length_map, length_seq, Nat.add_comm.
  - unfold clip. by rewrite length_map.
  - done.
  - apply in_or_app. right. by left.
  - unfold clip. apply List.Forall_forall. intros s Hs.
    apply in_map_iff in Hs as (s0 & <- & _).
    change (fdiv prior_sigma (fsqrt (fadd fone (of_nat (S n)))))
      with (prior_sigma / sqrt (1 + INR (S n))).
    rewrite S_INR. replace (1 + (INR n + 1)) with (INR n + 2) by lra.
    apply clip1_bounds.
    assert (H1 : 1 <= sqrt (INR n + 2)) by (apply sqrt_ge_1; pose proof (pos_INR n); lra).
    apply (Rmult_le_reg_r (sqrt (INR n + 2))); [lra|].
    replace (prior_sigma / sqrt (INR n + 2) * sqrt (INR n + 2)) with prior_sigma by (field; lra).
    nra.
  - intros Hobs Hpw. apply np_sum_normalize. rewrite np_sum_ramp_weights.
    assert (Hn : 1 <= INR n).
    { change 1 with (INR 1). apply le_INR. unfold n. destruct obs; [done | simpl; lia]. }
    nra.
  - intros ->.
    assert (Hzero : np_sum (ramp_weights 1 prior_weight) = 0).
    { unfold np_sum, ramp_weights, at_. simpl. lra. }
    split; [done|]. unfold normalize. subst n. simpl length. rewrite Hzero. reflexivity.
Qed.

Lemma adaptive_parzen_normal_invariants_witness :
  exists weights mus sigmas,
    adaptive_parzen_normal [1; 3; 2] (3 / 10) 0 1 = Ok (weights, mus, sigmas)
    /\ mus = [1; 3; 2; 0]
    /\ Forall (fun s => 1 / sqrt (INR 3 + 2) <= s <= 1) sigmas
    /\ np_sum weights = 1.
Proof.
  destruct adaptive_parzen_normal_invariants as [_ Hinv].
  destruct (Hinv [1; 3; 2] (3 / 10) 0 1 ltac:(lra))
    as (weights & mus & sigmas & Heq & _ & _ & Hmus & _ & Hsig & Hsum & _).
  exists weights, mus, sigmas. repeat split; try done.
  apply Hsum; [done | lra].
Defined.

(** ** Claims about the distribution adapters *)

Lemma scope_log_neq (a : Apply) : a <> scope_log a.
Proof.
  intros Heq. apply (f_equal depth) in Heq. simpl in Heq. lia.
Qed.

(** C1 (the code departs from it): the qloguniform adapter hands the raw
    observation vector [obs] to the adaptive Parzen estimator, and [obs]
    is not the node [log(obs)]; the three other log-scale adapters
    (loguniform, lognormal, qlognormal) do hand over [log(obs)]. *)
Theorem ap_qloguniform_sampler_parzen_input
  (obs prior_weight size rng low high q mu sigma : Apply) :
  parzen_input (ap_qloguniform_sampler obs prior_weight size rng low high q) = Some obs
  /\ obs <> scope_log obs
  /\ parzen_input (ap_loguniform_sampler obs prior_weight size rng low high)
     = Some (scope_log obs)
  /\ parzen_input (ap_loglognormal_sampler obs prior_weight size rng mu sigma)
     = Some (scope_log obs)
  /\ parzen_input (ap_qlognormal_sampler obs prior_weight size rng mu sigma q)
     = Some (scope_log obs).
Proof. repeat split; try reflexivity. apply scope_log_neq. Qed.

(** ** Claims about the truncated samplers *)

Section RejectionFacts.
Context {RandomState : Type}.
Variable attempt : RandomState -> result (R * RandomState).
Variable accept : R -> bool.

Lemma rejection_loop_O n_samples rng samples :
  rejection_loop attempt accept 0 n_samples rng samples
  = if (length samples <? n_samples)%nat then None else Some (Ok (samples, rng)).
Proof. reflexivity. Qed.

Lemma rejection_loop_S fuel n_samples rng samples :
  rejection_loop attempt accept (S fuel) n_samples rng samples
  = if (length samples <? n_samples)%nat
    then match attempt rng with
         | Raise e => Some (Raise e)
         | Ok (draw, rng') =>
             if accept draw
             then rejection_loop attempt accept fuel n_samples rng' (samples ++ [draw])
             else rejection_loop attempt accept fuel n_samples rng' samples
         end
    else Some (Ok (samples, rng)).
Proof. reflexivity. Qed.

Lemma attempts_S k rng :
  attempts attempt (S k) rng
  = match attempt rng with
    | Raise e => Raise e
    | Ok (draw, rng') => rest <- attempts attempt k rng' ;;; Ok (draw :: rest)
    end.
Proof. reflexivity. Qed.

Lemma rejection_loop_full fuel n_samples rng samples :
  (n_samples <= length samples)%nat ->
  rejection_loop attempt accept fuel n_samples rng samples = Some (Ok (samples, rng)).
Proof.
  intros Hfull.
  destruct fuel; [rewrite rejection_loop_O | rewrite rejection_loop_S];
    by destruct (Nat.ltb_spec (length samples) n_samples); [lia|].
Qed.

(** Once the first [k] attempts return and hold [n_samples] accepted
    candidates, [k] iterations end the loop with the first [n_samples] of
    them. *)
Lemma rejection_loop_returns (n_samples k : nat) :
  forall fuel rng samples draws,
    attempts attempt k rng = Ok draws ->
    (length samples <= n_samples)%nat ->
    (n_samples <= length samples + length (List.filter accept draws))%nat ->
    (k <= fuel)%nat ->
    exists rng',
      rejection_loop attempt accept fuel n_samples rng samples
      = Some (Ok (firstn n_samples (samples ++ List.filter accept draws), rng')).
Proof.
  induction k as [|k IH]; intros fuel rng samples draws Hatt Hle Hge Hfuel.
  - injection Hatt as <-. simpl in Hge. exists rng.
    rewrite rejection_loop_full by lia.
    assert (Hlen : length samples = n_samples) by lia.
    by rewrite app_nil_r, <- Hlen, firstn_all.
  - destruct (Nat.ltb_spec (length samples) n_samples) as [Hlt|Hnlt].
    + destruct fuel as [|fuel]; [lia|]. rewrite rejection_loop_S.
      destruct (Nat.ltb_spec (length samples) n_samples); [|lia].
      rewrite attempts_S in Hatt.
      destruct (attempt rng) as [[draw rng1]|e]; [|done].
      destruct (attempts attempt k rng1) as [rest|e] eqn:Hrest; [|done].
      injection Hatt as <-. simpl in Hge.
      destruct (accept draw) eqn:Hacc; simpl in Hge.
      * destruct (IH fuel rng1 (samples ++ [draw]) rest Hrest) as [rng' Hloop].
        -- rewrite length_app. simpl. lia.
        -- rewrite length_app. simpl. lia.
        -- lia.
        -- exists rng'. rewrite Hloop. simpl. rewrite Hacc. by rewrite <- app_assoc.
      * destruct (IH fuel rng1 samples rest Hrest) as [rng' Hloop]; [lia | lia | lia |].
        exists rng'. rewrite Hloop. simpl. by rewrite Hacc.
    + exists rng. rewrite rejection_loop_full by lia.
      assert (Hlen : length samples = n_samples) by lia.
      by rewrite <- Hlen, firstn_app, Nat.sub_diag, firstn_all, firstn_O, app_nil_r.
Qed.

(** While every number of attempts returns and holds too few accepted
    candidates, no number of iterations ends the loop. *)
Lemma rejection_loop_never (n_samples : nat) :
  forall fuel rng samples,
    (forall k, exists draws,
        attempts attempt k rng = Ok draws
        /\ (length samples + length (List.filter accept draws) < n_samples)%nat) ->
    rejection_loop attempt accept fuel n_samples rng samples = None.
Proof.
  induction fuel as [|fuel IH]; intros rng samples Hnever.
  - rewrite rejection_loop_O. destruct (Hnever 0%nat) as (draws & Hatt & H0).
    injection Hatt as <-. simpl in H0.
    destruct (Nat.ltb_spec (length samples) n_samples); [done | lia].
  - rewrite rejection_loop_S. destruct (Hnever 0%nat) as (draws & Hatt & H0).
    injection Hatt as <-. simpl in H0.
    destruct (Nat.ltb_spec (length samples) n_samples); [|lia].
    destruct (Hnever 1%nat) as (draws1 & Hatt1 & _). rewrite attempts_S in Hatt1.
    destruct (attempt rng) as [[draw rng1]|e] eqn:Hattempt; [|done]. clear Hatt1 draws1.
    assert (Hnext : forall k, exists rest,
               attempts attempt k rng1 = Ok rest
               /\ (length samples + length (List.filter accept (draw :: rest)) < n_samples)%nat).
    { intros k. destruct (Hnever (S k)) as (draws & Hdraws & Hlt).
      rewrite attempts_S, Hattempt in Hdraws.
      destruct (attempts attempt k rng1) as [rest|e]; [|done].
      injection Hdraws as <-. by exists rest. }
    destruct (accept draw) eqn:Hacc; apply IH; intros k;
      destruct (Hnext k) as (rest & Hrest & Hlt); exists rest; (split; [done|]);
      simpl in Hlt; rewrite Hacc in Hlt; simpl in Hlt; rewrite ?length_app; simpl; lia.
Qed.

(** When the attempt that follows [k] attempts with too few accepted
    candidates raises, so does the loop. *)
Lemma rejection_loop_raises (n_samples k : nat) :
  forall fuel rng samples draws e,
    attempts attempt k rng = Ok draws ->
    attempts attempt (S k) rng = Raise e ->
    (length samples + length (List.filter accept draws) < n_samples)%nat ->
    (k < fuel)%nat ->
    rejection_loop attempt accept fuel n_samples rng samples = Some (Raise e).
Proof.
  induction k as [|k IH]; intros fuel rng samples draws e Hok Hraise Hlt Hfuel;
    (destruct fuel as [|fuel]; [lia|]); rewrite rejection_loop_S;
    (destruct (Nat.ltb_spec (length samples) n_samples); [|lia]);
    rewrite attempts_S in Hraise.
  - destruct (attempt rng) as [[draw rng1]|e']; [done | congruence].
  - rewrite attempts_S in Hok.
    destruct (attempt rng) as [[draw rng1]|e']; [|done].
    destruct (attempts attempt k rng1) as [rest|e'] eqn:Hrest; [|done].
    injection Hok as <-. simpl in Hlt.
    assert (Hraise1 : attempts attempt (S k) rng1 = Raise e).
    { destruct (attempts attempt (S k) rng1); simpl in Hraise; [done | congruence]. }
    destruct (accept draw) eqn:Hacc; simpl in Hlt;
      apply (IH fuel rng1 _ rest e Hrest Hraise1); rewrite ?length_app; simpl; lia.
Qed.

(** A generator state from which every attempt returns a candidate that
    is rejected. *)
Lemma attempts_rejected (inv : RandomState -> Prop) :
  (forall g, inv g ->
     exists draw g', attempt g = Ok (draw, g') /\ accept draw = false /\ inv g') ->
  forall k rng, inv rng ->
    exists draws, attempts attempt k rng = Ok draws /\ List.filter accept draws = [].
Proof.
  intros Hstep. induction k as [|k IH]; intros rng Hinv; [by exists []|].
  destruct (Hstep rng Hinv) as (draw & g' & Hatt & Hrej & Hinv').
  destruct (IH g' Hinv') as (rest & Hrest & Hnone).
  exists (draw :: rest). rewrite attempts_S, Hatt, Hrest. simpl. by rewrite Hrej.
Qed.
End RejectionFacts.

Lemma in_window_spec (low high x : R) :
  in_window low high x = true <-> low <= x < high.
Proof.
  unfold in_window, Rleb, Rltb.
  destruct (Rle_dec low x), (Rlt_dec x high); simpl; split; intros; try done; lra.
Qed.

Lemma in_window_false (low high x : R) :
  high <= x -> in_window low high x = false.
Proof.
  intros Hx. destruct (in_window low high x) eqn:Hw; [|done].
  apply in_window_spec in Hw. lra.
Qed.

Lemma Rleb_false (x y : R) : y < x -> Rleb x y = false.
Proof. intros Hlt. unfold Rleb. destruct (Rle_dec x y); [lra|done]. Qed.

(** C2, as stated, fails: with the single component of mean 5 and
    bandwidth 1, the window [0, 1) and a generator whose normal variates
    are all zero, every candidate is 5 (respectively exp 5) and is
    rejected: neither sampler returns or raises after any number of
    iterations. *)
Lemma truncated_samplers_unbounded :
  (forall fuel, GMM1 [1] [5] [1] fuel (Some 0) (Some 1) None zero_rng 1 = None)
  /\ (forall fuel, LGMM1 [1] [5] [1] fuel (Some 0) (Some 1) None zero_rng 1 = None).
Proof.
  pose (inv := fun g : Stream => forall k, gaussians g k = 0).
  assert (Hzero : inv zero_rng) by done.
  assert (Hhl : Rleb 1 0 = false) by (apply Rleb_false; lra).
  split; intros fuel.
  - unfold GMM1. simpl. rewrite Hhl. apply rejection_loop_never. intros k.
    destruct (attempts_rejected (GMM1_attempt [1] [5] [1] None) (in_window 0 1) inv)
      with (k := k) (rng := zero_rng) as (draws & Hdraws & Hnone); [|done|].
    + intros g Hg. eexists _, _. split; [reflexivity|]. split; [|done].
      simpl. rewrite Hg. apply in_window_false. lra.
    + exists draws. split; [done|]. rewrite Hnone. simpl. lia.
  - unfold LGMM1. rewrite Hhl. apply rejection_loop_never. intros k.
    destruct (attempts_rejected (LGMM1_attempt [1] [5] [1] None)
                (in_window (exp 0) (exp 1)) inv)
      with (k := k) (rng := zero_rng) as (draws & Hdraws & Hnone); [|done|].
    + intros g Hg. eexists _, _. split; [reflexivity|]. split; [|done].
      simpl. rewrite Hg. apply in_window_false. left. apply exp_increasing. lra.
    + exists draws. split; [done|]. rewrite Hnone. simpl. lia.
Qed.

Lemma accepted_prefix_in_window (low high : R) (n : nat) (draws : list R) :
  Forall (fun x => low <= x < high) (firstn n (List.filter (in_window low high) draws)).
Proof.
  apply List.Forall_forall. intros x Hx.
  apply list_elem_of_In, subseteq_take, list_elem_of_In, filter_In in Hx as [_ Hx].
  by apply in_window_spec.
Qed.

Section TruncatedSamplers.
Context {RandomState : Type} {generator : Generator RandomState}.

(** C2 (amended): with truncation bounds low < high the rejection loop
    of [GMM1] and of [LGMM1] has no attempt budget and no Degenerate
    error.  As soon as the first k attempts of the generator return and
    hold n_samples accepted candidates, every run of at least k
    iterations returns the first n_samples accepted candidates, each
    inside the window ([low, high) for [GMM1], [exp low, exp high) for
    [LGMM1]); while every number of attempts returns and holds fewer than
    n_samples accepted candidates, the loop does not end; and when an
    attempt raises before n_samples candidates are accepted (the
    generator on a mixture it cannot draw from, or IndexError when
    [LGMM1] has fewer means or bandwidths than the chosen index), the
    sampler ends with that exception: with no component at all and a
    sample to draw, both end with the ValueError of the first attempt. *)
Theorem truncated_samplers_return
  (weights mus sigmas : list R) (low high : R) (q : option R)
  (rng : RandomState) (n_samples : nat) :
  low < high ->
  let candidates := attempts (GMM1_attempt weights mus sigmas q) in
  let log_candidates := attempts (LGMM1_attempt weights mus sigmas q) in
  let accepted := List.filter (in_window low high) in
  let log_accepted := List.filter (in_window (exp low) (exp high)) in
  (length weights = length mus -> length mus = length sigmas ->
   (forall k fuel draws,
      (k <= fuel)%nat -> candidates k rng = Ok draws ->
      (n_samples <= length (accepted draws))%nat ->
      exists rng',
        GMM1 weights mus sigmas fuel (Some low) (Some high) q rng n_samples
        = Some (Ok (firstn n_samples (accepted draws), rng'))
        /\ Forall (fun x => low <= x < high) (firstn n_samples (accepted draws)))
   /\ ((forall k, exists draws,
          candidates k rng = Ok draws /\ (length (accepted draws) < n_samples)%nat) ->
       forall fuel,
         GMM1 weights mus sigmas fuel (Some low) (Some high) q rng n_samples = None)
   /\ (forall k fuel draws e,
         (k < fuel)%nat -> candidates k rng = Ok draws -> candidates (S k) rng = Raise e ->
         (length (accepted draws) < n_samples)%nat ->
         GMM1 weights mus sigmas fuel (Some low) (Some high) q rng n_samples
         = Some (Raise e)))
  /\ (forall k fuel draws,
        (k <= fuel)%nat -> log_candidates k rng = Ok draws ->
        (n_samples <= length (log_accepted draws))%nat ->
        exists rng',
          LGMM1 weights mus sigmas fuel (Some low) (Some high) q rng n_samples
          = Some (Ok (firstn n_samples (log_accepted draws), rng'))
          /\ Forall (fun x => exp low <= x < exp high)
               (firstn n_samples (log_accepted draws)))
  /\ ((forall k, exists draws,
         log_candidates k rng = Ok draws
         /\ (length (log_accepted draws) < n_samples)%nat) ->
      forall fuel,
        LGMM1 weights mus sigmas fuel (Some low) (Some high) q rng n_samples = None)
  /\ (forall k fuel draws e,
        (k < fuel)%nat -> log_candidates k rng = Ok draws ->
        log_candidates (S k) rng = Raise e ->
        (length (log_accepted draws) < n_samples)%nat ->
        LGMM1 weights mus sigmas fuel (Some low) (Some high) q rng n_samples
        = Some (Raise e))
  /\ (weights = [] -> (0 < n_samples)%nat ->
      forall fuel, (0 < fuel)%nat ->
      exists msg,
        LGMM1 weights mus sigmas fuel (Some low) (Some high) q rng n_samples
        = Some (Raise (ValueError msg))
        /\ (mus = [] -> sigmas = [] ->
            GMM1 weights mus sigmas fuel (Some low) (Some high) q rng n_samples
            = Some (Raise (ValueError msg)))).
Proof.
  intros Hlh candidates log_candidates accepted log_accepted.
  pose proof (Rleb_false high low Hlh) as Hhl.
  split; [intros Hwm Hms; split; [|split] | split; [|split; [|split]]].
  - intros k fuel draws Hk Hdraws Hn. unfold GMM1.
    rewrite Hwm, Hms, !Nat.eqb_refl, Hhl. cbn [andb negb].
    destruct (rejection_loop_returns (GMM1_attempt weights mus sigmas q)
                (in_window low high) n_samples k fuel rng [] draws Hdraws) as [rng' Hloop];
      [simpl; lia | simpl; apply Hn | done |].
    exists rng'. split; [exact Hloop|]. apply accepted_prefix_in_window.
  - intros Hnever fuel. unfold GMM1. rewrite Hwm, Hms, !Nat.eqb_refl, Hhl. cbn [andb negb].
    apply rejection_loop_never. intros k. destruct (Hnever k) as (draws & Hdraws & Hlt).
    by exists draws.
  - intros k fuel draws e Hk Hdraws Hraise Hlt. unfold GMM1.
    rewrite Hwm, Hms, !Nat.eqb_refl, Hhl. cbn [andb negb].
    by apply (rejection_loop_raises _ _ n_samples k fuel rng [] draws e).
  - intros k fuel draws Hk Hdraws Hn. unfold LGMM1. rewrite Hhl.
    destruct (rejection_loop_returns (LGMM1_attempt weights mus sigmas q)
                (in_window (exp low) (exp high)) n_samples k fuel rng [] draws Hdraws)
      as [rng' Hloop]; [simpl; lia | simpl; apply Hn | done |].
    exists rng'. split; [exact Hloop|]. apply accepted_prefix_in_window.
  - intros Hnever fuel. unfold LGMM1. rewrite Hhl.
    apply rejection_loop_never. intros k. destruct (Hnever k) as (draws & Hdraws & Hlt).
    by exists draws.
  - intros k fuel draws e Hk Hdraws Hraise Hlt. unfold LGMM1. rewrite Hhl.
    by apply (rejection_loop_raises _ _ n_samples k fuel rng [] draws e).
  - intros -> Hn fuel Hfuel. destruct (argmax_multinomial1_empty rng) as [msg Hmsg].
    exists msg. destruct fuel as [|fuel]; [lia|].
    assert (Hfirst : (length (@nil R) <? n_samples)%nat = true) by (apply Nat.ltb_lt; simpl; lia).
    split.
    + unfold LGMM1. rewrite Hhl, rejection_loop_S, Hfirst.
      unfold LGMM1_attempt, component_draw. by rewrite Hmsg.
    + intros -> ->. unfold GMM1. cbn [length Nat.eqb andb negb].
      rewrite Hhl, rejection_loop_S, Hfirst.
      unfold GMM1_attempt, component_draw. by rewrite Hmsg.
Qed.
End TruncatedSamplers.

Lemma truncated_samplers_return_witness :
  (exists rng',
     GMM1 [1] [0] [1] 3 (Some 0) (Some 1) None example_rng 2
     = Some (Ok ([0 + 1 * (1 / 2); 0 + 1 * (1 / 4)], rng')))
  /\ (exists rng',
        LGMM1 [1] [0] [1] 3 (Some 0) (Some 1) None example_rng 2
        = Some (Ok ([exp (0 + 1 * (1 / 2)); exp (0 + 1 * (1 / 4))], rng'))).
Proof.
  destruct (truncated_samplers_return [1] [0] [1] 0 1 None example_rng 2 ltac:(lra))
    as (Hgmm & Hlgmm & _).
  destruct (Hgmm eq_refl eq_refl) as (Hret & _).
  assert (Hin : forall x, 0 <= x < 1 -> in_window 0 1 x = true
                          /\ in_window (exp 0) (exp 1) (exp x) = true).
  { intros x Hx. split; apply in_window_spec; [done|].
    destruct Hx as [[Hx|<-] Hx1]; split;
      try (left; by apply exp_increasing); try (by right); by apply exp_increasing. }
  assert (Hout : in_window 0 1 (0 + 1 * 5) = false
                 /\ in_window (exp 0) (exp 1) (exp (0 + 1 * 5)) = false).
  { split; apply in_window_false; [lra|]. left. apply exp_increasing. lra. }
  destruct (Hin (0 + 1 * (1 / 2)) ltac:(lra)) as [Ha1 Hb1].
  destruct (Hin (0 + 1 * (1 / 4)) ltac:(lra)) as [Ha3 Hb3].
  destruct Hout as [Ha2 Hb2].
  split.
  - destruct (Hret 3%nat 3%nat [0 + 1 * (1 / 2); 0 + 1 * 5; 0 + 1 * (1 / 4)] (le_n 3) eq_refl)
      as (rng' & Heq & _).
    + simpl. rewrite Ha1, Ha2, Ha3. simpl. lia.
    + exists rng'. rewrite Heq. simpl. by rewrite Ha1, Ha2, Ha3.
  - destruct (Hlgmm 3%nat 3%nat
                [exp (0 + 1 * (1 / 2)); exp (0 + 1 * 5); exp (0 + 1 * (1 / 4))]
                (le_n 3) eq_refl) as (rng' & Heq & _).
    + simpl. rewrite Hb1, Hb2, Hb3. simpl. lia.
    + exists rng'. rewrite Heq. simpl. by rewrite Hb1, Hb2, Hb3.
Defined.

(** ** Claims about the selection of the best documents *)

(** C6, as stated, fails: of two OK documents of one group with equal
    losses the one kept is the second, not the first encountered. *)
Lemma select_best_docs_keeps_last :
  suggest1_docs [doc_a; doc_b] = Ok [doc_b]
  /\ group_tid doc_a = group_tid doc_b
  /\ Qeq (bandit_loss doc_a) (bandit_loss doc_b)
  /\ doc_a <> doc_b.
Proof. repeat split; try by vm_compute. Qed.

Lemma kept_in_snoc_other processed g b d :
  kept_in processed g b ->
  (is_ok d = true -> group_tid d = g -> (bandit_loss b < bandit_loss d)%Q) ->
  kept_in (processed ++ [d]) g b.
Proof.
  intros (Hg & Hok & pre & post & -> & Hpre & Hpost) Hd.
  split; [done|]. split; [done|].
  exists pre, (post ++ [d]). split; [by rewrite <- app_assoc|]. split; [done|].
  intros d' Hin Hok' Hg'. apply in_app_iff in Hin as [Hin|[<-|[]]]; auto.
Qed.

Lemma kept_in_snoc_new processed g d :
  is_ok d = true -> group_tid d = g ->
  (forall d', In d' processed -> is_ok d' = true -> group_tid d' = g ->
              (bandit_loss d <= bandit_loss d')%Q) ->
  kept_in (processed ++ [d]) g d.
Proof.
  intros Hok Hg Hmin. split; [done|]. split; [done|].
  exists processed, []. split; [done|]. split; [done|]. intros d' [].
Qed.

Lemma kept_in_bound processed g b d :
  kept_in processed g b -> In d processed -> is_ok d = true -> group_tid d = g ->
  (bandit_loss b <= bandit_loss d)%Q.
Proof.
  intros (Hg & Hok & pre & post & -> & Hpre & Hpost) Hin Hokd Hgd.
  apply in_app_iff in Hin as [Hin|[<-|Hin]].
  - by apply Hpre.
  - apply Qle_refl.
  - apply Qlt_le_weak. by apply Hpost.
Qed.

Lemma best_inv_step processed st d :
  best_inv processed st -> best_inv (processed ++ [d]) (best_docs_step st d).
Proof.
  destruct st as [best_docs best_docs_loss]. intros [Hnone Hsome].
  unfold best_docs_step. simpl in *.
  destruct (is_ok d) eqn:Hok; simpl.
  - (* an OK document *)
    remember (group_tid d) as g eqn:Hgd0.
    destruct (best_docs !! g) as [b|] eqn:Hb.
    + destruct (Hsome g b Hb) as [Hloss Hkept]. rewrite Hloss. simpl. rewrite Hloss. simpl.
      destruct (Qle_bool (bandit_loss d) (bandit_loss b)) eqn:Hle.
      * (* the new document replaces the kept one *)
        apply Qle_bool_iff in Hle. split; simpl.
        -- intros g' Hg'. destruct (decide (g = g')) as [<-|Hne];
             [by rewrite lookup_insert_eq in Hg'|].
           rewrite lookup_insert_ne in Hg' by done.
           rewrite lookup_insert_ne by done.
           destruct (Hnone g' Hg') as [Hl Hall]. split; [done|].
           intros d' Hin Hok'. apply in_app_iff in Hin as [Hin|[<-|[]]]; [auto | congruence].
        -- intros g' b' Hg'. destruct (decide (g = g')) as [<-|Hne].
           ++ rewrite lookup_insert_eq in Hg'. injection Hg' as <-.
              rewrite lookup_insert_eq. split; [done|].
              apply kept_in_snoc_new; [done..|].
              intros d' Hin Hok' Hgd'.
              eapply Qle_trans; [exact Hle|]. by eapply kept_in_bound.
           ++ rewrite lookup_insert_ne in Hg' by done.
              rewrite lookup_insert_ne by done.
              destruct (Hsome g' b' Hg') as [Hl Hk]. split; [done|].
              apply kept_in_snoc_other; [done|]. intros _ Hgd. congruence.
      * (* the kept document stays *)
        assert (Hlt : (bandit_loss b < bandit_loss d)%Q).
        { apply Qnot_le_lt. intros Hc. apply Qle_bool_iff in Hc. congruence. }
        split; simpl.
        -- intros g' Hg'. destruct (Hnone g' Hg') as [Hl Hall]. split; [done|].
           intros d' Hin Hok'. apply in_app_iff in Hin as [Hin|[<-|[]]]; [auto | congruence].
        -- intros g' b' Hg'. destruct (Hsome g' b' Hg') as [Hl Hk]. split; [done|].
           apply kept_in_snoc_other; [done|]. intros _ Hgd.
           assert (g' = g) as -> by congruence.
           rewrite Hb in Hg'. by injection Hg' as <-.
    + (* the first OK document of its group *)
      destruct (Hnone g Hb) as [Hloss Hfresh]. rewrite Hloss.
      rewrite lookup_insert_eq. simpl.
      assert (Hle : Qle_bool (bandit_loss d) (bandit_loss d) = true)
        by (apply Qle_bool_iff, Qle_refl).
      rewrite Hle. split; simpl.
      * intros g' Hg'. destruct (decide (g = g')) as [<-|Hne];
          [by rewrite lookup_insert_eq in Hg'|].
        rewrite lookup_insert_ne in Hg' by done.
        rewrite !lookup_insert_ne by done.
        destruct (Hnone g' Hg') as [Hl Hall]. split; [done|].
        intros d' Hin Hok'. apply in_app_iff in Hin as [Hin|[<-|[]]]; [auto | congruence].
      * intros g' b' Hg'. destruct (decide (g = g')) as [<-|Hne].
        -- rewrite lookup_insert_eq in Hg'. injection Hg' as <-.
           rewrite lookup_insert_eq. split; [done|].
           apply kept_in_snoc_new; [done..|].
           intros d' Hin Hok' Hgd'. by destruct (Hfresh d' Hin Hok').
        -- rewrite lookup_insert_ne in Hg' by done.
           rewrite !lookup_insert_ne by done.
           destruct (Hsome g' b' Hg') as [Hl Hk]. split; [done|].
           apply kept_in_snoc_other; [done|]. intros _ Hgd. congruence.
  - (* not OK: skipped *)
    split; simpl.
    + intros g' Hg'. destruct (Hnone g' Hg') as [Hl Hall]. split; [done|].
      intros d' Hin Hok'. apply in_app_iff in Hin as [Hin|[<-|[]]]; [auto | congruence].
    + intros g' b' Hg'. destruct (Hsome g' b' Hg') as [Hl Hk]. split; [done|].
      apply kept_in_snoc_other; [done|]. intros Hc. congruence.
Qed.

Lemma best_inv_loop (trials : list trial_doc) : best_inv trials (best_docs_loop trials).
Proof.
  unfold best_docs_loop.
  assert (Hgen : forall processed st,
             best_inv processed st ->
             best_inv (processed ++ trials) (fold_left best_docs_step trials st)).
  { induction trials as [|d trials IH]; intros processed st Hinv; simpl.
    - by rewrite app_nil_r.
    - replace (processed ++ d :: trials) with ((processed ++ [d]) ++ trials)
        by (by rewrite <- app_assoc).
      apply IH. by apply best_inv_step. }
  apply (Hgen [] (∅, ∅)). split; simpl.
  - intros g _. split; [apply lookup_empty|]. intros d [].
  - intros g b Hg. by rewrite lookup_empty in Hg.
Qed.

#[local] Instance key_le_trans : Transitive key_le.
Proof. intros a b c. unfold key_le. lia. Qed.

#[local] Instance key_le_total : Total key_le.
Proof. intros a b. unfold key_le. lia. Qed.

(** C6 (amended): the OK documents are grouped by [misc.from_tid] (their
    own [tid] when absent); exactly one document per group is kept, in
    ascending order of the group's id; the kept document has the lowest
    loss of its group, and among the documents of that loss it is the
    last one encountered (every later OK document of the group has a
    strictly larger loss). *)
Theorem select_best_docs_spec (trials : list trial_doc) :
  let docs := select_best_docs trials in
  (NoDup (map doc_tid trials) -> suggest1_docs trials = Ok docs)
  /\ (forall d, In d trials -> is_ok d = true ->
        exists b, In b docs /\ group_tid b = group_tid d)
  /\ NoDup (map group_tid docs)
  /\ StronglySorted Z.le (map group_tid docs)
  /\ (forall b, In b docs -> kept_in trials (group_tid b) b).
Proof.
  intros docs. subst docs. unfold select_best_docs, sorted_values.
  pose proof (best_inv_loop trials) as [Hnone Hsome].
  set (m := fst (best_docs_loop trials)) in *.
  set (l := merge_sort key_le (map_to_list m)).
  assert (Hperm : l ≡ₚ map_to_list m) by apply merge_sort_Permutation.
  assert (Hl : forall g b, In (g, b) l <-> m !! g = Some b).
  { intros g b. rewrite <- list_elem_of_In, Hperm. apply elem_of_map_to_list. }
  assert (Hkeys : map group_tid (map snd l) = map fst l).
  { rewrite map_map. apply map_ext_in. intros [g b] Hin. simpl.
    apply Hl, Hsome in Hin as [_ (Hg & _)]. done. }
  split; [|split; [|split; [|split]]].
  - intros Hnd. unfold suggest1_docs. by rewrite bool_decide_eq_true_2.
  - intros d Hin Hok. destruct (m !! group_tid d) as [b|] eqn:Hb.
    + exists b. split.
      * apply in_map_iff. exists (group_tid d, b). split; [done|]. by apply Hl.
      * by apply Hsome in Hb as [_ (Hg & _)].
    + destruct (Hnone _ Hb) as [_ Hall]. by destruct (Hall d Hin Hok).
  - rewrite Hkeys. change (NoDup (l.*1)). rewrite Hperm. apply NoDup_fst_map_to_list.
  - rewrite Hkeys. apply (StronglySorted_fmap fst key_le Z.le); [done|].
    apply StronglySorted_merge_sort; apply _.
  - intros b Hin. apply in_map_iff in Hin as ([g b'] & Heq & Hin). simpl in Heq. subst b'.
    apply Hl, Hsome in Hin as [_ Hk].
    destruct Hk as (Hg & Hrest). rewrite Hg. by split.
Qed.

(** ** Claims about the trial filter *)

Lemma index_all_ok {A} (d : A) (a : list A) (js : list nat) :
  Forall (fun j => (j < length a)%nat) js ->
  index_all a js = Ok (map (fun j => nth j a d) js).
Proof.
  induction 1 as [|j js Hj _ IH]; simpl; [done|].
  destruct (lookup_lt_is_Some_2 a j Hj) as [x Hx].
  by rewrite Hx, IH, (nth_lookup_Some a j d x Hx).
Qed.

Lemma map_nth_seq {A} (d : A) (a : list A) :
  map (fun j => nth j a d) (seq 0 (length a)) = a.
Proof.
  induction a as [|x a IH]; simpl; [done|].
  f_equal. by rewrite <- seq_shift, map_map.
Qed.

Lemma slice_bound_nat (n : Z) (len : nat) :
  (0 <= n <= Z.of_nat len)%Z -> slice_bound n len = Z.to_nat n.
Proof.
  intros Hn. unfold slice_bound.
  destruct (Z.ltb_spec n 0); [lia|]. f_equal. lia.
Qed.

Lemma slice_bound_le (n : Z) (len : nat) : (slice_bound n len <= len)%nat.
Proof. unfold slice_bound. destruct (Z.ltb_spec n 0); lia. Qed.

(** The two sets kept by the filter, as prefix and suffix of the trial
    ids in the order of their losses, cut where the slice bound [n_below]
    falls. *)
Lemma keep_idxs_sides (l_idxs : list Z) (l_vals : list Q) (gamma : float) (nb : Z) :
  length l_idxs = length l_vals -> n_below l_vals gamma = Ok nb ->
  let l_order := argsort_by Qltb 0%Q l_vals in
  let tids := map (fun j => nth j l_idxs 0%Z) l_order in
  let k := slice_bound nb (length l_vals) in
  keep_idxs l_idxs l_vals gamma "below_gamma" = Ok (list_to_set (firstn k tids))
  /\ keep_idxs l_idxs l_vals gamma "above_gamma" = Ok (list_to_set (skipn k tids))
  /\ tids ≡ₚ l_idxs
  /\ length tids = length l_vals.
Proof.
  intros Hlen Hnb l_order tids k.
  assert (Hperm : l_order ≡ₚ seq 0 (length l_vals)) by apply argsort_by_perm.
  assert (Horder_len : length l_order = length l_vals)
    by (by rewrite Hperm, length_seq).
  assert (Hin_range : Forall (fun j => (j < length l_idxs)%nat) l_order).
  { rewrite Hperm, Hlen. apply List.Forall_forall. intros j Hj. apply in_seq in Hj. lia. }
  split; [|split; [|split]].
  - unfold keep_idxs. rewrite Hnb. simpl. fold l_order. unfold slice_to.
    rewrite Horder_len. fold k.
    rewrite (index_all_ok 0%Z); [|by apply Forall_take].
    simpl. unfold tids. by rewrite firstn_map.
  - unfold keep_idxs. rewrite Hnb. simpl. fold l_order. unfold slice_from.
    rewrite Horder_len. fold k.
    rewrite (index_all_ok 0%Z); [|by apply Forall_drop].
    simpl. unfold tids. by rewrite skipn_map.
  - unfold tids. rewrite Hperm, <- Hlen. by rewrite map_nth_seq.
  - unfold tids. by rewrite length_map.
Qed.

Lemma iv_le_spec (a b : Z * Q) :
  iv_le a b <-> (fst a < fst b)%Z \/ (fst a = fst b /\ (snd a <= snd b)%Q).
Proof.
  unfold iv_le, iv_leb.
  rewrite orb_true_iff, andb_true_iff, Z.ltb_lt, Z.eqb_eq, Qle_bool_iff. done.
Qed.

#[local] Instance iv_le_trans : Transitive iv_le.
Proof.
  intros a b c. rewrite !iv_le_spec. intros [Hab|[Hab Hv]] [Hbc|[Hbc Hw]].
  - left. lia.
  - left. lia.
  - left. lia.
  - right. split; [lia|]. by eapply Qle_trans.
Qed.

#[local] Instance iv_le_total : Total iv_le.
Proof.
  intros a b. rewrite !iv_le_spec.
  destruct (Z.lt_trichotomy (fst a) (fst b)) as [Hlt|[Heq|Hgt]].
  - left. by left.
  - destruct (Qlt_le_dec (snd b) (snd a)) as [Hq|Hq].
    + right. right. split; [done|]. by apply Qlt_le_weak.
    + left. right. done.
  - right. by left.
Qed.

Lemma StronglySorted_weaken {A} (R1 R2 : relation A) (l : list A) :
  (forall x y, R1 x y -> R2 x y) -> StronglySorted R1 l -> StronglySorted R2 l.
Proof.
  intros Himpl. induction 1 as [|x l _ IH Hall]; constructor; [done|].
  eapply Forall_impl; eauto.
Qed.

(** C7, as stated, fails: the count is the ceiling of the rounded
    product.  The binary64 number 0.1 is 7205759403792794 * 2^-56, above
    one tenth, so that the ceiling of its exact product with 10 is 2; the
    binary64 product is 1, and of ten losses the filter keeps one trial,
    not two, for the side below gamma. *)
Lemma ap_filter_trials_rounds_product :
  FloatOps.Prim2SF 0.1%float = SpecFloat.S754_finite false 7205759403792794 (-56)
  /\ Qceiling (finite_value false 7205759403792794 (-56) * 10) = 2%Z
  /\ n_below [9; 8; 7; 6; 5; 4; 3; 2; 1; 0]%Q 0.1%float = Ok 1%Z
  /\ ap_filter_trials [0; 1; 2; 3; 4; 5; 6; 7; 8; 9]%Z [9; 8; 7; 6; 5; 4; 3; 2; 1; 0]%Q
       0.1%float [0; 1; 2; 3; 4; 5; 6; 7; 8; 9]%Z
       [90; 80; 70; 60; 50; 40; 30; 20; 10; 0]%Q "below_gamma"
     = Ok [0%Q].
Proof. repeat split; by vm_compute. Qed.

(** C7 (amended): for N losses with distinct trial ids and a binary64
    gamma whose product with N is finite, let n be the ceiling of the
    binary64 product gamma * N and k the position the slice bound n
    denotes among N elements (k = n when 0 <= n <= N).  The filter keeps
    exactly k ids for the side below gamma and the N - k others for the
    side above; the two sets are disjoint; and on either side the values
    returned are those of the observations whose id is kept, in ascending
    order of their id. *)
Theorem ap_filter_trials_split
  (o_idxs : list Z) (o_vals : list Q) (l_idxs : list Z) (l_vals : list Q)
  (gamma : float) (n : Z) :
  NoDup l_idxs -> length l_idxs = length l_vals ->
  n_below l_vals gamma = Ok n ->
  let N := length l_vals in
  let k := slice_bound n N in
  exists below above : gset Z,
    keep_idxs l_idxs l_vals gamma "below_gamma" = Ok below
    /\ keep_idxs l_idxs l_vals gamma "above_gamma" = Ok above
    /\ size below = k
    /\ size above = (N - k)%nat
    /\ ((0 <= n <= Z.of_nat N)%Z ->
        Z.of_nat (size below) = n /\ Z.of_nat (size above) = (Z.of_nat N - n)%Z)
    /\ below ## above
    /\ forall side keep,
         (side = "below_gamma" /\ keep = below) \/ (side = "above_gamma" /\ keep = above) ->
         exists rval_iv : list (Z * Q),
           ap_filter_trials l_idxs l_vals gamma o_idxs o_vals side = Ok (map snd rval_iv)
           /\ rval_iv ≡ₚ List.filter (fun iv => bool_decide (fst iv ∈ keep))
                           (combine o_idxs o_vals)
           /\ StronglySorted (fun a b => (fst a <= fst b)%Z) rval_iv.
Proof.
  intros Hnd Hlen Hn N k.
  destruct (keep_idxs_sides l_idxs l_vals gamma n Hlen Hn)
    as (Hbelow & Habove & Htids & Htids_len).
  fold N k in Hbelow, Habove.
  set (tids := map (fun j => nth j l_idxs 0%Z) (argsort_by Qltb 0%Q l_vals)) in *.
  assert (Hnd_tids : NoDup tids) by (by rewrite Htids).
  assert (Hk : (k <= N)%nat) by apply slice_bound_le.
  assert (Hsplit : NoDup (firstn k tids ++ skipn k tids)) by (by rewrite firstn_skipn).
  apply NoDup_app in Hsplit as (Hnd1 & Hdisj & Hnd2).
  assert (Hsize_below : size (list_to_set (firstn k tids) : gset Z) = k).
  { rewrite size_list_to_set by done. rewrite length_take, Htids_len. fold N. lia. }
  assert (Hsize_above : size (list_to_set (skipn k tids) : gset Z) = (N - k)%nat).
  { rewrite size_list_to_set by done. by rewrite length_drop, Htids_len. }
  exists (list_to_set (firstn k tids)), (list_to_set (skipn k tids)).
  split; [done|]. split; [done|]. split; [done|]. split; [done|]. split; [|split].
  - intros Hrange. rewrite Hsize_below, Hsize_above.
    unfold k. rewrite slice_bound_nat by done. lia.
  - intros x Hx1 Hx2. apply elem_of_list_to_set in Hx1, Hx2. by apply (Hdisj x).
  - intros side keep Hside.
    assert (Hkeep : keep_idxs l_idxs l_vals gamma side = Ok keep)
      by (destruct Hside as [[-> ->]|[-> ->]]; done).
    unfold ap_filter_trials. rewrite Hkeep. simpl.
    eexists. split; [reflexivity|]. split; [apply merge_sort_Permutation|].
    eapply StronglySorted_weaken; [|apply StronglySorted_merge_sort; apply _].
    intros a b Hab. apply iv_le_spec in Hab. lia.
Qed.

Lemma ap_filter_trials_split_witness :
  exists below above : gset Z,
    keep_idxs [10; 11; 12; 13; 14]%Z [5; 3; 1; 4; 2]%Q 0.25%float "below_gamma" = Ok below
    /\ keep_idxs [10; 11; 12; 13; 14]%Z [5; 3; 1; 4; 2]%Q 0.25%float "above_gamma" = Ok above
    /\ size below = 2%nat
    /\ size above = 3%nat
    /\ ((0 <= 2 <= 5)%Z ->
        Z.of_nat (size below) = 2%Z /\ Z.of_nat (size above) = (5 - 2)%Z)
    /\ below ## above
    /\ forall side keep,
         (side = "below_gamma" /\ keep = below) \/ (side = "above_gamma" /\ keep = above) ->
         exists rval_iv : list (Z * Q),
           ap_filter_trials [10; 11; 12; 13; 14]%Z [5; 3; 1; 4; 2]%Q 0.25%float
             [14; 12; 10; 13]%Z [40; 20; 0; 30]%Q side = Ok (map snd rval_iv)
           /\ rval_iv ≡ₚ List.filter (fun iv => bool_decide (fst iv ∈ keep))
                           (combine [14; 12; 10; 13]%Z [40; 20; 0; 30]%Q)
           /\ StronglySorted (fun a b => (fst a <= fst b)%Z) rval_iv.
Proof.
  apply (ap_filter_trials_split [14; 12; 10; 13]%Z [40; 20; 0; 30]%Q
           [10; 11; 12; 13; 14]%Z [5; 3; 1; 4; 2]%Q 0.25%float 2).
  - apply (bool_decide_unpack _). by vm_compute.
  - reflexivity.
  - by vm_compute.
Defined.

(** ** Claims about the densities *)

Section DensityFacts.
Variable erf : R -> R.

(** C8 (the code departs from it): with truncation bounds and no
    quantisation [LGMM1_lpdf] computes the mass of the window and then
    returns the log-density of the untruncated mixture, without
    subtracting the logarithm of that mass; with quantisation it does
    subtract it. *)
Theorem LGMM1_lpdf_truncated (samples weights mus sigmas : list R) (low high q : R) :
  LGMM1_lpdf erf samples weights mus sigmas (Some low) (Some high) None
  = (_ <- p_accept_of erf weights mus sigmas (Some low) (Some high) ;;;
     LGMM1_lpdf erf samples weights mus sigmas None None None)
  /\ LGMM1_lpdf erf samples weights mus sigmas (Some low) (Some high) (Some q)
     = (p_accept <- p_accept_of erf weights mus sigmas (Some low) (Some high) ;;;
        lpdf <- LGMM1_lpdf erf samples weights mus sigmas None None (Some q) ;;;
        Ok (map (fun l => l - ln p_accept) lpdf)).
Proof.
  split.
  - unfold LGMM1_lpdf.
    destruct (p_accept_of erf weights mus sigmas (Some low) (Some high)); reflexivity.
  - unfold LGMM1_lpdf.
    destruct (p_accept_of erf weights mus sigmas (Some low) (Some high)) as [p|e];
      [|reflexivity].
    simpl.
    destruct (interval_mass erf samples q _ _) as [prob|e]; [|reflexivity].
    simpl. f_equal. rewrite map_map. apply map_ext. intros pr. rewrite ln_1. lra.
Qed.
End DensityFacts.

(** ** Claims about the refinement *)

Lemma Rltb_lt (x y : R) : Rltb x y = true <-> x < y.
Proof. unfold Rltb. destruct (Rlt_dec x y); split; intros; try done; lra. Qed.

Lemma any_below_Exists (pt bounds : list R) :
  any_below pt bounds = true <-> Exists (fun pl => fst pl < snd pl) (combine pt bounds).
Proof.
  unfold any_below. rewrite existsb_exists, List.Exists_exists.
  split; intros (pl & Hin & Hlt); exists pl; (split; [done|]); by apply Rltb_lt.
Qed.

Lemma any_above_Exists (pt bounds : list R) :
  any_above pt bounds = true <-> Exists (fun pu => snd pu < fst pu) (combine pt bounds).
Proof.
  unfold any_above. rewrite existsb_exists, List.Exists_exists.
  split; intros (pl & Hin & Hlt); exists pl; (split; [done|]); by apply Rltb_lt.
Qed.

Lemma aligned_extend r nid vals lb ub q :
  aligned r -> length vals = 1%nat -> aligned (extend r nid vals lb ub q).
Proof.
  intros (Ha & Hl & Hu & Hq) Hv. unfold aligned, extend. simpl.
  rewrite !length_app. simpl. lia.
Qed.

Ltac case_step H :=
  repeat match type of H with
         | context [match ?x with _ => _ end] =>
             let E := fresh "E" in destruct x eqn:E; simpl in H; try discriminate H
         end.

(** What an iteration of the collecting loop can do to the lists. *)
Lemma collect_step_cases self MEDIUM r nid vals r' :
  collect_step self MEDIUM r (nid, vals) = Ok r' ->
  r' = r \/ exists x lb ub q, vals = [x] /\ r' = extend r nid vals lb ub q.
Proof.
  unfold collect_step, rbind, py_assert. intros Hstep.
  destruct (length vals =? 0)%nat eqn:E0; [left; congruence|].
  destruct (length vals =? 1)%nat eqn:E1; [|discriminate].
  apply Nat.eqb_eq in E1.
  destruct vals as [|x [|y vals]]; try discriminate.
  case_step Hstep; injection Hstep as <-; eauto 10.
Qed.

Lemma collect_cons self MEDIUM r nv rest :
  collect self MEDIUM r (nv :: rest)
  = (r' <- collect_step self MEDIUM r nv ;;; collect self MEDIUM r' rest).
Proof. reflexivity. Qed.

Lemma collect_aligned self MEDIUM i_vals :
  forall r r', aligned r -> collect self MEDIUM r i_vals = Ok r' -> aligned r'.
Proof.
  induction i_vals as [|[nid vals] rest IH]; intros r r' Hal Hc.
  - by injection Hc as <-.
  - rewrite collect_cons in Hc.
    destruct (collect_step self MEDIUM r (nid, vals)) as [r1|] eqn:Hstep; [|done].
    apply (IH r1 r'); [|done].
    apply collect_step_cases in Hstep as [->|(x & lb & ub & q & -> & ->)]; [done|].
    by apply aligned_extend.
Qed.

Lemma aligned_no_refinement : aligned no_refinement.
Proof. by repeat split. Qed.

Lemma combine_snoc {A B} (a : list A) (b : list B) (x : A) (y : B) :
  length a = length b -> combine (a ++ [x]) (b ++ [y]) = combine a b ++ [(x, y)].
Proof.
  revert b. induction a as [|a0 a IH]; intros [|b0 b] Hlen; simpl in *; try done.
  f_equal. apply IH. lia.
Qed.

(** An entry of the collected lists stays when the loop goes on. *)
Lemma collect_keeps self MEDIUM i_vals :
  forall r r', aligned r -> collect self MEDIUM r i_vals = Ok r' ->
    (forall p, In p (combine (all_vals r) (lbounds r)) ->
               In p (combine (all_vals r') (lbounds r')))
    /\ (forall p, In p (combine (all_vals r) (ubounds r)) ->
                  In p (combine (all_vals r') (ubounds r'))).
Proof.
  induction i_vals as [|[nid vals] rest IH]; intros r r' Hal Hc.
  - by injection Hc as <-.
  - rewrite collect_cons in Hc.
    destruct (collect_step self MEDIUM r (nid, vals)) as [r1|] eqn:Hstep; [|done].
    simpl in Hc.
    apply collect_step_cases in Hstep as [->|(x & lb & ub & q & -> & ->)]; [by apply IH|].
    destruct (IH _ _ (aligned_extend r nid [x] lb ub q Hal eq_refl) Hc) as [IHl IHu].
    destruct Hal as (Ha & Hl & Hu & Hq).
    split; intros p Hp; [apply IHl | apply IHu]; simpl;
      rewrite combine_snoc by congruence; apply in_or_app; by left.
Qed.

Lemma collect_step_normal self MEDIUM r nid x r' :
  str_in (name_by_nid self nid) ["normal"; "qnormal"] = true ->
  collect_step self MEDIUM r (nid, [x]) = Ok r' ->
  exists q, r' = extend r nid [x] (- MEDIUM) MEDIUM q.
Proof.
  unfold collect_step, str_in. simpl. intros Hdist Hstep.
  rewrite !orb_true_iff, !String.eqb_eq in Hdist.
  destruct Hdist as [Hd|[Hd|Hd]]; try discriminate Hd;
    rewrite Hd in Hstep; simpl in Hstep;
    unfold rbind in Hstep; case_step Hstep; injection Hstep as <-; eauto.
Qed.

Lemma collect_step_lognormal self MEDIUM r nid x r' :
  str_in (name_by_nid self nid) ["lognormal"; "qlognormal"] = true ->
  collect_step self MEDIUM r (nid, [x]) = Ok r' ->
  exists q, r' = extend r nid [x] (/ 10 ^ 12) MEDIUM q.
Proof.
  unfold collect_step, str_in. simpl. intros Hdist Hstep.
  rewrite !orb_true_iff, !String.eqb_eq in Hdist.
  destruct Hdist as [Hd|[Hd|Hd]]; try discriminate Hd;
    rewrite Hd in Hstep; simpl in Hstep;
    unfold rbind in Hstep; case_step Hstep; injection Hstep as <-; eauto.
Qed.

(** The entry a label leaves in the collected lists, given the bounds
    its iteration appends. *)
Lemma collect_entry self MEDIUM lb ub nid x i_vals :
  (forall r r', collect_step self MEDIUM r (nid, [x]) = Ok r' ->
                exists q, r' = extend r nid [x] lb ub q) ->
  forall r r', aligned r -> collect self MEDIUM r i_vals = Ok r' ->
    In (nid, [x]) i_vals ->
    In (x, lb) (combine (all_vals r') (lbounds r'))
    /\ In (x, ub) (combine (all_vals r') (ubounds r')).
Proof.
  intros Hentry. induction i_vals as [|[nid' vals] rest IH]; intros r r' Hal Hc Hin; [done|].
  rewrite collect_cons in Hc.
  destruct (collect_step self MEDIUM r (nid', vals)) as [r1|] eqn:Hstep; [|done].
  simpl in Hc.
  assert (Hal1 : aligned r1).
  { apply collect_step_cases in Hstep as [->|(y & lb' & ub' & q & -> & ->)]; [done|].
    by apply aligned_extend. }
  destruct Hin as [Heq|Hin]; [|by apply (IH r1)].
  injection Heq as -> ->.
  destruct (Hentry _ _ Hstep) as [q ->].
  destruct (collect_keeps self MEDIUM rest _ _ Hal1 Hc) as [Hkl Hku].
  destruct Hal as (Ha & Hl & Hu & Hq).
  split; [apply Hkl | apply Hku]; simpl;
    rewrite combine_snoc by congruence; apply in_or_app; right; by left.
Qed.

Section RefineFacts.
Variable self : TreeParzenEstimator.
Variable rec_eval_draw :
  gmap nat (list R) -> list (string * list R) * gmap nat (list R).
Variable rec_eval_llik : gmap nat (list R) -> R * R.
Variable fmin_powell : (list R -> result R) -> list R -> result (list R).
Variable Evaluated : Type.
Variable rec_eval_posterior : gmap nat (list R) -> Evaluated.
Variables (memo : gmap nat (list R)) (BIG MEDIUM : R).

Abbreviation suggestion :=
  (suggest1_evaluate self rec_eval_draw rec_eval_llik fmin_powell Evaluated
     rec_eval_posterior memo).

Abbreviation run := (refine_no_grad self rec_eval_draw rec_eval_llik fmin_powell memo BIG MEDIUM).

(** The refinement up to the check of the lower bounds of the sample. *)
Lemma refine_no_grad_lower_check i_vals memo1 r :
  (n_EI_candidates self <= 1)%nat ->
  rec_eval_draw memo = (i_vals, memo1) ->
  collect self MEDIUM no_refinement i_vals = Ok r ->
  run =
    if any_below (all_vals r) (lbounds r)
    then Raise (ValueError "sampler did not respect lbound")
    else if any_above (all_vals r) (ubounds r)
    then Raise (UnboundLocalError "lbi")
    else
      found <- fmin_powell (neg_EI self rec_eval_llik BIG memo1 i_vals r) (all_vals r) ;;;
      _ <- py_assert ((length found =? length (lbounds r))%nat) ;;;
      if any_below found (lbounds r) then Ok memo1
      else if any_above found (ubounds r) then Ok memo1
      else
        let found := snap (fun p q => np_ceil (p / q) * q) found (qlevels r) in
        bound <- bind_vals self i_vals memo1 (nids_to_optimize r) found 0 ;;;
        _ <- py_assert (snd bound =? length (all_vals r))%nat ;;;
        Ok (fst bound).
Proof.
  intros Hn Hdraw Hcollect.
  pose proof (collect_aligned self MEDIUM i_vals _ _ aligned_no_refinement Hcollect)
    as (Ha & Hl & Hu & Hq).
  unfold refine_no_grad.
  destruct (Nat.ltb_spec 1 (n_EI_candidates self)); [lia|].
  rewrite Hdraw, Hcollect. simpl rbind.
  rewrite Ha, Hl, Hu, Hq, !Nat.eqb_refl. simpl.
  destruct (any_below _ _); [done|].
  destruct (any_above _ _); [done|].
  destruct (fmin_powell _ _) as [found|e]; [|done]. simpl.
  by rewrite andb_true_r.
Qed.

(** C10: before refining, [refine_no_grad] compares the candidate drawn
    from the below posterior with the bounds of the coordinates it is
    about to refine.  A coordinate below its lower bound raises
    ValueError('sampler did not respect lbound'), as claimed: so do a
    normal or qnormal draw below -MEDIUM (MEDIUM is 10^4 by default) and a
    lognormal or qlognormal draw below 10^-12.  A coordinate above its
    upper bound, none being below its lower bound, does not raise the
    ValueError('sampler did not respect ubound') of the claim: line 752
    builds that exception from the local [lbi], which is not bound there,
    and the call ends with UnboundLocalError; so does it for a normal or
    qnormal draw above MEDIUM.  [suggest1], which calls the refinement
    with the defaults, ends with the same exception. *)
Theorem refine_no_grad_rejects_sample i_vals memo1 r :
  (n_EI_candidates self <= 1)%nat ->
  rec_eval_draw memo = (i_vals, memo1) ->
  collect self MEDIUM no_refinement i_vals = Ok r ->
  (Exists (fun pl => fst pl < snd pl) (combine (all_vals r) (lbounds r)) ->
   run = Raise (ValueError "sampler did not respect lbound"))
  /\ (~ Exists (fun pl => fst pl < snd pl) (combine (all_vals r) (lbounds r)) ->
      Exists (fun pu => snd pu < fst pu) (combine (all_vals r) (ubounds r)) ->
      run = Raise (UnboundLocalError "lbi"))
  /\ (forall nid x,
        In (nid, [x]) i_vals ->
        str_in (name_by_nid self nid) ["normal"; "qnormal"] = true ->
        (x < - MEDIUM -> run = Raise (ValueError "sampler did not respect lbound"))
        /\ (MEDIUM < x ->
            ~ Exists (fun pl => fst pl < snd pl) (combine (all_vals r) (lbounds r)) ->
            run = Raise (UnboundLocalError "lbi")))
  /\ (forall nid x,
        In (nid, [x]) i_vals ->
        str_in (name_by_nid self nid) ["lognormal"; "qlognormal"] = true ->
        x < / 10 ^ 12 ->
        run = Raise (ValueError "sampler did not respect lbound"))
  /\ (BIG = BIG_default -> MEDIUM = MEDIUM_default ->
      forall e, run = Raise e -> suggestion = Raise e).
Proof.
  intros Hn Hdraw Hcollect.
  assert (Habort : BIG = BIG_default -> MEDIUM = MEDIUM_default ->
                   forall e, run = Raise e -> suggestion = Raise e).
  { intros -> -> e Hrun. unfold suggest1_evaluate. by rewrite Hrun. }
  revert Habort.
  rewrite (refine_no_grad_lower_check i_vals memo1 r Hn Hdraw Hcollect).
  intros Habort.
  assert (Hlow : Exists (fun pl => fst pl < snd pl) (combine (all_vals r) (lbounds r)) ->
                 any_below (all_vals r) (lbounds r) = true) by apply any_below_Exists.
  assert (Hup : Exists (fun pu => snd pu < fst pu) (combine (all_vals r) (ubounds r)) ->
                any_above (all_vals r) (ubounds r) = true) by apply any_above_Exists.
  assert (Hupper : ~ Exists (fun pl => fst pl < snd pl) (combine (all_vals r) (lbounds r)) ->
                   Exists (fun pu => snd pu < fst pu) (combine (all_vals r) (ubounds r)) ->
                   (if any_below (all_vals r) (lbounds r)
                    then Raise (ValueError "sampler did not respect lbound")
                    else if any_above (all_vals r) (ubounds r)
                    then Raise (UnboundLocalError "lbi")
                    else
                      found <- fmin_powell (neg_EI self rec_eval_llik BIG memo1 i_vals r)
                                 (all_vals r) ;;;
                      _ <- py_assert ((length found =? length (lbounds r))%nat) ;;;
                      if any_below found (lbounds r) then Ok memo1
                      else if any_above found (ubounds r) then Ok memo1
                      else
                        let found := snap (fun p q => np_ceil (p / q) * q) found (qlevels r) in
                        bound <- bind_vals self i_vals memo1 (nids_to_optimize r) found 0 ;;;
                        _ <- py_assert (snd bound =? length (all_vals r))%nat ;;;
                        Ok (fst bound))
                   = Raise (UnboundLocalError "lbi")).
  { intros Hnex Hex.
    destruct (any_below _ _) eqn:Hb; [by apply any_below_Exists in Hb|].
    by rewrite Hup. }
  split; [|split; [|split; [|split]]]; [| | | |exact Habort].
  - intros Hex. by rewrite Hlow.
  - exact Hupper.
  - intros nid x Hin Hdist.
    destruct (collect_entry self MEDIUM (- MEDIUM) MEDIUM nid x i_vals
                (fun r0 r1 => collect_step_normal self MEDIUM r0 nid x r1 Hdist)
                _ _ aligned_no_refinement Hcollect Hin) as [Hl Hu].
    split.
    + intros Hx. rewrite Hlow; [done|]. apply List.Exists_exists. by exists (x, - MEDIUM).
    + intros Hx Hnex. apply Hupper; [done|]. apply List.Exists_exists. by exists (x, MEDIUM).
  - intros nid x Hin Hdist Hx.
    destruct (collect_entry self MEDIUM (/ 10 ^ 12) MEDIUM nid x i_vals
                (fun r0 r1 => collect_step_lognormal self MEDIUM r0 nid x r1 Hdist)
                _ _ aligned_no_refinement Hcollect Hin) as [Hl Hu].
    rewrite Hlow; [done|]. apply List.Exists_exists. by exists (x, / 10 ^ 12).
Qed.

(** C9: when the point the optimizer returns lies below a lower bound or
    above an upper bound, [refine_no_grad] returns the memo as the draw
    of the candidate left it, the candidate's values included, and
    [suggest1] evaluates the suggestion in that memo; a returned memo
    that differs from it is the memo with the snapped refined values
    bound to the value nodes, and every coordinate of the refined point
    then respects its bounds. *)
Theorem refine_no_grad_out_of_bounds i_vals memo1 r found :
  (n_EI_candidates self <= 1)%nat ->
  rec_eval_draw memo = (i_vals, memo1) ->
  collect self MEDIUM no_refinement i_vals = Ok r ->
  any_below (all_vals r) (lbounds r) = false ->
  any_above (all_vals r) (ubounds r) = false ->
  fmin_powell (neg_EI self rec_eval_llik BIG memo1 i_vals r) (all_vals r) = Ok found ->
  length found = length (lbounds r) ->
  let escapes :=
    Exists (fun pl => fst pl < snd pl) (combine found (lbounds r))
    \/ Exists (fun pu => snd pu < fst pu) (combine found (ubounds r)) in
  (escapes ->
   run = Ok memo1
   /\ ((forall nid vals, In (nid, vals) i_vals -> memo1 !! post_below_vals self nid = Some vals)
       -> forall nid vals, In (nid, vals) i_vals ->
          exists memo', run = Ok memo' /\ memo' !! post_below_vals self nid = Some vals)
   /\ (BIG = BIG_default -> MEDIUM = MEDIUM_default ->
       suggestion = Ok (rec_eval_posterior memo1)))
  /\ (forall memo', run = Ok memo' -> memo' <> memo1 ->
        Forall (fun pl => snd pl <= fst pl) (combine found (lbounds r))
        /\ Forall (fun pu => fst pu <= snd pu) (combine found (ubounds r))
        /\ exists ii,
             bind_vals self i_vals memo1 (nids_to_optimize r)
               (snap (fun p q => np_ceil (p / q) * q) found (qlevels r)) 0
             = Ok (memo', ii)).
Proof.
  intros Hn Hdraw Hcollect Hlo Hhi Hfound Hlen escapes.
  assert (Hsuggest : BIG = BIG_default -> MEDIUM = MEDIUM_default ->
                     run = Ok memo1 -> suggestion = Ok (rec_eval_posterior memo1)).
  { intros -> -> Hrun. unfold suggest1_evaluate. by rewrite Hrun. }
  revert Hsuggest.
  rewrite (refine_no_grad_lower_check i_vals memo1 r Hn Hdraw Hcollect).
  intros Hsuggest. revert Hsuggest.
  rewrite Hlo, Hhi, Hfound. simpl rbind. rewrite Hlen, Nat.eqb_refl. simpl.
  intros Hsuggest. split.
  - intros Hesc. revert Hsuggest.
    destruct Hesc as [Hex|Hex];
      [apply any_below_Exists in Hex; rewrite Hex
      |apply any_above_Exists in Hex; rewrite Hex;
       destruct (any_below found (lbounds r))];
      (intros Hsuggest; split; [done|]; split; [|by auto];
       intros Hmemo nid vals Hin; exists memo1; split; [done|]; by apply Hmemo).
  - intros memo' Hrun Hne.
    destruct (any_below found (lbounds r)) eqn:Hb; [by injection Hrun as <-|].
    destruct (any_above found (ubounds r)) eqn:Ha; [by injection Hrun as <-|].
    split; [|split].
    + apply List.Forall_forall. intros pl Hin.
      destruct (Rle_dec (snd pl) (fst pl)) as [|Hnle]; [done|].
      assert (Hex : any_below found (lbounds r) = true).
      { apply any_below_Exists, List.Exists_exists. exists pl. split; [done|]. lra. }
      congruence.
    + apply List.Forall_forall. intros pu Hin.
      destruct (Rle_dec (fst pu) (snd pu)) as [|Hnle]; [done|].
      assert (Hex : any_above found (ubounds r) = true).
      { apply any_above_Exists, List.Exists_exists. exists pu. split; [done|]. lra. }
      congruence.
    + destruct (bind_vals _ _ _ _ _ _) as [[m ii]|e]; [|done]. simpl in Hrun.
      destruct (_ =? _)%nat; [|done]. simpl in Hrun. injection Hrun as <-. by exists ii.
Qed.
End RefineFacts.

Lemma Exists_single {A} (P : A -> Prop) (x : A) : Exists P [x] <-> P x.
Proof.
  split; [|by constructor].
  intros Hex. apply List.Exists_exists in Hex as (y & [<-|[]] & Hy). done.
Qed.

Lemma refine_no_grad_rejects_sample_witness :
  refine_no_grad (example_tpe "normal") (example_draw 20000) example_llik
    (powell_to [0]) ∅ BIG_default MEDIUM_default
  = Raise (UnboundLocalError "lbi").
Proof.
  destruct (refine_no_grad_rejects_sample (example_tpe "normal") (example_draw 20000)
              example_llik (powell_to [0]) unit (fun _ => tt) ∅ BIG_default MEDIUM_default
              [("x", [20000])] (<[7%nat := [20000]]> ∅)
              (extend no_refinement "x" [20000] (- MEDIUM_default) MEDIUM_default None))
    as (_ & Hubound & _).
  - simpl. lia.
  - reflexivity.
  - reflexivity.
  - apply Hubound.
    + simpl. rewrite Exists_single. unfold MEDIUM_default. simpl. lra.
    + simpl. rewrite Exists_single. unfold MEDIUM_default. simpl. lra.
Defined.

Lemma refine_no_grad_out_of_bounds_witness :
  refine_no_grad (example_tpe "uniform") (example_draw (1 / 2)) example_llik
    (powell_to [2]) ∅ BIG_default MEDIUM_default
  = Ok (<[7%nat := [1 / 2]]> ∅).
Proof.
  destruct (refine_no_grad_out_of_bounds (example_tpe "uniform") (example_draw (1 / 2))
              example_llik (powell_to [2]) unit (fun _ => tt) ∅ BIG_default MEDIUM_default
              [("x", [1 / 2])] (<[7%nat := [1 / 2]]> ∅)
              (extend no_refinement "x" [1 / 2] 0 1 None) [2])
    as [Hescapes _].
  - simpl. lia.
  - reflexivity.
  - reflexivity.
  - simpl. destruct (any_below _ _) eqn:Hb; [|done].
    apply any_below_Exists in Hb. simpl in Hb. rewrite Exists_single in Hb. simpl in Hb. lra.
  - simpl. destruct (any_above _ _) eqn:Ha; [|done].
    apply any_above_Exists in Ha. simpl in Ha. rewrite Exists_single in Ha. simpl in Ha. lra.
  - reflexivity.
  - reflexivity.
  - apply Hescapes. right. simpl. rewrite Exists_single. simpl. lra.
Defined.

(* ================================================================== *)
(** * Further properties of the code *)

(** ** The trial filter: what the two sides hold *)

(** [argsort_by] over the rationals returns the positions in
    non-decreasing order of their values. *)
Lemma insert_by_sorted (a : list Q) (i : nat) (sorted : list nat) :
  StronglySorted (fun i j => (nth i a 0 <= nth j a 0)%Q) sorted ->
  StronglySorted (fun i j => (nth i a 0 <= nth j a 0)%Q) (insert_by Qltb 0%Q a i sorted).
Proof.
  induction 1 as [|j rest Hsorted IH Hall]; simpl.
  - repeat constructor.
  - unfold Qltb at 1. destruct (Qle_bool (nth i a 0%Q) (nth j a 0%Q)) eqn:Hle; simpl.
    + apply Qle_bool_iff in Hle. constructor; [by constructor|].
      constructor; [done|]. eapply Forall_impl; [exact Hall|].
      intros k Hk. simpl in Hk. by eapply Qle_trans.
    + assert (Hlt : (nth j a 0 < nth i a 0)%Q).
      { apply Qnot_le_lt. intros Hc. apply Qle_bool_iff in Hc. congruence. }
      constructor; [done|].
      rewrite insert_by_perm. constructor; [by apply Qlt_le_weak | done].
Qed.

Lemma argsort_by_sorted (a : list Q) :
  StronglySorted (fun i j => (nth i a 0 <= nth j a 0)%Q) (argsort_by Qltb 0%Q a).
Proof.
  unfold argsort_by. generalize (seq 0 (length a)) as l.
  induction l as [|i l IH]; simpl; [constructor | by apply insert_by_sorted].
Qed.

Lemma StronglySorted_lookup_lt {A} (R : relation A) (l : list A) (p p' : nat) (x y : A) :
  StronglySorted R l -> l !! p = Some x -> l !! p' = Some y -> (p < p')%nat -> R x y.
Proof.
  intros Hs. revert p p'. induction Hs as [|z l Hs IH Hall]; intros p p' Hx Hy Hlt; [done|].
  destruct p' as [|p']; [lia|]. simpl in Hy.
  destruct p as [|p]; simpl in Hx.
  - injection Hx as ->. rewrite Forall_forall in Hall. apply Hall.
    by eapply list_elem_of_lookup_2.
  - eapply IH; eauto. lia.
Qed.

(** X1: the side below gamma holds the trials of lowest loss.  For
    distinct trial ids and a binary64 gamma whose product with the number
    N of losses is finite, the below set holds exactly k trials, k being
    the position that the ceiling of the binary64 product gamma * N
    denotes as a slice bound, and no trial on the below side has a larger
    loss than a trial on the above side. *)
Theorem ap_filter_trials_below_lowest
  (l_idxs : list Z) (l_vals : list Q) (gamma : float) (n : Z) :
  NoDup l_idxs -> length l_idxs = length l_vals ->
  n_below l_vals gamma = Ok n ->
  exists below above : gset Z,
    keep_idxs l_idxs l_vals gamma "below_gamma" = Ok below
    /\ keep_idxs l_idxs l_vals gamma "above_gamma" = Ok above
    /\ size below = slice_bound n (length l_vals)
    /\ forall i j tb ta,
         l_idxs !! i = Some tb -> l_idxs !! j = Some ta ->
         tb ∈ below -> ta ∈ above ->
         (nth i l_vals 0 <= nth j l_vals 0)%Q.
Proof.
  intros Hnd Hlen Hn.
  destruct (keep_idxs_sides l_idxs l_vals gamma n Hlen Hn) as (Hb & Ha & Htids & Htids_len).
  set (l_order := argsort_by Qltb 0%Q l_vals) in *.
  set (tids := map (fun j => nth j l_idxs 0%Z) l_order) in *.
  set (k := slice_bound n (length l_vals)) in *.
  assert (Hperm : l_order ≡ₚ seq 0 (length l_vals)) by apply argsort_by_perm.
  assert (Hpos : forall p t, tids !! p = Some t ->
                   forall i, l_idxs !! i = Some t -> l_order !! p = Some i).
  { intros p t Hp i Hi. unfold tids in Hp. rewrite list_lookup_fmap in Hp.
    destruct (l_order !! p) as [i'|] eqn:Hi'; [|done]. simpl in Hp. injection Hp as Hp.
    assert (Hrange : (i' < length l_idxs)%nat).
    { assert (Hin : i' ∈ seq 0 (length l_vals)).
      { rewrite <- Hperm. by eapply list_elem_of_lookup_2. }
      apply list_elem_of_In, in_seq in Hin. lia. }
    destruct (lookup_lt_is_Some_2 l_idxs i' Hrange) as [t' Ht'].
    rewrite (nth_lookup_Some l_idxs i' 0%Z t' Ht') in Hp. subst t'.
    by rewrite (NoDup_lookup l_idxs i i' t Hnd Hi Ht'). }
  eexists _, _. split; [exact Hb|]. split; [exact Ha|]. split.
  - assert (Hnd_k : NoDup (firstn k tids)).
    { apply (NoDup_app (firstn k tids) (skipn k tids)). by rewrite firstn_skipn, Htids. }
    rewrite size_list_to_set by done. rewrite length_take, Htids_len.
    pose proof (slice_bound_le n (length l_vals)). unfold k. lia.
  - intros i j tb ta Hi Hj Htb Hta.
    apply elem_of_list_to_set, elem_of_take in Htb as (p & Hp & Hlt).
    apply elem_of_list_to_set, list_elem_of_lookup in Hta as (p' & Hp').
    rewrite lookup_drop in Hp'.
    apply (StronglySorted_lookup_lt _ l_order p (k + p') i j (argsort_by_sorted l_vals));
      [by eapply Hpos | by eapply Hpos | lia].
Qed.

Lemma ap_filter_trials_below_lowest_witness :
  exists below above : gset Z,
    keep_idxs [10; 11; 12; 13; 14]%Z [5; 3; 1; 4; 2]%Q 0.25%float "below_gamma" = Ok below
    /\ keep_idxs [10; 11; 12; 13; 14]%Z [5; 3; 1; 4; 2]%Q 0.25%float "above_gamma" = Ok above
    /\ size below = 2%nat
    /\ forall i j tb ta,
         [10; 11; 12; 13; 14]%Z !! i = Some tb -> [10; 11; 12; 13; 14]%Z !! j = Some ta ->
         tb ∈ below -> ta ∈ above ->
         (nth i [5; 3; 1; 4; 2]%Q 0 <= nth j [5; 3; 1; 4; 2]%Q 0)%Q.
Proof.
  apply (ap_filter_trials_below_lowest [10; 11; 12; 13; 14]%Z [5; 3; 1; 4; 2]%Q 0.25%float 2).
  - apply (bool_decide_unpack _). by vm_compute.
  - reflexivity.
  - by vm_compute.
Defined.

Lemma filter_partition {A} (f g : A -> bool) (l : list A) :
  (forall x, f x && g x = false) ->
  List.filter f l ++ List.filter g l ≡ₚ List.filter (fun x => f x || g x) l.
Proof.
  intros Hdisj. induction l as [|x l IH]; simpl; [done|].
  pose proof (Hdisj x) as Hx.
  destruct (f x), (g x); simpl in *; try done.
  - by rewrite IH.
  - rewrite <- IH. by rewrite <- Permutation_middle.
Qed.

(** X2: the two sides of the filter split the observations: for distinct
    trial ids and a binary64 gamma whose product with the number of
    losses is finite (wherever the split then falls) the values returned
    for the below side together with those returned for the above side
    are, up to order, the values of the observations whose trial id has a
    loss; an observation of any other trial is on neither side, and none
    is on both. *)
Theorem ap_filter_trials_partition
  (o_idxs : list Z) (o_vals : list Q) (l_idxs : list Z) (l_vals : list Q)
  (gamma : float) (n : Z) :
  NoDup l_idxs -> length l_idxs = length l_vals ->
  n_below l_vals gamma = Ok n ->
  exists vals_below vals_above,
    ap_filter_trials l_idxs l_vals gamma o_idxs o_vals "below_gamma" = Ok vals_below
    /\ ap_filter_trials l_idxs l_vals gamma o_idxs o_vals "above_gamma" = Ok vals_above
    /\ vals_below ++ vals_above
       ≡ₚ map snd (List.filter (fun iv => bool_decide (fst iv ∈ l_idxs))
                     (combine o_idxs o_vals)).
Proof.
  intros Hnd Hlen Hn.
  destruct (keep_idxs_sides l_idxs l_vals gamma n Hlen Hn) as (Hb & Ha & Htids & _).
  set (l_order := argsort_by Qltb 0%Q l_vals) in *.
  set (tids := map (fun j => nth j l_idxs 0%Z) l_order) in *.
  set (k := slice_bound n (length l_vals)) in *.
  assert (Hsplit : NoDup (firstn k tids ++ skipn k tids))
    by (by rewrite firstn_skipn, Htids).
  apply NoDup_app in Hsplit as (_ & Hdisj & _).
  assert (Hmem : forall t, t ∈ l_idxs <-> t ∈ firstn k tids \/ t ∈ skipn k tids).
  { intros t. rewrite <- Htids. rewrite <- (firstn_skipn k tids) at 1. apply elem_of_app. }
  unfold ap_filter_trials. rewrite Hb, Ha. simpl.
  eexists _, _. split; [reflexivity|]. split; [reflexivity|].
  rewrite <- map_app, !merge_sort_Permutation.
  apply Permutation_map.
  rewrite filter_partition.
  - erewrite filter_ext; [reflexivity|]. intros [t v]. simpl.
    apply eq_true_iff_eq. rewrite orb_true_iff, !bool_decide_eq_true.
    rewrite !elem_of_list_to_set. symmetry. apply Hmem.
  - intros [t v]. simpl. apply andb_false_iff.
    destruct (bool_decide (t ∈ (list_to_set (firstn k tids) : gset Z))) eqn:Hin; [|by left].
    right. apply bool_decide_eq_false. apply bool_decide_eq_true in Hin.
    rewrite elem_of_list_to_set in *. by apply Hdisj.
Qed.

Lemma ap_filter_trials_partition_witness :
  exists vals_below vals_above,
    ap_filter_trials [10; 11; 12; 13; 14]%Z [5; 3; 1; 4; 2]%Q 0.25%float
      [14; 12; 10; 13; 99]%Z [40; 20; 0; 30; 7]%Q "below_gamma" = Ok vals_below
    /\ ap_filter_trials [10; 11; 12; 13; 14]%Z [5; 3; 1; 4; 2]%Q 0.25%float
         [14; 12; 10; 13; 99]%Z [40; 20; 0; 30; 7]%Q "above_gamma" = Ok vals_above
    /\ vals_below ++ vals_above
       ≡ₚ map snd (List.filter (fun iv => bool_decide (fst iv ∈ [10; 11; 12; 13; 14]%Z))
                     (combine [14; 12; 10; 13; 99]%Z [40; 20; 0; 30; 7]%Q)).
Proof.
  apply (ap_filter_trials_partition [14; 12; 10; 13; 99]%Z [40; 20; 0; 30; 7]%Q
           [10; 11; 12; 13; 14]%Z [5; 3; 1; 4; 2]%Q 0.25%float 2).
  - apply (bool_decide_unpack _). by vm_compute.
  - reflexivity.
  - by vm_compute.
Defined.

(** ** Linear forgetting *)

Lemma StronglySorted_map_in {A B} (R : relation A) (R' : relation B) (f : A -> B)
  (l : list A) :
  (forall x y, x ∈ l -> y ∈ l -> R x y -> R' (f x) (f y)) ->
  StronglySorted R l -> StronglySorted R' (map f l).
Proof.
  intros Hf Hs. induction Hs as [|x l Hs IH Hall]; simpl; [constructor|].
  constructor.
  - apply IH. intros a b Ha Hb. apply Hf; by right.
  - rewrite Forall_forall in Hall. apply Forall_forall. intros y Hy.
    apply list_elem_of_fmap in Hy as (z & -> & Hz).
    apply Hf; [by left | by right | by apply Hall].
Qed.

Lemma StronglySorted_take_drop {A} (R : relation A) (l : list A) (k : nat) (a b : A) :
  StronglySorted R l -> a ∈ firstn k l -> b ∈ skipn k l -> R a b.
Proof.
  intros Hs Ha Hb.
  apply elem_of_take in Ha as (p & Hp & Hlt).
  apply list_elem_of_lookup in Hb as (p' & Hp'). rewrite lookup_drop in Hp'.
  eapply (StronglySorted_lookup_lt R l p (k + p')); eauto. lia.
Qed.

(** The documents in the order of their losses. *)
Lemma docs_by_loss (d0 : trial_doc) (docs : list trial_doc) :
  let sorted := map (fun i => nth i docs d0) (argsort_by Qltb 0%Q (map bandit_loss docs)) in
  sorted ≡ₚ docs
  /\ StronglySorted (fun a b => (bandit_loss a <= bandit_loss b)%Q) sorted.
Proof.
  intros sorted. unfold sorted.
  pose proof (argsort_by_perm Qltb 0%Q (map bandit_loss docs)) as Hperm.
  rewrite length_map in Hperm. split.
  - rewrite Hperm. by rewrite map_nth_seq.
  - eapply StronglySorted_map_in; [|apply argsort_by_sorted].
    intros i j Hi Hj Hle. rewrite Hperm in Hi, Hj.
    apply list_elem_of_In, in_seq in Hi, Hj.
    rewrite <- !(map_nth bandit_loss).
    rewrite (nth_indep _ (bandit_loss d0) 0%Q) by (rewrite length_map; lia).
    rewrite (nth_indep (map bandit_loss docs) (bandit_loss d0) 0%Q)
      by (rewrite length_map; lia).
    done.
Qed.

(** X3: [forget_filter] leaves the documents as they are when forgetting
    is off (0) or the history is no longer than the cap. Otherwise it
    never raises, and it keeps the documents of lowest loss, in ascending
    order of loss: no kept document has a larger loss than a dropped one,
    and for a positive cap L exactly L documents are kept. *)
Theorem forget_filter_keeps_lowest (linear_forgetting : Z) (docs : list trial_doc) :
  (linear_forgetting = 0%Z \/ (Z.of_nat (length docs) <= linear_forgetting)%Z ->
   forget_filter linear_forgetting docs = Ok docs)
  /\ (linear_forgetting <> 0%Z -> (linear_forgetting < Z.of_nat (length docs))%Z ->
      exists kept dropped,
        forget_filter linear_forgetting docs = Ok kept
        /\ kept ++ dropped ≡ₚ docs
        /\ length kept = slice_bound linear_forgetting (length docs)
        /\ ((0 < linear_forgetting)%Z -> length kept = Z.to_nat linear_forgetting)
        /\ (forall a b, a ∈ kept -> b ∈ dropped -> (bandit_loss a <= bandit_loss b)%Q)
        /\ StronglySorted (fun a b => (bandit_loss a <= bandit_loss b)%Q) kept).
Proof.
  split.
  - intros Hoff. unfold forget_filter.
    destruct (Z.eqb_spec linear_forgetting 0); [done|]. simpl.
    destruct (Z.ltb_spec linear_forgetting (Z.of_nat (length docs))); [lia | done].
  - intros Hne Hlt. unfold forget_filter.
    destruct (Z.eqb_spec linear_forgetting 0); [done|]. simpl.
    destruct (Z.ltb_spec linear_forgetting (Z.of_nat (length docs))); [|lia].
    destruct docs as [|d0 docs'].
    { change (Z.of_nat (length [])) with 0%Z in *. simpl map.
      change (argsort_by Qltb 0%Q []) with (@nil nat).
      exists [], []. split; [unfold slice_to; by rewrite take_nil|]. split; [done|].
      split; [unfold slice_bound; destruct (Z.ltb_spec linear_forgetting 0);
              change (Z.of_nat (length [])) with 0%Z; simpl length; lia|].
      split; [lia|]. split; [by intros a b Ha%elem_of_nil | constructor]. }
    remember (d0 :: docs') as docs eqn:Hdocs. clear Hdocs docs'.
    set (order := argsort_by Qltb 0%Q (map bandit_loss docs)).
    assert (Hperm : order ≡ₚ seq 0 (length docs)).
    { unfold order. rewrite argsort_by_perm. by rewrite length_map. }
    assert (Hlen : length order = length docs) by (by rewrite Hperm, length_seq).
    destruct (docs_by_loss d0 docs) as [Hsorted_perm Hsorted].
    fold order in Hsorted_perm, Hsorted.
    set (sorted := map (fun i => nth i docs d0) order) in *.
    set (k := slice_bound linear_forgetting (length order)).
    assert (Hkept : index_all docs (slice_to linear_forgetting order) = Ok (firstn k sorted)).
    { unfold slice_to. fold k. rewrite (index_all_ok d0).
      - unfold sorted. by rewrite firstn_map.
      - apply Forall_take. rewrite Hperm. apply List.Forall_forall.
        intros j Hj. apply in_seq in Hj. lia. }
    exists (firstn k sorted), (skipn k sorted).
    assert (Hk : (k <= length docs)%nat).
    { unfold k, slice_bound. rewrite Hlen.
      destruct (Z.ltb_spec linear_forgetting 0); lia. }
    assert (Hsorted_len : length sorted = length docs)
      by (unfold sorted; by rewrite length_map).
    split; [done|]. split; [by rewrite firstn_skipn|].
    assert (Hk' : slice_bound linear_forgetting (length docs) = k)
      by (unfold k; by rewrite Hlen).
    split; [rewrite length_take, Hsorted_len, Hk'; lia|].
    split.
    { intros Hpos. rewrite length_take, Hsorted_len, <- Hk'. unfold slice_bound.
      destruct (Z.ltb_spec linear_forgetting 0); lia. }
    split.
    { intros a b Ha Hb. exact (StronglySorted_take_drop _ sorted k a b Hsorted Ha Hb). }
    rewrite <- (firstn_skipn k sorted) in Hsorted.
    by apply StronglySorted_app_1_l in Hsorted.
Qed.

(** ** The adaptive Parzen estimator: the weights *)

Lemma normalize_R (ws : list R) :
  normalize ws = map (fun w => w / np_sum ws) ws.
Proof. reflexivity. Qed.

Lemma ramp_total_pos (n : nat) (prior_weight : R) :
  (1 <= n)%nat -> 0 <= prior_weight ->
  0 < INR n * (INR n + 1) / 2 + INR n * prior_weight.
Proof.
  intros Hn Hpw. assert (H1 : 1 <= INR n) by (apply (le_INR 1); lia). nra.
Qed.

(** X4: for n >= 1 observations and a prior weight >= 0 the weights
    returned are (i+1)/T for the observation in position i and
    n * prior_weight / T for the prior, with T = n(n+1)/2 + n * prior_weight;
    none is negative, and an observation in a later position weighs
    strictly more than one in an earlier position. *)
Theorem adaptive_parzen_normal_weights
  (obs : list R) (prior_weight prior_mu prior_sigma : R) :
  obs <> [] -> 0 <= prior_weight ->
  let n := length obs in
  let T := INR n * (INR n + 1) / 2 + INR n * prior_weight in
  exists weights mus sigmas,
    adaptive_parzen_normal obs prior_weight prior_mu prior_sigma = Ok (weights, mus, sigmas)
    /\ weights = map (fun i => (1 + INR i) / T) (seq 0 n) ++ [INR n * prior_weight / T]
    /\ Forall (fun w => 0 <= w) weights
    /\ forall i j wi wj,
         (i < j < n)%nat -> weights !! i = Some wi -> weights !! j = Some wj -> wi < wj.
Proof.
  intros Hne Hpw n T.
  assert (Hn : (1 <= n)%nat) by (unfold n; destruct obs; [done | simpl; lia]).
  pose proof (ramp_total_pos n prior_weight Hn Hpw) as HT. fold T in HT.
  unfold adaptive_parzen_normal.
  destruct (parzen_components_R obs prior_mu prior_sigma) as (sigma & -> & Hlen).
  simpl rbind.
  assert (Hmus : length (obs ++ [prior_mu]) = S n) by (rewrite length_app; simpl; lia).
  rewrite Hmus.
  assert (Hw : normalize (ramp_weights (S n) prior_weight)
               = map (fun i => (1 + INR i) / T) (seq 0 n) ++ [INR n * prior_weight / T]).
  { rewrite normalize_R, np_sum_ramp_weights. fold T.
    rewrite ramp_weights_S, map_app, map_map. f_equal.
    change ([((fone + of_nat n - fone) * prior_weight)%np / T]
            = [INR n * prior_weight / T]).
    f_equal. simpl. lra. }
  do 3 eexists. split; [reflexivity|]. rewrite Hw.
  split; [done|]. split.
  - apply Forall_app. split.
    + apply Forall_forall. intros w Hin. apply list_elem_of_fmap in Hin as (i & -> & _).
      pose proof (pos_INR i). apply Rmult_le_pos; [lra|]. left. by apply Rinv_0_lt_compat.
    + apply Forall_singleton. pose proof (pos_INR n).
      apply Rmult_le_pos; [nra|]. left. by apply Rinv_0_lt_compat.
  - intros i j wi wj [Hij Hjn] Hi Hj.
    rewrite lookup_app_l in Hi by (rewrite length_map, length_seq; lia).
    rewrite lookup_app_l in Hj by (rewrite length_map, length_seq; lia).
    rewrite list_lookup_fmap, lookup_seq_lt in Hi by lia.
    rewrite list_lookup_fmap, lookup_seq_lt in Hj by lia.
    simpl in Hi, Hj. injection Hi as <-. injection Hj as <-.
    apply Rmult_lt_compat_r; [by apply Rinv_0_lt_compat|].
    apply lt_INR in Hij. lra.
Qed.

Lemma adaptive_parzen_normal_weights_witness :
  exists weights mus sigmas,
    adaptive_parzen_normal [4; 2; 7] (3 / 10) 0 1 = Ok (weights, mus, sigmas)
    /\ weights = map (fun i => (1 + INR i) / (INR 3 * (INR 3 + 1) / 2 + INR 3 * (3 / 10)))
                   (seq 0 3)
                 ++ [INR 3 * (3 / 10) / (INR 3 * (INR 3 + 1) / 2 + INR 3 * (3 / 10))].
Proof.
  destruct (adaptive_parzen_normal_weights [4; 2; 7] (3 / 10) 0 1)
    as (weights & mus & sigmas & Heq & Hw & _); [done | lra |].
  by exists weights, mus, sigmas.
Defined.

(** ** The samplers: what they return *)

Section RejectionSound.
Context {RandomState : Type}.
Variable attempt : RandomState -> result (R * RandomState).
Variable accept : R -> bool.
Variable P : R -> Prop.
Hypothesis accepted_P :
  forall g draw g', attempt g = Ok (draw, g') -> accept draw = true -> P draw.

(** Whatever the loop returns holds exactly [n_samples] candidates, each
    of them accepted. *)
Lemma rejection_loop_sound (n_samples : nat) :
  forall fuel rng samples result rng',
    rejection_loop attempt accept fuel n_samples rng samples = Some (Ok (result, rng')) ->
    (length samples <= n_samples)%nat -> Forall P samples ->
    length result = n_samples /\ Forall P result.
Proof using accepted_P.
  induction fuel as [|fuel IH]; intros rng samples result rng' Hloop Hlen HP.
  - rewrite rejection_loop_O in Hloop.
    destruct (Nat.ltb_spec (length samples) n_samples); [done|].
    injection Hloop as <- <-. split; [lia | done].
  - rewrite rejection_loop_S in Hloop.
    destruct (Nat.ltb_spec (length samples) n_samples) as [Hlt|Hge].
    + destruct (attempt rng) as [[draw rng1]|e] eqn:Hatt; [|done].
      destruct (accept draw) eqn:Ha.
      * apply IH in Hloop; [done | rewrite length_app; simpl; lia |].
        apply Forall_app. split; [done|]. apply Forall_singleton.
        by apply (accepted_P rng draw rng1).
      * by apply IH in Hloop.
    + injection Hloop as <- <-. split; [lia | done].
Qed.
End RejectionSound.

Lemma for_each_length {A B} (f : A -> result B) (l : list A) :
  forall out, for_each f l = Ok out -> length out = length l.
Proof.
  induction l as [|x l IH]; intros out Hrun; simpl in Hrun.
  - by injection Hrun as <-.
  - destruct (f x) as [y|e]; [|done]. simpl in Hrun.
    destruct (for_each f l) as [ys|e]; [|done]. injection Hrun as <-.
    simpl. f_equal. by apply IH.
Qed.

Section SamplersSound.
Context {RandomState : Type} {generator : Generator RandomState}.

(** The vectorised draw returns one candidate per sample asked for. *)
Lemma component_draws_length (weights mus sigmas : list R) (check : bool)
  (rng : RandomState) (n_samples : nat) (samples : list R) (rng' : RandomState) :
  component_draws weights mus sigmas check rng n_samples = Ok (samples, rng') ->
  length samples = n_samples.
Proof.
  unfold component_draws, rbind, fancy_index. intros Hrun.
  destruct (argmax_multinomial rng weights n_samples) as [[active rng1]|e] eqn:Hactive;
    [|done].
  apply argmax_multinomial_length in Hactive.
  destruct (py_assert _); [|done].
  destruct (for_each (py_index mus) active) as [loc|e] eqn:Hloc; [|done].
  destruct (for_each (py_index sigmas) active) as [scale|e] eqn:Hscale; [|done].
  apply for_each_length in Hloc, Hscale.
  apply rng_normal_array_length in Hrun; [lia | lia].
Qed.

(** X5: whatever the truncated samplers return holds exactly n_samples
    samples, each inside the window: [low, high) for [GMM1],
    [exp low, exp high) for [LGMM1], whose samples are therefore strictly
    positive. With low >= high both raise ValueError('low >= high') and
    draw nothing. *)
Theorem truncated_samplers_sound
  (weights mus sigmas : list R) (low high : R) (q : option R)
  (fuel : nat) (rng : RandomState) (n_samples : nat) :
  (forall samples rng',
     GMM1 weights mus sigmas fuel (Some low) (Some high) q rng n_samples
     = Some (Ok (samples, rng')) ->
     length samples = n_samples /\ Forall (fun x => low <= x < high) samples)
  /\ (forall samples rng',
        LGMM1 weights mus sigmas fuel (Some low) (Some high) q rng n_samples
        = Some (Ok (samples, rng')) ->
        length samples = n_samples
        /\ Forall (fun x => exp low <= x < exp high) samples
        /\ Forall (fun x => 0 < x) samples)
  /\ (high <= low ->
      LGMM1 weights mus sigmas fuel (Some low) (Some high) q rng n_samples
      = Some (Raise (ValueError "low >= high"))
      /\ (length weights = length mus -> length mus = length sigmas ->
          GMM1 weights mus sigmas fuel (Some low) (Some high) q rng n_samples
          = Some (Raise (ValueError "low >= high")))).
Proof.
  split; [|split].
  - intros samples rng' Hrun. unfold GMM1 in Hrun.
    destruct (negb _); [done|]. destruct (Rleb high low); [done|].
    eapply (rejection_loop_sound _ _ (fun x => low <= x < high)) in Hrun;
      [done | | simpl; lia | done].
    intros g0 draw g1 _ Hacc. by apply in_window_spec.
  - intros samples rng' Hrun. unfold LGMM1 in Hrun.
    destruct (Rleb high low); [done|].
    eapply (rejection_loop_sound _ _ (fun x => exp low <= x < exp high)) in Hrun;
      [| | simpl; lia | done].
    + destruct Hrun as [Hlen Hwin]. split; [done|]. split; [done|].
      eapply Forall_impl; [exact Hwin|]. intros x Hx. simpl in Hx.
      pose proof (exp_pos low). lra.
    + intros g0 draw g1 _ Hacc. by apply in_window_spec.
  - intros Hhl.
    assert (Hle : Rleb high low = true)
      by (unfold Rleb; destruct (Rle_dec high low); [done | lra]).
    split.
    + unfold LGMM1. by rewrite Hle.
    + intros Hwm Hms. unfold GMM1. by rewrite Hwm, Hms, !Nat.eqb_refl, Hle.
Qed.

Lemma np_ceil_on_grid (x q : R) : exists k : Z, np_ceil (x / q) * q = IZR k * q.
Proof. by exists (Zceil (x / q)). Qed.

Lemma maximum_on_grid (k : Z) (q : R) : 0 < q -> on_grid q (maximum (IZR k * q) q).
Proof.
  intros Hq. rewrite maximum_R. unfold on_grid.
  destruct (Z_lt_le_dec k 1) as [Hk|Hk].
  - exists 1%Z. split; [lia|]. rewrite Rmax_right; [lra|].
    assert (IZR k <= 0) by (apply IZR_le; lia). nra.
  - exists k. split; [done|]. rewrite Rmax_left; [done|].
    assert (1 <= IZR k) by (by apply IZR_le). nra.
Qed.

(** X6: with a step q > 0, the quantised samples lie on the grid of q.
    Whatever the untruncated samplers return holds exactly n_samples
    positive multiples of q; whatever the truncated [LGMM1] returns holds
    positive multiples of q; the truncated [GMM1] returns multiples of q
    that need not be positive. *)
Theorem quantised_samples_on_grid
  (weights mus sigmas : list R) (q : R) (fuel : nat) (rng : RandomState) (n_samples : nat) :
  0 < q ->
  (forall samples rng',
     GMM1 weights mus sigmas fuel None None (Some q) rng n_samples
     = Some (Ok (samples, rng')) ->
     length samples = n_samples /\ Forall (on_grid q) samples)
  /\ (forall samples rng',
        LGMM1 weights mus sigmas fuel None None (Some q) rng n_samples
        = Some (Ok (samples, rng')) ->
        length samples = n_samples /\ Forall (on_grid q) samples)
  /\ (forall low high samples rng',
        LGMM1 weights mus sigmas fuel (Some low) (Some high) (Some q) rng n_samples
        = Some (Ok (samples, rng')) ->
        Forall (on_grid q) samples)
  /\ (forall low high samples rng',
        GMM1 weights mus sigmas fuel (Some low) (Some high) (Some q) rng n_samples
        = Some (Ok (samples, rng')) ->
        Forall (fun s => exists k : Z, s = IZR k * q) samples).
Proof.
  intros Hq.
  assert (Hgrid : forall l : list R,
             Forall (on_grid q) (map (fun s => maximum (np_ceil (s / q) * q) q) l)).
  { intros l. apply Forall_forall. intros s Hs.
    apply list_elem_of_fmap in Hs as (x & -> & _). by apply maximum_on_grid. }
  split; [|split; [|split]].
  - intros samples rng' Hrun. unfold GMM1 in Hrun.
    destruct (negb _); [done|]. injection Hrun as Hrun.
    destruct (component_draws weights mus sigmas false rng n_samples)
      as [[drawn rng1]|e] eqn:Hdrawn; [|done].
    injection Hrun as <- <-. apply component_draws_length in Hdrawn.
    split; [by rewrite length_map | apply Hgrid].
  - intros samples rng' Hrun. unfold LGMM1 in Hrun. injection Hrun as Hrun.
    destruct (component_draws weights mus sigmas true rng n_samples)
      as [[drawn rng1]|e] eqn:Hdrawn; [|done].
    injection Hrun as <- <-. apply component_draws_length in Hdrawn.
    split; [by rewrite !length_map | apply Hgrid].
  - intros low high samples rng' Hrun. unfold LGMM1 in Hrun.
    destruct (Rleb high low); [done|].
    eapply (rejection_loop_sound _ _ (on_grid q)) in Hrun;
      [by destruct Hrun | | simpl; lia | done].
    intros g0 draw g1 Hatt _. unfold LGMM1_attempt, rbind in Hatt.
    destruct (component_draw weights mus sigmas g0) as [[d g2]|e]; [|done].
    injection Hatt as <- <-. by apply maximum_on_grid.
  - intros low high samples rng' Hrun. unfold GMM1 in Hrun.
    destruct (negb _); [done|]. destruct (Rleb high low); [done|].
    eapply (rejection_loop_sound _ _ (fun s => exists k : Z, s = IZR k * q)) in Hrun;
      [by destruct Hrun | | simpl; lia | done].
    intros g0 draw g1 Hatt _. unfold GMM1_attempt, rbind in Hatt.
    destruct (component_draw weights mus sigmas g0) as [[d g2]|e]; [|done].
    injection Hatt as <- <-. apply np_ceil_on_grid.
Qed.
End SamplersSound.

Lemma quantised_samples_on_grid_witness :
  exists samples rng',
    LGMM1 [1] [0] [1] 0 None None (Some (1 / 2)) zero_rng 3 = Some (Ok (samples, rng'))
    /\ length samples = 3%nat /\ Forall (on_grid (1 / 2)) samples.
Proof.
  eexists _, _. split; [reflexivity|].
  destruct (quantised_samples_on_grid [1] [0] [1] (1 / 2) 0 zero_rng 3 ltac:(lra))
    as (_ & Hl & _).
  exact (Hl _ _ eq_refl).
Defined.

(** ** The densities: log-sum-exp and the normalisation *)

Lemma fold_left_Rplus_acc (l : list R) (a : R) :
  fold_left Rplus l a = a + fold_left Rplus l 0.
Proof.
  revert a. induction l as [|x l IH]; intros a; simpl; [lra|].
  rewrite (IH (a + x)), (IH (0 + x)). lra.
Qed.

Lemma np_sum_cons (x : R) (l : list R) : np_sum (x :: l) = x + np_sum l.
Proof. unfold np_sum. simpl. rewrite fold_left_Rplus_acc. lra. Qed.

Lemma np_sum_scale (f : R -> R) (c : R) (l : list R) :
  np_sum (map (fun v => f v * c) l) = np_sum (map f l) * c.
Proof.
  induction l as [|x l IH]; simpl map.
  - unfold np_sum. simpl. lra.
  - rewrite !np_sum_cons, IH. lra.
Qed.

Lemma np_sum_exp_pos (l : list R) : l <> [] -> 0 < np_sum (map exp l).
Proof.
  intros Hne. destruct l as [|x l]; [done|]. clear Hne. revert x.
  induction l as [|y l IH]; intros x; simpl map.
  - unfold np_sum. simpl. pose proof (exp_pos x). lra.
  - rewrite np_sum_cons. pose proof (exp_pos x). specialize (IH y). simpl map in IH. lra.
Qed.

(** One row of [logsum_rows]: subtracting the maximum changes nothing. *)
Lemma logsum_row (row : list R) (m : R) :
  row <> [] ->
  ln (np_sum (map (fun v => exp (v - m)) row)) + m = ln (np_sum (map exp row)).
Proof.
  intros Hne.
  assert (Hmap : map (fun v => exp (v - m)) row = map (fun v => exp v * exp (- m)) row).
  { apply map_ext. intros v. rewrite <- exp_plus. f_equal. }
  rewrite Hmap, np_sum_scale, ln_mult, ln_exp; [lra | by apply np_sum_exp_pos | apply exp_pos].
Qed.

(** X7: on a matrix with at least one column [logsum_rows] never raises
    and returns, for every row, the logarithm of the sum of the
    exponentials of its entries; on a matrix without columns it raises
    ValueError. *)
Theorem logsum_rows_log_sum_exp (C : nat) (x : list (list R)) :
  (C <> 0%nat -> Forall (fun row => length row = C) x ->
   logsum_rows C x = Ok (map (fun row => ln (np_sum (map exp row))) x))
  /\ (C = 0%nat ->
      logsum_rows C x = Raise (ValueError "zero-size array to reduction operation maximum")).
Proof.
  split.
  - intros HC Hrows. unfold logsum_rows.
    destruct (Nat.eqb_spec C 0); [done|].
    induction Hrows as [|row rows Hrow _ IH]; simpl; [done|].
    destruct row as [|v row]; [simpl in Hrow; lia|].
    simpl row_max. simpl rbind at 1. rewrite IH. simpl. do 2 f_equal.
    exact (logsum_row (v :: row) (fold_left maximum row v) ltac:(done)).
  - intros ->. reflexivity.
Qed.

Lemma logsum_rows_log_sum_exp_witness :
  logsum_rows 2 [[1; 2]; [0; 0]]
  = Ok (map (fun row => ln (np_sum (map exp row))) [[1; 2]; [0; 0]]).
Proof.
  destruct (logsum_rows_log_sum_exp 2 [[1; 2]; [0; 0]]) as [Hok _].
  apply Hok; [done|]. by repeat constructor.
Defined.

Lemma Rmax_shift (a b c : R) : Rmax (a - c) (b - c) = Rmax a b - c.
Proof. unfold Rmax. destruct (Rle_dec (a - c) (b - c)), (Rle_dec a b); lra. Qed.

Lemma row_max_shift (c : R) (rest : list R) (x : R) :
  fold_left maximum (map (fun v => v - c) rest) (x - c) = fold_left maximum rest x - c.
Proof.
  revert x. induction rest as [|y rest IH]; intros x; simpl; [done|].
  by rewrite !maximum_R, Rmax_shift, IH.
Qed.

(** Lowering every entry of a matrix by [c] lowers its log-sum-exp by [c]. *)
Lemma logsum_rows_shift (C : nat) (c : R) (rows : list (list R)) :
  logsum_rows C (map (map (fun v => v - c)) rows)
  = (lpdf <- logsum_rows C rows ;;; Ok (map (fun l => l - c) lpdf)).
Proof.
  unfold logsum_rows. destruct (C =? 0)%nat; [done|].
  induction rows as [|row rows IH]; simpl; [done|].
  destruct row as [|x row]; [done|].
  simpl. rewrite IH. destruct (for_each _ rows) as [lp|e]; [|done]. simpl.
  do 2 f_equal. rewrite row_max_shift, map_map.
  set (m := fold_left maximum row x).
  replace (exp (x - c - (m - c))) with (exp (x - m)) by (f_equal; lra).
  assert (Hmap : map (fun v => exp (v - c - (m - c))) row = map (fun v => exp (v - m)) row).
  { apply map_ext. intros v. f_equal. lra. }
  rewrite Hmap. lra.
Qed.

Lemma combine3_positive (weights mus sigmas : list R) :
  Forall (fun w => 0 < w) weights -> Forall (fun s => 0 < s) sigmas ->
  Forall (fun c => 0 < fst (fst c) /\ 0 < snd c) (combine (combine weights mus) sigmas).
Proof.
  intros Hw Hs. apply List.Forall_forall. intros [[w mu] sigma] Hin. simpl.
  rewrite List.Forall_forall in Hw, Hs. split.
  - apply Hw. apply in_combine_l in Hin. by apply in_combine_l in Hin.
  - apply Hs. by apply in_combine_r in Hin.
Qed.

Section MixtureDensityFacts.
Variable erf : R -> R.

Lemma GMM1_row_normalised (p : R) (components : list (R * R * R)) (x : R) :
  0 < p ->
  Forall (fun c => 0 < fst (fst c) /\ 0 < snd c) components ->
  GMM1_row p components x = map (fun v => v - ln p) (GMM1_row 1 components x).
Proof.
  intros Hp Hpos. unfold GMM1_row. rewrite map_map.
  apply map_ext_in. intros [[w mu] sigma] Hin.
  rewrite List.Forall_forall in Hpos. destruct (Hpos _ Hin) as [Hw Hs]. simpl in Hw, Hs.
  assert (HZ : 0 < sqrt (2 * PI * sigma ^ 2)).
  { apply sqrt_lt_R0. apply Rmult_lt_0_compat; [pose proof PI_RGT_0; lra|].
    apply pow_lt. exact Hs. }
  assert (HwZ : 0 < w / sqrt (2 * PI * sigma ^ 2)) by (by apply Rdiv_lt_0_compat).
  assert (Hp' : 0 < / p) by (by apply Rinv_0_lt_compat).
  replace (w / sqrt (2 * PI * sigma ^ 2) / 1) with (w / sqrt (2 * PI * sigma ^ 2))
    by (unfold Rdiv; rewrite Rinv_1; lra).
  replace (w / sqrt (2 * PI * sigma ^ 2) / p) with (w / sqrt (2 * PI * sigma ^ 2) * / p)
    by reflexivity.
  rewrite ln_mult, ln_Rinv by done. lra.
Qed.

(** X8: [GMM1_lpdf] normalises by the mass of the truncation window in
    both of its branches: for positive weights and bandwidths and a
    window of positive mass p_accept, the truncated log-density is the
    untruncated one minus log(p_accept), with or without quantisation, and
    raises whenever the untruncated one does. *)
Theorem GMM1_lpdf_truncated_normalised
  (samples weights mus sigmas : list R) (low high : R) (q : option R) (p : R) :
  Forall (fun w => 0 < w) weights -> Forall (fun s => 0 < s) sigmas ->
  p_accept_of erf weights mus sigmas (Some low) (Some high) = Ok p -> 0 < p ->
  GMM1_lpdf erf samples weights mus sigmas (Some low) (Some high) q
  = (lpdf <- GMM1_lpdf erf samples weights mus sigmas None None q ;;;
     Ok (map (fun l => l - ln p) lpdf)).
Proof.
  intros Hw Hs Hacc Hp. unfold GMM1_lpdf. rewrite Hacc.
  destruct (_ && _); [|done]. simpl.
  destruct q as [q|].
  - simpl. f_equal. rewrite map_map. apply map_ext. intros pr. rewrite ln_1. lra.
  - rewrite <- logsum_rows_shift. f_equal. rewrite map_map.
    apply map_ext. intros x. apply GMM1_row_normalised; [done|].
    by apply combine3_positive.
Qed.
End MixtureDensityFacts.

(** With the identity in the place of [erf], the window [0, 1) has a
    positive mass under the standard normal. *)
Lemma p_accept_identity_erf :
  exists p, p_accept_of (fun z => z) [1] [0] [1] (Some 0) (Some 1) = Ok p /\ 0 < p.
Proof.
  eexists. split; [reflexivity|]. unfold at_, normal_cdf. simpl.
  set (M := maximum (sqrt 2 * 1) EPS).
  assert (HM : 0 < M).
  { unfold M. rewrite maximum_R. eapply Rlt_le_trans; [|apply Rmax_r].
    unfold EPS. apply Rinv_0_lt_compat. apply pow_lt. lra. }
  assert (Hinv : 0 < / M) by (by apply Rinv_0_lt_compat).
  unfold np_sum. simpl. unfold Rdiv. nra.
Qed.

Lemma GMM1_lpdf_truncated_normalised_witness :
  exists p,
    GMM1_lpdf (fun z => z) [1 / 2] [1] [0] [1] (Some 0) (Some 1) None
    = (lpdf <- GMM1_lpdf (fun z => z) [1 / 2] [1] [0] [1] None None None ;;;
       Ok (map (fun l => l - ln p) lpdf)).
Proof.
  destruct p_accept_identity_erf as (p & Hacc & Hp).
  exists p.
  apply (GMM1_lpdf_truncated_normalised (fun z => z) [1 / 2] [1] [0] [1] 0 1 None p);
    [repeat constructor; lra | repeat constructor; lra | exact Hacc | exact Hp].
Defined.

(** ** The quantised log-normal mixture density on the samples of the
    quantised sampler *)

Lemma map2_same_length (f : R -> R -> R) (xs ys : list R) :
  length xs = length ys -> length (map2 f xs ys) = length xs.
Proof.
  revert ys. induction xs as [|x xs IH]; intros [|y ys] Hlen; simpl in *; try done.
  f_equal. apply IH. lia.
Qed.

Section LognormalMass.
Variable erf : R -> R.

Lemma lognormal_cdf_nonneg (x : list R) (mu sigma : R) :
  Forall (fun s => 0 <= s) x ->
  exists c, lognormal_cdf erf x mu sigma = Ok c /\ length c = length x.
Proof.
  intros Hx. unfold lognormal_cdf.
  destruct (Nat.eqb_spec (length x) 0) as [H0|H0]; [by exists []|].
  assert (Hneg : existsb (fun xi => Rltb xi 0) x = false).
  { apply not_true_is_false. intros Hex. apply existsb_exists in Hex as (s & Hin & Hs).
    apply Rltb_lt in Hs. rewrite List.Forall_forall in Hx. specialize (Hx s Hin). lra. }
  rewrite Hneg. eexists. split; [reflexivity|]. by rewrite length_map.
Qed.

Lemma lognormal_cdf_negative (x : list R) (mu sigma : R) :
  Exists (fun s => s < 0) x ->
  lognormal_cdf erf x mu sigma = Raise (ValueError "negative arg to lognormal_cdf").
Proof.
  intros Hx. unfold lognormal_cdf. apply List.Exists_exists in Hx as (s & Hin & Hs).
  destruct x as [|x0 x]; [done|]. simpl length. simpl Nat.eqb.
  assert (Hneg : existsb (fun xi => Rltb xi 0) (x0 :: x) = true).
  { apply existsb_exists. exists s. split; [done|]. by apply Rltb_lt. }
  by rewrite Hneg.
Qed.

Lemma lognormal_cdf_cases (x : list R) (mu sigma : R) :
  (exists c, lognormal_cdf erf x mu sigma = Ok c)
  \/ lognormal_cdf erf x mu sigma = Raise (ValueError "negative arg to lognormal_cdf").
Proof.
  unfold lognormal_cdf. destruct (_ =? _)%nat; [by left; eexists|].
  destruct (existsb _ _); [by right | by left; eexists].
Qed.

Lemma interval_mass_on_grid (samples : list R) (q : R) (components : list (R * R * R)) :
  0 < q -> Forall (on_grid q) samples ->
  forall prob, length prob = length samples ->
  exists mass, interval_mass erf samples q components prob = Ok mass
               /\ length mass = length samples.
Proof.
  intros Hq Hgrid.
  assert (Hup : Forall (fun s => 0 <= s) samples).
  { eapply Forall_impl; [exact Hgrid|]. intros s (k & Hk & ->). simpl.
    assert (1 <= IZR k) by (by apply IZR_le). nra. }
  assert (Hlow : Forall (fun s => 0 <= s) (map (fun s => s - q) samples)).
  { apply Forall_fmap. eapply Forall_impl; [exact Hgrid|]. intros s (k & Hk & ->). simpl.
    assert (1 <= IZR k) by (by apply IZR_le). nra. }
  induction components as [|[[w mu] sigma] rest IH]; intros prob Hlen; simpl.
  - by exists prob.
  - destruct (lognormal_cdf_nonneg samples mu sigma Hup) as (upper & -> & Hu). simpl.
    destruct (lognormal_cdf_nonneg _ mu sigma Hlow) as (lower & -> & Hl). simpl.
    rewrite length_map in Hl. apply IH.
    rewrite !map2_same_length; rewrite ?length_map; try lia.
    rewrite map2_same_length; rewrite ?length_map; lia.
Qed.

Lemma interval_mass_below_step (samples : list R) (q : R) (components : list (R * R * R))
  (prob : list R) :
  Exists (fun s => s < q) samples -> components <> [] ->
  interval_mass erf samples q components prob
  = Raise (ValueError "negative arg to lognormal_cdf").
Proof.
  intros Hex Hne. destruct components as [|[[w mu] sigma] rest]; [done|]. simpl.
  destruct (lognormal_cdf_cases samples mu sigma) as [[upper ->]| ->]; [|done]. simpl.
  rewrite lognormal_cdf_negative; [done|].
  apply List.Exists_exists in Hex as (s & Hin & Hs). apply List.Exists_exists.
  exists (s - q). split; [|lra]. apply in_map_iff. by exists s.
Qed.

(** X9: the quantised [LGMM1_lpdf] accepts what the quantised [LGMM1]
    draws and nothing below the step.  With a step q > 0 and a window
    whose mass p_accept is computed, it returns one value per sample when
    every sample is a positive multiple of q; when there is a component
    and a sample below q, it raises ValueError, as the lower end
    sample - q of that sample's cell is negative. *)
Theorem LGMM1_lpdf_quantised_defined
  (samples weights mus sigmas : list R) (low high : option R) (q p : R) :
  0 < q -> p_accept_of erf weights mus sigmas low high = Ok p ->
  (Forall (on_grid q) samples ->
   exists lpdf,
     LGMM1_lpdf erf samples weights mus sigmas low high (Some q) = Ok lpdf
     /\ length lpdf = length samples)
  /\ (Exists (fun s => s < q) samples ->
      weights <> [] -> mus <> [] -> sigmas <> [] ->
      LGMM1_lpdf erf samples weights mus sigmas low high (Some q)
      = Raise (ValueError "negative arg to lognormal_cdf")).
Proof.
  intros Hq Hacc. unfold LGMM1_lpdf. rewrite Hacc. simpl. split.
  - intros Hgrid.
    destruct (interval_mass_on_grid samples q (combine (combine weights mus) sigmas)
                Hq Hgrid (repeat 0 (length samples))) as (mass & -> & Hlen);
      [by rewrite repeat_length|].
    simpl. eexists. split; [reflexivity|]. by rewrite length_map.
  - intros Hex Hw Hm Hs. rewrite interval_mass_below_step; [done | done |].
    destruct weights, mus, sigmas; done.
Qed.
End LognormalMass.

Lemma LGMM1_lpdf_quantised_defined_witness :
  exists lpdf,
    LGMM1_lpdf (fun z => z) [1 / 2; 1] [1] [0] [1] None None (Some (1 / 2)) = Ok lpdf
    /\ length lpdf = 2%nat.
Proof.
  destruct (LGMM1_lpdf_quantised_defined (fun z => z) [1 / 2; 1] [1] [0] [1] None None
              (1 / 2) 1 ltac:(lra) eq_refl) as [Hok _].
  apply Hok. repeat constructor.
  - exists 1%Z. split; [lia | lra].
  - exists 2%Z. split; [lia | lra].
Defined.

(** ** What the refinement changes in the memo *)

Lemma collect_step_refinable self MEDIUM r nid vals r' :
  collect_step self MEDIUM r (nid, vals) = Ok r' ->
  r' = r
  \/ (exists x, vals = [x])
     /\ nids_to_optimize r' = nids_to_optimize r ++ [nid]
     /\ refinable (name_by_nid self nid) = true.
Proof.
  unfold collect_step, rbind, py_assert, refinable. intros Hstep.
  destruct (length vals =? 0)%nat eqn:E0; [left; congruence|].
  destruct (length vals =? 1)%nat eqn:E1; [|discriminate].
  apply Nat.eqb_eq in E1.
  destruct vals as [|x [|y vals]]; try discriminate.
  destruct (str_in (name_by_nid self nid) ["uniform"; "quniform"; "loguniform"; "qloguniform"])
    eqn:Eu.
  - right. split; [by eexists|]. split; [|done].
    case_step Hstep; by injection Hstep as <-.
  - destruct (str_in (name_by_nid self nid) ["normal"; "qnormal"; "lognormal"; "qlognormal"])
      eqn:En.
    + right. split; [by eexists|]. split; [|done].
      case_step Hstep; by injection Hstep as <-.
    + left. case_step Hstep. by injection Hstep as <-.
Qed.

Lemma collect_nids self MEDIUM i_vals :
  forall r r', collect self MEDIUM r i_vals = Ok r' ->
    forall nid, In nid (nids_to_optimize r') ->
      In nid (nids_to_optimize r)
      \/ exists x, In (nid, [x]) i_vals /\ refinable (name_by_nid self nid) = true.
Proof.
  induction i_vals as [|[nid0 vals] rest IH]; intros r r' Hc nid Hin.
  - injection Hc as <-. by left.
  - rewrite collect_cons in Hc.
    destruct (collect_step self MEDIUM r (nid0, vals)) as [r1|] eqn:Hstep; [|done].
    simpl in Hc. destruct (IH _ _ Hc nid Hin) as [Hin1|(x & Hx & Hd)].
    + apply collect_step_refinable in Hstep as [->|([x ->] & Hn & Hd)]; [by left|].
      rewrite Hn in Hin1. apply in_app_or in Hin1 as [Hin1|[<-|[]]]; [by left|].
      right. exists x. split; [by left | done].
    + right. exists x. split; [by right | done].
Qed.

Lemma bind_vals_frame self i_vals (nids : list string) :
  forall memo pt ii memo' jj,
    bind_vals self i_vals memo nids pt ii = Ok (memo', jj) ->
    dom memo' = dom memo
    /\ forall v, memo' !! v = memo !! v
                 \/ exists nid, In nid nids /\ v = post_below_vals self nid.
Proof.
  induction nids as [|nid rest IH]; intros memo pt ii memo' jj Hb; simpl in Hb.
  - injection Hb as <- <-. split; [done | by left].
  - unfold py_assert in Hb.
    destruct (bool_decide (is_Some (memo !! post_below_vals self nid))) eqn:Hsome; [|done].
    apply bool_decide_eq_true in Hsome. simpl in Hb.
    destruct (IH _ _ _ _ _ Hb) as [Hdom Hframe]. split.
    + rewrite Hdom, dom_insert_L. apply elem_of_dom in Hsome.
      apply subseteq_union_1_L. by apply singleton_subseteq_l.
    + intros v. destruct (Hframe v) as [Heq|(n & Hn & ->)].
      * destruct (decide (v = post_below_vals self nid)) as [->|Hne].
        -- right. exists nid. split; [by left | done].
        -- left. rewrite Heq. by apply lookup_insert_ne.
      * right. exists n. split; [by right | done].
Qed.

(** X10: [refine_no_grad] changes nothing but value nodes of the
    parameters it optimises.  The memo it returns has the keys of the
    memo the draw of the candidate left; an entry that differs from that
    memo's is the value node of a label whose draw holds one value and
    whose family is one of the eight continuous ones ([randint] and the
    labels without a value are never refined). *)
Theorem refine_no_grad_frame self rec_eval_draw rec_eval_llik fmin_powell
  (memo : gmap nat (list R)) (BIG MEDIUM : R) (memo' : gmap nat (list R)) :
  refine_no_grad self rec_eval_draw rec_eval_llik fmin_powell memo BIG MEDIUM = Ok memo' ->
  dom memo' = dom (snd (rec_eval_draw memo))
  /\ forall v,
       memo' !! v = snd (rec_eval_draw memo) !! v
       \/ exists nid x,
            In (nid, [x]) (fst (rec_eval_draw memo))
            /\ v = post_below_vals self nid
            /\ refinable (name_by_nid self nid) = true.
Proof.
  intros Hrun. unfold refine_no_grad in Hrun.
  destruct (1 <? n_EI_candidates self)%nat; [done|].
  destruct (rec_eval_draw memo) as [i_vals memo1]. simpl.
  destruct (collect self MEDIUM no_refinement i_vals) as [r|] eqn:Hc; [|done].
  simpl in Hrun. unfold py_assert in Hrun.
  destruct (_ =? _)%nat; [|done]. simpl in Hrun.
  destruct (_ =? _)%nat; [|done]. simpl in Hrun.
  destruct (any_below (all_vals r) (lbounds r)); [done|].
  destruct (_ =? _)%nat; [|done]. simpl in Hrun.
  destruct (any_above (all_vals r) (ubounds r)); [done|].
  destruct (fmin_powell _ _) as [found|]; [|done]. simpl in Hrun.
  destruct (_ && _); [|done]. simpl in Hrun.
  destruct (any_below found (lbounds r)); [injection Hrun as <-; split; [done | by left]|].
  destruct (any_above found (ubounds r)); [injection Hrun as <-; split; [done | by left]|].
  destruct (bind_vals _ _ _ _ _ _) as [[m jj]|] eqn:Hb; [|done]. simpl in Hrun.
  destruct (_ =? _)%nat; [|done]. simpl in Hrun. injection Hrun as <-.
  destruct (bind_vals_frame _ _ _ _ _ _ _ _ Hb) as [Hdom Hframe]. split; [done|].
  intros v. destruct (Hframe v) as [Heq|(nid & Hin & ->)]; [by left|]. right.
  destruct (collect_nids _ _ _ _ _ Hc nid Hin) as [[]|(x & Hx & Hd)].
  by exists nid, x.
Qed.

(** A run that refines the draw 1/2 of a uniform parameter to 3/4. *)
Lemma example_refinement :
  refine_no_grad (example_tpe "uniform") (example_draw (1 / 2)) example_llik
    (powell_to [3 / 4]) ∅ BIG_default MEDIUM_default
  = Ok (<[7%nat := [3 / 4]]> (<[7%nat := [1 / 2]]> ∅)).
Proof.
  rewrite (refine_no_grad_lower_check (example_tpe "uniform") (example_draw (1 / 2))
             example_llik (powell_to [3 / 4]) ∅ BIG_default MEDIUM_default
             [("x", [1 / 2])] (<[7%nat := [1 / 2]]> ∅)
             (extend no_refinement "x" [1 / 2] 0 1 None));
    [|simpl; lia | reflexivity | reflexivity].
  unfold any_below, any_above, Rltb. simpl.
  repeat (destruct (Rlt_dec _ _); [lra|]; simpl).
  rewrite bool_decide_eq_true_2 by (rewrite lookup_insert; eauto).
  reflexivity.
Qed.

Lemma refine_no_grad_frame_witness :
  dom (<[7%nat := [3 / 4]]> (<[7%nat := [1 / 2]]> (∅ : gmap nat (list R))))
  = dom (snd (example_draw (1 / 2) ∅))
  /\ forall v,
       <[7%nat := [3 / 4]]> (<[7%nat := [1 / 2]]> (∅ : gmap nat (list R))) !! v
       = snd (example_draw (1 / 2) ∅) !! v
       \/ exists nid x,
            In (nid, [x]) (fst (example_draw (1 / 2) ∅))
            /\ v = post_below_vals (example_tpe "uniform") nid
            /\ refinable (name_by_nid (example_tpe "uniform") nid) = true.
Proof.
  exact (refine_no_grad_frame (example_tpe "uniform") (example_draw (1 / 2)) example_llik
           (powell_to [3 / 4]) ∅ BIG_default MEDIUM_default _ example_refinement).
Defined.

(** ** Summing the log-likelihoods by trial *)

Lemma fold_insert_absent (l : list (Z * nat)) :
  forall (d : gmap Z nat) (t : Z),
    ~ In t (map fst l) ->
    fold_left (fun d kv => <[fst kv := snd kv]> d) l d !! t = d !! t.
Proof.
  induction l as [|[k v] l IH]; intros d t Hnot; simpl; [done|].
  rewrite IH by (intros Hin; apply Hnot; by right).
  apply lookup_insert_ne. intros ->. apply Hnot. by left.
Qed.

Lemma fold_insert_present (l : list (Z * nat)) :
  forall (d : gmap Z nat) (t : Z) (p : nat),
    List.NoDup (map fst l) -> In (t, p) l ->
    fold_left (fun d kv => <[fst kv := snd kv]> d) l d !! t = Some p.
Proof.
  induction l as [|[k v] l IH]; intros d t p Hnd Hin; [done|].
  simpl in *. apply List.NoDup_cons_iff in Hnd as [Hk Hnd].
  destruct Hin as [Heq|Hin]; [|by apply IH].
  injection Heq as -> ->. rewrite fold_insert_absent by done.
  apply lookup_insert_eq.
Qed.

Lemma combine_seq_fst (l : list Z) (start : nat) :
  map fst (combine l (seq start (length l))) = l.
Proof.
  revert start. induction l as [|x l IH]; intros start; simpl; [done|]. by rewrite IH.
Qed.

Lemma combine_seq_lookup (l : list Z) :
  forall (start p : nat) (t : Z),
    l !! p = Some t -> In (t, (start + p)%nat) (combine l (seq start (length l))).
Proof.
  induction l as [|x l IH]; intros start p t Hp; [done|].
  destruct p as [|p]; simpl in *.
  - injection Hp as ->. left. f_equal. lia.
  - right. replace (start + S p)%nat with (S start + p)%nat by lia. by apply IH.
Qed.

(** The dictionary of the positions, for distinct trial ids. *)
Lemma pos_of_tid_present (full_idxs : list Z) (p : nat) (t : Z) :
  NoDup full_idxs -> full_idxs !! p = Some t -> pos_of_tid full_idxs !! t = Some p.
Proof.
  intros Hnd Hp. unfold pos_of_tid. apply fold_insert_present.
  - rewrite combine_seq_fst. by apply NoDup_ListNoDup.
  - by apply (combine_seq_lookup full_idxs 0 p t).
Qed.

Lemma pos_of_tid_absent (full_idxs : list Z) (t : Z) :
  ~ In t full_idxs -> pos_of_tid full_idxs !! t = None.
Proof.
  intros Hnot. unfold pos_of_tid.
  rewrite fold_insert_absent by (by rewrite combine_seq_fst). done.
Qed.

Lemma sum_at_absent (t : Z) (pairs : list (Z * R)) :
  ~ In t (map fst pairs) -> sum_at t pairs = 0.
Proof.
  induction pairs as [|[ii ll] rest IH]; intros Hnot; simpl; [done|].
  rewrite IH by (intros Hin; apply Hnot; by right).
  destruct (Z.eqb_spec ii t) as [->|_]; [|lra]. exfalso. apply Hnot. by left.
Qed.

Lemma in_combine_supply {A B} (l : list A) (l' : list B) (x : A) :
  length l = length l' -> In x l -> exists y, In (x, y) (combine l l').
Proof.
  revert l'. induction l as [|a l IH]; intros [|b l'] Hlen Hin; simpl in *; try done.
  destruct Hin as [->|Hin]; [exists b; by left|].
  destruct (IH l' ltac:(lia) Hin) as [y Hy]. exists y. by right.
Qed.

Section IdxsProd.
Variable full_idxs : list Z.
Hypothesis distinct : NoDup full_idxs.

Lemma add_lliks_sums (pairs : list (Z * R)) :
  forall rval,
    (forall ii ll, In (ii, ll) pairs -> In ii full_idxs) ->
    exists rval',
      add_lliks (pos_of_tid full_idxs) pairs rval = inr rval'
      /\ length rval' = length rval
      /\ forall i t x, full_idxs !! i = Some t -> rval !! i = Some x ->
                       rval' !! i = Some (x + sum_at t pairs).
Proof using distinct.
  induction pairs as [|[ii ll] rest IH]; intros rval Hin; simpl.
  - exists rval. split; [done|]. split; [done|]. intros i t x _ Hx. rewrite Hx. f_equal. lra.
  - assert (Hii : ii ∈ full_idxs) by (apply list_elem_of_In, (Hin ii ll); by left).
    apply list_elem_of_lookup in Hii as [p Hp].
    rewrite (pos_of_tid_present full_idxs p ii distinct Hp).
    destruct (IH (alter (fun x => x + ll) p rval)) as (rval' & Hrun & Hlen & Hsum).
    { intros jj l' Hj. apply (Hin jj l'). by right. }
    exists rval'. split; [done|]. split; [by rewrite Hlen, length_alter|].
    intros i t x Ht Hx. destruct (decide (p = i)) as [->|Hne].
    + assert (t = ii) by congruence. subst t.
      rewrite (Hsum i ii (x + ll)); [|done|by rewrite list_lookup_alter_eq, Hx].
      rewrite Z.eqb_refl. f_equal. lra.
    + rewrite (Hsum i t x); [|done|by rewrite list_lookup_alter_ne].
      destruct (Z.eqb_spec ii t) as [->|_]; [|f_equal; lra].
      destruct Hne. by apply (NoDup_lookup full_idxs p i t).
Qed.

Lemma add_lliks_missing (pairs : list (Z * R)) :
  forall rval,
    Exists (fun p => ~ In (fst p) full_idxs) pairs ->
    add_lliks (pos_of_tid full_idxs) pairs rval = inl KeyError.
Proof using distinct.
  induction pairs as [|[ii ll] rest IH]; intros rval Hex; [by inversion Hex|].
  simpl. destruct (pos_of_tid full_idxs !! ii) as [p|] eqn:Hpos; [|done].
  apply IH. inversion Hex as [? ? Hhead|]; subst; [|done].
  simpl in Hhead. by rewrite (pos_of_tid_absent full_idxs ii Hhead) in Hpos.
Qed.

Lemma add_lliks_exn (pairs : list (Z * R)) :
  forall pos rval e, add_lliks pos pairs rval = inl e -> e = KeyError.
Proof.
  induction pairs as [|[ii ll] rest IH]; intros pos rval e Hrun; simpl in Hrun; [done|].
  destruct (pos !! ii); [by eapply IH | congruence].
Qed.

Lemma label_ok_step llik_by_nid nid idxs rest rval :
  label_ok llik_by_nid (nid, idxs) ->
  exists llik,
    llik_by_nid !! nid = Some llik /\ length idxs = length llik
    /\ idxs_prod_loop (pos_of_tid full_idxs) llik_by_nid ((nid, idxs) :: rest) rval
       = match add_lliks (pos_of_tid full_idxs) (combine idxs llik) rval with
         | inr rval => idxs_prod_loop (pos_of_tid full_idxs) llik_by_nid rest rval
         | inl e => inl e
         end.
Proof.
  intros (llik & Hl & Hgt & Hnd & Hlen). simpl in *. exists llik.
  split; [done|]. split; [done|]. rewrite Hl.
  assert (Hall : forallb (fun ii => (1 <? ii)%Z) idxs = true).
  { apply forallb_forall. intros ii Hin. apply Z.ltb_lt.
    rewrite List.Forall_forall in Hgt. by apply Hgt. }
  rewrite Hall, (bool_decide_eq_true_2 _ Hnd), Hlen, Nat.eqb_refl. done.
Qed.

Lemma idxs_prod_loop_sums llik_by_nid (items : list (string * list Z)) :
  forall rval,
    Forall (label_ok llik_by_nid) items ->
    Forall (fun item => forall ii, In ii (snd item) -> In ii full_idxs) items ->
    exists rval',
      idxs_prod_loop (pos_of_tid full_idxs) llik_by_nid items rval = inr rval'
      /\ length rval' = length rval
      /\ forall i t x, full_idxs !! i = Some t -> rval !! i = Some x ->
                       rval' !! i = Some (x + total_at t llik_by_nid items).
Proof using distinct.
  induction items as [|[nid idxs] rest IH]; intros rval Hok Hin.
  - exists rval. split; [done|]. split; [done|]. intros i t x _ Hx. rewrite Hx. simpl.
    f_equal. lra.
  - apply Forall_cons in Hok as [Hok Hoks]. apply Forall_cons in Hin as [Hin Hins].
    destruct (label_ok_step llik_by_nid nid idxs rest rval Hok) as (llik & Hl & Hlen & ->).
    destruct (add_lliks_sums (combine idxs llik) rval) as (rval1 & -> & Hlen1 & Hsum1).
    { intros ii ll Hp. apply Hin. simpl. by apply in_combine_l in Hp. }
    destruct (IH rval1 Hoks Hins) as (rval' & Hrun & Hlen' & Hsum').
    exists rval'. split; [done|]. split; [congruence|].
    intros i t x Ht Hx. rewrite (Hsum' i t _ Ht (Hsum1 i t x Ht Hx)). simpl.
    rewrite Hl. simpl. f_equal. lra.
Qed.

Lemma idxs_prod_loop_missing llik_by_nid (items : list (string * list Z)) :
  forall rval,
    Forall (label_ok llik_by_nid) items ->
    Exists (fun item => exists ii, In ii (snd item) /\ ~ In ii full_idxs) items ->
    idxs_prod_loop (pos_of_tid full_idxs) llik_by_nid items rval = inl KeyError.
Proof using distinct.
  induction items as [|[nid idxs] rest IH]; intros rval Hok Hex; [by inversion Hex|].
  apply Forall_cons in Hok as [Hok Hoks].
  destruct (label_ok_step llik_by_nid nid idxs rest rval Hok) as (llik & Hl & Hlen & ->).
  destruct (add_lliks _ _ _) as [e|rval1] eqn:Hrun.
  - f_equal. by eapply add_lliks_exn.
  - inversion Hex as [? ? (ii & Hii & Hnot)|]; subst; [|by apply IH].
    simpl in Hii. rewrite add_lliks_missing in Hrun; [done|].
    destruct (in_combine_supply idxs llik ii Hlen Hii) as [ll Hll].
    apply List.Exists_exists. by exists (ii, ll).
Qed.
End IdxsProd.

Lemma lookup_repeat (x : R) (n i : nat) : (i < n)%nat -> repeat x n !! i = Some x.
Proof.
  revert i. induction n as [|n IH]; intros [|i] Hi; simpl; try lia; [done|].
  apply IH. lia.
Qed.

Lemma total_at_absent (t : Z) llik_by_nid (items : list (string * list Z)) :
  Forall (fun item => ~ In t (snd item)) items -> total_at t llik_by_nid items = 0.
Proof.
  induction 1 as [|[nid idxs] rest Hhead _ IH]; simpl; [done|].
  rewrite IH, sum_at_absent; [lra|].
  intros Hin. apply Hhead. simpl. apply in_map_iff in Hin as ([ii ll] & <- & Hp).
  by apply in_combine_l in Hp.
Qed.

(** X11: [idxs_prod] adds the log-likelihoods up by trial.  For distinct
    trial ids, dictionaries with the same labels, and per label distinct
    ids above 1 with one log-likelihood each, it returns one number per
    trial id, the sum over the labels of that trial's log-likelihoods, 0
    for a trial that no label lists, when every listed id is among the
    trial ids; it raises KeyError when some listed id is not. *)
Theorem idxs_prod_sums_by_trial (full_idxs : list Z)
  (idxs_by_nid : gmap string (list Z)) (llik_by_nid : gmap string (list R)) :
  NoDup full_idxs ->
  dom idxs_by_nid = dom llik_by_nid ->
  (forall nid idxs, idxs_by_nid !! nid = Some idxs -> label_ok llik_by_nid (nid, idxs)) ->
  ((forall nid idxs ii, idxs_by_nid !! nid = Some idxs -> In ii idxs -> In ii full_idxs) ->
   exists rval,
     idxs_prod full_idxs idxs_by_nid llik_by_nid = inr rval
     /\ length rval = length full_idxs
     /\ forall i t, full_idxs !! i = Some t ->
          rval !! i = Some (total_at t llik_by_nid (map_to_list idxs_by_nid))
          /\ ((forall nid idxs, idxs_by_nid !! nid = Some idxs -> ~ In t idxs) ->
              rval !! i = Some 0))
  /\ ((exists nid idxs ii,
         idxs_by_nid !! nid = Some idxs /\ In ii idxs /\ ~ In ii full_idxs) ->
      idxs_prod full_idxs idxs_by_nid llik_by_nid = inl KeyError).
Proof.
  intros Hnd Hdom Hok. unfold idxs_prod.
  rewrite (bool_decide_eq_true_2 _ Hnd), (bool_decide_eq_true_2 _ Hdom). simpl.
  assert (Hoks : Forall (label_ok llik_by_nid) (map_to_list idxs_by_nid)).
  { apply Forall_forall. intros [nid idxs] Hin. apply Hok. by apply elem_of_map_to_list. }
  split.
  - intros Hin.
    destruct (idxs_prod_loop_sums full_idxs Hnd llik_by_nid (map_to_list idxs_by_nid)
                (repeat 0 (length full_idxs)) Hoks) as (rval & Hrun & Hlen & Hsum).
    { apply Forall_forall. intros [nid idxs] Hitem ii Hii.
      apply elem_of_map_to_list in Hitem. by apply (Hin nid idxs). }
    exists rval. split; [done|]. split; [by rewrite Hlen, repeat_length|].
    intros i t Ht.
    assert (Hval : rval !! i = Some (total_at t llik_by_nid (map_to_list idxs_by_nid))).
    { rewrite (Hsum i t 0 Ht); [f_equal; lra|].
      apply lookup_repeat. by apply lookup_lt_Some in Ht. }
    split; [done|]. intros Habsent. rewrite Hval. f_equal.
    apply total_at_absent. apply Forall_forall. intros [nid idxs] Hitem.
    apply elem_of_map_to_list in Hitem. by apply (Habsent nid).
  - intros (nid & idxs & ii & Hl & Hii & Hnot).
    apply (idxs_prod_loop_missing full_idxs Hnd); [done|].
    apply List.Exists_exists. exists (nid, idxs). split.
    + apply list_elem_of_In. by apply elem_of_map_to_list.
    + by exists ii.
Qed.

Lemma idxs_prod_sums_by_trial_witness :
  exists rval,
    idxs_prod [2; 3; 4]%Z {["a" := [2; 4]%Z]} {["a" := [1; 2]]} = inr rval
    /\ length rval = 3%nat
    /\ forall i t, [2; 3; 4]%Z !! i = Some t ->
         rval !! i = Some (total_at t {["a" := [1; 2]]} (map_to_list {["a" := [2; 4]%Z]}))
         /\ ((forall nid idxs,
                ({["a" := [2; 4]%Z]} : gmap string (list Z)) !! nid = Some idxs -> ~ In t idxs) ->
             rval !! i = Some 0).
Proof.
  destruct (idxs_prod_sums_by_trial [2; 3; 4]%Z {["a" := [2; 4]%Z]} {["a" := [1; 2]]})
    as [Hsums _].
  - apply NoDup_ListNoDup. repeat constructor; simpl; intuition lia.
  - by rewrite !dom_singleton_L.
  - intros nid idxs Hl. apply lookup_singleton_Some in Hl as [<- <-].
    exists [1; 2]. simpl. split; [apply lookup_singleton_eq|].
    split; [repeat constructor; lia|].
    split; [apply NoDup_ListNoDup; repeat constructor; simpl; intuition lia | done].
  - apply Hsums. intros nid idxs ii Hl Hii.
    apply lookup_singleton_Some in Hl as [<- <-]. simpl in *. tauto.
Defined.

(** ** The fake trial ids of the candidates *)

Lemma fold_max_bounds (rest : list Z) :
  forall t, (t <= fold_left Z.max rest t)%Z
            /\ forall x, In x rest -> (x <= fold_left Z.max rest t)%Z.
Proof.
  induction rest as [|y rest IH]; intros t; simpl; [split; [lia | done]|].
  destruct (IH (Z.max t y)) as [Hacc Hrest]. split; [lia|].
  intros x [<-|Hin]; [lia | by apply Hrest].
Qed.

Lemma fake_ids_from (n : nat) (a : Z) :
  NoDup (map (fun k => (a + Z.of_nat k)%Z) (seq 0 n))
  /\ Forall (fun f => (a <= f)%Z) (map (fun k => (a + Z.of_nat k)%Z) (seq 0 n)).
Proof.
  split.
  - assert (Hinj : Inj (=) (=) (fun k => (a + Z.of_nat k)%Z)) by (intros k1 k2 Heq; lia).
    apply (NoDup_fmap_2 _), NoDup_seq.
  - apply Forall_fmap, Forall_forall. intros k _. simpl. lia.
Qed.

(** X12: the fake ids of the candidates are fresh and pass the
    assertion of [idxs_prod].  [suggest1] makes one fake id per candidate,
    all distinct, each at least 2 above the new id and above every trial id
    in use, so none of them is the new id or a trial id; they are all
    above 1, as [idxs_prod] asserts of the ids it is given, when the new id
    or one of the trial ids is not negative. *)
Theorem suggest1_fake_ids_fresh (n_EI_candidates : nat) (tids : list Z) (new_id : Z) :
  length (suggest1_fake_ids n_EI_candidates tids new_id) = n_EI_candidates
  /\ NoDup (suggest1_fake_ids n_EI_candidates tids new_id)
  /\ Forall (fun f => (new_id + 2 <= f)%Z /\ forall t, In t tids -> (t + 2 <= f)%Z)
       (suggest1_fake_ids n_EI_candidates tids new_id)
  /\ ((0 <= new_id)%Z \/ Exists (fun t => (0 <= t)%Z) tids ->
      forallb (fun ii => 1 <? ii)%Z (suggest1_fake_ids n_EI_candidates tids new_id) = true).
Proof.
  assert (Hbase : exists a,
             suggest1_fake_ids n_EI_candidates tids new_id
             = map (fun k => (a + Z.of_nat k)%Z) (seq 0 n_EI_candidates)
             /\ (new_id + 2 <= a)%Z /\ forall t, In t tids -> (t + 2 <= a)%Z).
  { unfold suggest1_fake_ids. destruct tids as [|t0 rest].
    - eexists. split; [reflexivity|]. split; [lia | done].
    - eexists. split; [reflexivity|].
      destruct (fold_max_bounds rest t0) as [Ht0 Hrest]. split; [lia|].
      intros t [<-|Hin]; [lia|]. specialize (Hrest t Hin). lia. }
  destruct Hbase as (a & -> & Hnew & Htids).
  destruct (fake_ids_from n_EI_candidates a) as [Hnd Hge].
  split; [by rewrite length_map, length_seq|]. split; [done|]. split.
  - eapply Forall_impl; [exact Hge|]. intros f Hf. simpl in *. split; [lia|].
    intros t Hin. specialize (Htids t Hin). lia.
  - intros Hpos. apply forallb_forall. intros f Hin. apply Z.ltb_lt.
    rewrite List.Forall_forall in Hge. specialize (Hge f Hin). simpl in Hge.
    destruct Hpos as [Hpos|Hex]; [lia|].
    apply List.Exists_exists in Hex as (t & Ht & Hpos). specialize (Htids t Ht). lia.
Qed.

(** ** The continuous density is the logarithm of the mixture density *)

Lemma EPS_pos : 0 < EPS.
Proof. unfold EPS. apply Rinv_0_lt_compat, pow_lt. lra. Qed.

Lemma logsum_rows_nonempty (C : nat) (x : list (list R)) :
  C <> 0%nat -> Forall (fun row => row <> []) x ->
  logsum_rows C x = Ok (map (fun row => ln (np_sum (map exp row))) x).
Proof.
  intros HC Hrows. unfold logsum_rows. destruct (Nat.eqb_spec C 0); [done|].
  induction Hrows as [|row rows Hrow _ IH]; simpl; [done|].
  destruct row as [|v row]; [done|].
  simpl row_max. simpl rbind at 1. rewrite IH. simpl. do 2 f_equal.
  exact (logsum_row (v :: row) (fold_left maximum row v) ltac:(done)).
Qed.

Lemma GMM1_row_exp (components : list (R * R * R)) (x : R) :
  Forall (fun c => 0 < fst (fst c) /\ EPS <= snd c) components ->
  map exp (GMM1_row 1 components x)
  = map (fun c => fst (fst c) * normal_pdf x (snd (fst c)) (snd c)) components.
Proof.
  intros Hpos. unfold GMM1_row. rewrite map_map.
  apply map_ext_in. intros [[w mu] sigma] Hin.
  rewrite List.Forall_forall in Hpos. destruct (Hpos _ Hin) as [Hw Hs]. simpl in Hw, Hs.
  pose proof EPS_pos as Heps. simpl fst. simpl snd. unfold normal_pdf.
  assert (HZ : 0 < sqrt (2 * PI * sigma ^ 2)).
  { apply sqrt_lt_R0. apply Rmult_lt_0_compat; [pose proof PI_RGT_0; lra|].
    apply pow_lt. lra. }
  assert (Hcoef : 0 < w / sqrt (2 * PI * sigma ^ 2) / 1).
  { unfold Rdiv. rewrite Rinv_1, Rmult_1_r. by apply Rdiv_lt_0_compat. }
  rewrite maximum_R, Rmax_left by lra.
  rewrite exp_plus, exp_ln by done.
  replace (- (1 / 2) * ((x - mu) / sigma) ^ 2) with (- ((x - mu) ^ 2 / (2 * sigma ^ 2)))
    by (field; lra).
  field. lra.
Qed.

(** X13: without bounds and without quantisation [GMM1_lpdf] is the
    logarithm of the density of the Gaussian mixture.  For as many
    weights as means and bandwidths, at least one, positive weights and
    bandwidths not below EPS = 1e-12, it returns for every sample x the
    logarithm of the sum over the components of w * N(x; mu, sigma). *)
Theorem GMM1_lpdf_mixture_density (erf : R -> R) (samples weights mus sigmas : list R) :
  weights <> [] -> length weights = length mus -> length mus = length sigmas ->
  Forall (fun w => 0 < w) weights -> Forall (fun s => EPS <= s) sigmas ->
  GMM1_lpdf erf samples weights mus sigmas None None None
  = Ok (map (fun x => ln (mixture_pdf weights mus sigmas x)) samples).
Proof.
  intros Hne Hwm Hms Hw Hs. unfold GMM1_lpdf. rewrite Hwm, Hms, !Nat.eqb_refl. simpl.
  rewrite <- Hms, <- Hwm.
  assert (Hcomps : Forall (fun c => 0 < fst (fst c) /\ EPS <= snd c)
                     (combine (combine weights mus) sigmas)).
  { apply List.Forall_forall. intros [[w mu] sigma] Hin. simpl.
    rewrite List.Forall_forall in Hw, Hs. split.
    - apply Hw. apply in_combine_l in Hin. by apply in_combine_l in Hin.
    - apply Hs. by apply in_combine_r in Hin. }
  rewrite logsum_rows_nonempty.
  - f_equal. rewrite map_map. apply map_ext. intros x. unfold mixture_pdf.
    by rewrite GMM1_row_exp.
  - by destruct weights.
  - apply Forall_fmap, Forall_forall. intros x _. simpl. unfold GMM1_row.
    destruct weights, mus, sigmas; done.
Qed.

Lemma GMM1_lpdf_mixture_density_witness :
  GMM1_lpdf (fun z => z) [0; 1] [1 / 3; 2 / 3] [0; 1] [1; 2] None None None
  = Ok (map (fun x => ln (mixture_pdf [1 / 3; 2 / 3] [0; 1] [1; 2] x)) [0; 1]).
Proof.
  pose proof EPS_pos as Heps.
  assert (Hle : EPS <= 1).
  { unfold EPS. rewrite <- Rinv_1. apply Rinv_le_contravar; [lra|].
    apply pow_R1_Rle. lra. }
  apply (GMM1_lpdf_mixture_density (fun z => z) [0; 1] [1 / 3; 2 / 3] [0; 1] [1; 2]);
    [done | done | done | repeat constructor; lra |].
  constructor; [lra|]. constructor; [lra|]. constructor.
Defined.

(** ** The continuous log-normal density *)

Lemma broadcast2_same (f : R -> R -> R) (xs ys : list R) :
  length xs = length ys -> broadcast2 f xs ys = Ok (map2 f xs ys).
Proof.
  intros Hlen. unfold broadcast2, broadcast_len. rewrite Hlen, Nat.eqb_refl. simpl.
  by rewrite !Nat.eqb_refl.
Qed.

Lemma for_each_ok {A B} (f : A -> result B) (g : A -> B) (l : list A) :
  (forall x, In x l -> f x = Ok (g x)) -> for_each f l = Ok (map g l).
Proof.
  induction l as [|x l IH]; intros Hf; simpl; [done|].
  rewrite (Hf x) by (by left). simpl. rewrite IH by (intros y Hy; apply Hf; by right). done.
Qed.

Lemma sigma_floor (sigmas : list R) :
  Forall (fun s => EPS <= s) sigmas ->
  map (fun s => maximum s EPS) sigmas = sigmas
  /\ forallb (fun s => negb (Rltb s 0)) sigmas = true.
Proof.
  intros Hs. pose proof EPS_pos as Heps. rewrite List.Forall_forall in Hs. split.
  - rewrite <- (map_id sigmas) at 2. apply map_ext_in. intros s Hin.
    rewrite maximum_R, Rmax_left; [done|]. by apply Hs.
  - apply forallb_forall. intros s Hin. specialize (Hs s Hin).
    unfold Rltb. destruct (Rlt_dec s 0); [lra | done].
Qed.

Lemma lognormal_entry_exp (x w mu sigma : R) :
  0 < x -> 0 < w -> EPS <= sigma ->
  exp (- (1 / 2 * ((ln x - mu) / sigma) ^ 2) - ln (sigma * x * sqrt (2 * PI)) + ln w)
  = w * lognormal_pdf x mu sigma.
Proof.
  intros Hx Hw Hs. pose proof EPS_pos as Heps. unfold lognormal_pdf.
  assert (Hsqrt : 0 < sqrt (2 * PI)).
  { apply sqrt_lt_R0. pose proof PI_RGT_0. lra. }
  assert (HZ : 0 < sigma * x * sqrt (2 * PI)).
  { apply Rmult_lt_0_compat; [apply Rmult_lt_0_compat; lra | done]. }
  replace (- (1 / 2 * ((ln x - mu) / sigma) ^ 2) - ln (sigma * x * sqrt (2 * PI)) + ln w)
    with (- ((ln x - mu) ^ 2 / (2 * sigma ^ 2))
          + (ln (/ (sigma * x * sqrt (2 * PI))) + ln w)).
  - rewrite !exp_plus, !exp_ln; [ring | done | by apply Rinv_0_lt_compat].
  - rewrite ln_Rinv by done. field. lra.
Qed.

Lemma lognormal_row_exp (x : R) :
  0 < x ->
  forall weights mus sigmas,
    length weights = length mus -> length mus = length sigmas ->
    Forall (fun w => 0 < w) weights -> Forall (fun s => EPS <= s) sigmas ->
    map exp
      (map2 Rplus
         (map2 (fun e z => - e - ln z)
            (map2 (fun m s => 1 / 2 * ((ln x - m) / s) ^ 2) mus sigmas)
            (map (fun s => s * x * sqrt (2 * PI)) sigmas))
         (map ln weights))
    = map (fun c => fst (fst c) * lognormal_pdf x (snd (fst c)) (snd c))
        (combine (combine weights mus) sigmas).
Proof.
  intros Hx.
  induction weights as [|w weights IH]; intros [|mu mus] [|sigma sigmas] Hwm Hms Hw Hs;
    try done.
  apply Forall_cons in Hw as [Hw Hws]. apply Forall_cons in Hs as [Hs Hss].
  cbn [map map2 combine fst snd length] in *.
  rewrite (IH mus sigmas) by (done || lia).
  by rewrite lognormal_entry_exp.
Qed.

(** X14: without quantisation [LGMM1_lpdf] is the logarithm of the
    density of the mixture of log-normals.  For as many weights as means
    and bandwidths, at least one, positive weights, bandwidths not below
    EPS and positive samples, it returns for every sample x the logarithm
    of the sum over the components of w * LogNormal(x; mu, sigma). *)
Theorem LGMM1_lpdf_mixture_density (erf : R -> R) (samples weights mus sigmas : list R) :
  weights <> [] -> length weights = length mus -> length mus = length sigmas ->
  Forall (fun w => 0 < w) weights -> Forall (fun s => EPS <= s) sigmas ->
  Forall (fun x => 0 < x) samples ->
  LGMM1_lpdf erf samples weights mus sigmas None None None
  = Ok (map (fun x => ln (lognormal_mixture_pdf weights mus sigmas x)) samples).
Proof.
  intros Hne Hwm Hms Hw Hs Hx. unfold LGMM1_lpdf. simpl.
  destruct (sigma_floor sigmas Hs) as [Hfloor Hnonneg].
  unfold lognormal_lpdf. rewrite Hnonneg, Hfloor. simpl.
  unfold broadcast_len at 1. rewrite Hms, Nat.eqb_refl. simpl.
  rewrite (for_each_ok _
             (fun xi => map2 (fun e z => - e - ln z)
                          (map2 (fun m s => 1 / 2 * ((ln xi - m) / s) ^ 2) mus sigmas)
                          (map (fun s => s * xi * sqrt (2 * PI)) sigmas))).
  2:{ intros xi _. rewrite broadcast2_same by done. simpl.
      apply broadcast2_same.
      rewrite map2_same_length, length_map; [done | by rewrite Hms]. }
  simpl. unfold broadcast_len. rewrite Nat.eqb_refl. simpl.
  rewrite <- Hms, <- Hwm, Nat.eqb_refl. simpl.
  rewrite (for_each_ok _ (fun row => map2 Rplus row (map ln weights))).
  2:{ intros row Hrow. apply in_map_iff in Hrow as (xi & <- & _).
      apply broadcast2_same.
      rewrite map2_same_length, map2_same_length, !length_map; try lia.
      rewrite map2_same_length, length_map; lia. }
  simpl. rewrite logsum_rows_nonempty.
  - f_equal. rewrite !map_map. apply map_ext_in. intros x Hin.
    rewrite List.Forall_forall in Hx. unfold lognormal_mixture_pdf.
    do 2 f_equal. exact (lognormal_row_exp x (Hx x Hin) weights mus sigmas Hwm Hms Hw Hs).
  - by destruct weights.
  - rewrite map_map. apply Forall_fmap, Forall_forall. intros x _. simpl.
    destruct weights, mus, sigmas; done.
Qed.

Lemma LGMM1_lpdf_mixture_density_witness :
  LGMM1_lpdf (fun z => z) [1; 2] [1 / 3; 2 / 3] [0; 1] [1; 2] None None None
  = Ok (map (fun x => ln (lognormal_mixture_pdf [1 / 3; 2 / 3] [0; 1] [1; 2] x)) [1; 2]).
Proof.
  pose proof EPS_pos as Heps.
  assert (Hle : EPS <= 1).
  { unfold EPS. rewrite <- Rinv_1. apply Rinv_le_contravar; [lra|].
    apply pow_R1_Rle. lra. }
  apply (LGMM1_lpdf_mixture_density (fun z => z) [1; 2] [1 / 3; 2 / 3] [0; 1] [1; 2]);
    [done | done | done | repeat constructor; lra | | repeat constructor; lra].
  constructor; [lra|]. constructor; [lra|]. constructor.
Defined.

(** ** The log-normal sampler is the exponential of the normal one *)

Lemma in_window_exp (low high draw : R) :
  in_window (exp low) (exp high) (exp draw) = in_window low high draw.
Proof.
  unfold in_window, Rleb, Rltb. f_equal.
  - destruct (Rle_dec (exp low) (exp draw)) as [He|He], (Rle_dec low draw) as [Hd|Hd];
      try done; exfalso.
    + apply Hd. destruct He as [He|He]; [left; by apply exp_lt_inv|right; by apply exp_inv].
    + apply He. destruct Hd as [Hd|Hd]; [left; by apply exp_increasing|right; by rewrite Hd].
  - destruct (Rlt_dec (exp draw) (exp high)) as [He|He], (Rlt_dec draw high) as [Hd|Hd];
      try done; exfalso.
    + apply Hd. by apply exp_lt_inv.
    + apply He. by apply exp_increasing.
Qed.

Section ExpOfNormal.
Context {RandomState : Type} {generator : Generator RandomState}.

Lemma rejection_loop_exp (weights mus sigmas : list R) (low high : R) (n_samples fuel : nat) :
  forall rng samples,
    rejection_loop (LGMM1_attempt weights mus sigmas None) (in_window (exp low) (exp high))
      fuel n_samples rng (map exp samples)
    = exp_samples
        (rejection_loop (GMM1_attempt weights mus sigmas None) (in_window low high)
           fuel n_samples rng samples).
Proof.
  induction fuel as [|fuel IH]; intros rng samples.
  - rewrite !rejection_loop_O, length_map. by destruct (_ <? _)%nat.
  - rewrite !rejection_loop_S, length_map. destruct (_ <? _)%nat; [|done].
    unfold LGMM1_attempt, GMM1_attempt, rbind.
    destruct (component_draw weights mus sigmas rng) as [[draw g]|e]; [|done].
    rewrite in_window_exp. destruct (in_window low high draw); [|apply IH].
    rewrite <- IH. by rewrite map_app.
Qed.

(** The assertion [len(active) == n_samples] of [LGMM1] holds of what the
    generator returns. *)
Lemma component_draws_checked (weights mus sigmas : list R)
  (rng : RandomState) (n_samples : nat) :
  component_draws weights mus sigmas true rng n_samples
  = component_draws weights mus sigmas false rng n_samples.
Proof.
  unfold component_draws, rbind.
  destruct (argmax_multinomial rng weights n_samples) as [[active rng1]|e] eqn:Hactive;
    [|done].
  apply argmax_multinomial_length in Hactive. by rewrite Hactive, Nat.eqb_refl.
Qed.

(** X15: without quantisation [LGMM1] is the exponential of [GMM1].
    For as many weights as means and bandwidths (which [GMM1] asserts and
    [LGMM1] does not), the two samplers, from the same generator and with
    the same bounds, end alike: [LGMM1] returns the exponentials of the
    samples of [GMM1] and leaves the generator in the same state, raises
    what [GMM1] raises, and does not return when [GMM1] does not. *)
Theorem LGMM1_exp_of_GMM1 (weights mus sigmas : list R) (fuel : nat)
  (low high : option R) (rng : RandomState) (n_samples : nat) :
  length weights = length mus -> length mus = length sigmas ->
  LGMM1 weights mus sigmas fuel low high None rng n_samples
  = exp_samples (GMM1 weights mus sigmas fuel low high None rng n_samples).
Proof.
  intros Hwm Hms. unfold LGMM1, GMM1.
  rewrite Hwm, Hms, !Nat.eqb_refl. cbn [andb negb].
  destruct low as [low|], high as [high|]; try done.
  - destruct (Rleb high low); [done|].
    exact (rejection_loop_exp weights mus sigmas low high n_samples fuel rng []).
  - rewrite component_draws_checked. unfold exp_samples, option_map, rbind.
    by destruct (component_draws weights mus sigmas false rng n_samples) as [[s g]|e].
Qed.
End ExpOfNormal.

Lemma LGMM1_exp_of_GMM1_witness :
  LGMM1 [1] [0] [1] 5 (Some 0) (Some 1) None zero_rng 2
  = exp_samples (GMM1 [1] [0] [1] 5 (Some 0) (Some 1) None zero_rng 2).
Proof.
  apply (LGMM1_exp_of_GMM1 [1] [0] [1] 5 (Some 0) (Some 1) zero_rng 2); reflexivity.
Defined.
